(** * Family tree layout engine

    A shallow embedding of [frontend/src/utils/layoutEngine.ts] and the
    properties of the layout it computes.

    Numbers.  The engine works on JavaScript numbers.  Every quantity it
    builds is an integer, and the only divisions are by two, applied to
    sums of node widths and gaps.  Node widths and gaps are even (lemmas
    [calculateNodeWidth_even], [subtreeWidth_even], [adjusted_width_even]),
    so these divisions are exact and, below 2^53, the numbers are those of
    [Z] with [Z.div].

    Graph.  [people : Record<string, Person>] is the list of its entries
    in the order [Object.values] visits them; [people[k]] is the first
    entry stored under [k].  Only own properties are modelled.

    State.  [computeLayout] owns three mutable objects ([nodes],
    [connections], [positioned]) that its nested functions update; they
    are the fields of [LayoutState], threaded explicitly.

    Callers.  The numbers [components/TreeSVG.tsx] and
    [components/Connectors.tsx] derive from a layout (the view box, the
    parent test, the midpoints of the connectors) are embedded too. *)

From Equations Require Import Equations.
From stdpp Require Import gmap strings list.
From Stdlib Require Import ZArith Lia.

Open Scope Z_scope.

(** ** Data model *)

Inductive Gender := male | female.

#[global] Instance Gender_eq_dec : EqDecision Gender.
Proof. solve_decision. Defined.

Record Person := mkPerson {
  id : string;
  name : string;
  gender : Gender;
  spouseId : option string;
  childrenIds : list string
}.

#[global] Instance Person_eq_dec : EqDecision Person.
Proof. solve_decision. Defined.

(** [Record<string, Person>]: entries in [Object.values] order. *)
Definition People := list (string * Person).

Fixpoint people_get (people : People) (k : string) : option Person :=
  match people with
  | [] => None
  | (k', p) :: rest => if decide (k' = k) then Some p else people_get rest k
  end.

Definition people_values (people : People) : list Person := map snd people.

Record LayoutNode := mkNode {
  person : Person;
  x : Z;
  y : Z;
  width : Z;
  height : Z;
  isSpouse : bool;
  isChild : bool;
  isParent : bool;
  isFocused : bool;
  generation : Z
}.

Inductive ConnectionType := spouse_conn | parent_child.

Record Point := mkPoint { px : Z; py : Z }.

Record Connection := mkConnection {
  conn_id : string;
  conn_type : ConnectionType;
  conn_from : Point;
  conn_to : Point;
  fromId : string;
  toId : string
}.

Record Bounds := mkBounds {
  minX : Z; maxX : Z; minY : Z; maxY : Z; bwidth : Z; bheight : Z
}.

Record LayoutResult := mkResult {
  res_nodes : list LayoutNode;
  res_connections : list Connection;
  bounds : Bounds;
  focusedNode : option LayoutNode
}.

(** ** CONFIG *)

Definition MIN_NODE_WIDTH : Z := 140.
Definition MAX_NODE_WIDTH : Z := 220.
Definition NODE_HEIGHT : Z := 90.
Definition CHAR_WIDTH : Z := 8.
Definition PADDING : Z := 60.
Definition HORIZONTAL_GAP : Z := 60.
Definition VERTICAL_GAP : Z := 130.
Definition SPOUSE_GAP : Z := 20.
Definition MAX_LAYERS_UP : Z := 4.
Definition MAX_LAYERS_DOWN : Z := 4.

Ltac config :=
  unfold MIN_NODE_WIDTH, MAX_NODE_WIDTH, NODE_HEIGHT, CHAR_WIDTH, PADDING,
    HORIZONTAL_GAP, VERTICAL_GAP, SPOUSE_GAP, MAX_LAYERS_UP, MAX_LAYERS_DOWN in *.

(** Linear arithmetic with the halvings of the engine spelled out. *)
Ltac lia_half := config; Z.to_euclidean_division_equations; lia.

(** The layers a recursion at [depth] may still descend before [limit];
    the measure of the three recursions. *)
Definition remaining_layers (limit depth : Z) : nat := Z.to_nat (limit - depth).

(** ** Module-level helpers *)

Definition calculateNodeWidth (nm : string) : Z :=
  let textWidth := Z.of_nat (String.length nm) * CHAR_WIDTH + PADDING in
  Z.max MIN_NODE_WIDTH (Z.min MAX_NODE_WIDTH textWidth).

Definition calculateCoupleWidth (p : Person) (spouse : option Person) : Z :=
  let personWidth := calculateNodeWidth (name p) in
  match spouse with
  | Some sp =>
      let spouseWidth := calculateNodeWidth (name sp) in
      personWidth + spouseWidth + SPOUSE_GAP
  | None => personWidth
  end.

(** [parents.some(p => p.spouseId === person.id)] *)
Definition some_spouse_is (parents : list Person) (pid : string) : bool :=
  existsb (fun p => bool_decide (spouseId p = Some pid)) parents.

Definition findParents (personId : string) (people : People) : list Person :=
  fold_left
    (fun parents p =>
       if bool_decide (personId ∈ childrenIds p) then
         if negb (some_spouse_is parents (id p)) then parents ++ [p]
         else parents
       else parents)
    (people_values people) [].

(** [person.spouseId && people[person.spouseId]]: the empty string is falsy. *)
Definition getSpouse (p : Person) (people : People) : option Person :=
  match spouseId p with
  | Some s => if decide (s = "") then None else people_get people s
  | None => None
  end.

(** The [for] loop accumulating [childrenWidth]: [ws] holds the widths of
    [validChildren] from index [i] on, [n] is [validChildren.length]. *)
Fixpoint children_width_loop (n : Z) (i : Z) (ws : list Z) (childrenWidth : Z) : Z :=
  match ws with
  | [] => childrenWidth
  | w :: rest =>
      let acc := childrenWidth + w in
      let acc := if decide (i < n - 1) then acc + HORIZONTAL_GAP else acc in
      children_width_loop n (i + 1) rest acc
  end.

(** [visited.add(spouse.id)] when the spouse resolves. *)
Definition add_spouse (spouse : option Person) (visited : gset string) : gset string :=
  match spouse with
  | Some sp => {[ id sp ]} ∪ visited
  | None => visited
  end.

(** [calculateSubtreeWidth] returns its number together with the final
    content of the [visited] set it was handed, which it mutates.  Every
    recursive call is made on [new Set(visited)], so the set a child call
    leaves behind is dropped by the caller. *)
Equations? calculateSubtreeWidth (personId : string) (people : People)
    (maxDepth currentDepth : Z) (visited : gset string) : Z * gset string
    by wf (remaining_layers (maxDepth + 1) currentDepth) lt :=
  calculateSubtreeWidth personId people maxDepth currentDepth visited with
      decide (currentDepth > maxDepth) := {
    | left _ := (0, visited)
    | right _ with decide (personId ∈ visited) := {
      | left _ := (0, visited)
      | right _ with people_get people personId := {
        | None := (0, {[ personId ]} ∪ visited)
        | Some p with decide (childrenIds p = [] ∨ currentDepth >= maxDepth) := {
          | left _ :=
              let spouse := getSpouse p people in
              let visited' := add_spouse spouse ({[ personId ]} ∪ visited) in
              (calculateCoupleWidth p spouse, visited')
          | right _ :=
              let spouse := getSpouse p people in
              let visited' := add_spouse spouse ({[ personId ]} ∪ visited) in
              let coupleWidth := calculateCoupleWidth p spouse in
              let validChildren :=
                filter (fun c => is_Some (people_get people c) ∧ c ∉ visited')
                       (childrenIds p) in
              let widths :=
                map (fun childId =>
                       fst (calculateSubtreeWidth childId people maxDepth
                              (currentDepth + 1) visited'))
                    validChildren in
              (Z.max coupleWidth
                 (children_width_loop (Z.of_nat (length validChildren)) 0 widths 0),
               visited')
          } } } }.
Proof. unfold remaining_layers. lia. Qed.

(** ** The state of one [computeLayout] call *)

Record LayoutState := mkState {
  nodes : list LayoutNode;
  connections : list Connection;
  positioned : gset string
}.

Definition push_node (n : LayoutNode) (st : LayoutState) : LayoutState :=
  mkState (nodes st ++ [n]) (connections st) ({[ id (person n) ]} ∪ positioned st).

Definition push_connection (c : Connection) (st : LayoutState) : LayoutState :=
  mkState (nodes st) (connections st ++ [c]) (positioned st).

Record Extent := mkExtent { leftX : Z; rightX : Z; centerX : Z }.

(** [nodes.find(n => n.person.id === pid)] *)
Definition find_node (pid : string) (ns : list LayoutNode) : option LayoutNode :=
  find (fun n => bool_decide (id (person n) = pid)) ns.

Definition spouse_connection_id (l r : string) : string :=
  "spouse-" +:+ l +:+ "-" +:+ r.

Definition parent_child_connection_id (p c : string) : string :=
  "parent-child-" +:+ p +:+ "-" +:+ c.

Section Layout.

(** The variables the nested functions of [computeLayout] close over. *)
Context (focusedPersonId : string) (people : People).

Definition createNode (p : Person) (nx ny gen : Z)
    (ctxSpouse ctxChild ctxParent : bool) : LayoutNode :=
  mkNode p nx ny (calculateNodeWidth (name p)) NODE_HEIGHT
         ctxSpouse ctxChild ctxParent
         (bool_decide (id p = focusedPersonId)) gen.

(** [if (!positioned.has(p.id)) { nodes.push(...); positioned.add(p.id) }] *)
Definition place (p : Person) (nx ny gen : Z)
    (ctxSpouse ctxChild ctxParent : bool) (st : LayoutState) : LayoutState :=
  if decide (id p ∈ positioned st) then st
  else push_node (createNode p nx ny gen ctxSpouse ctxChild ctxParent) st.

(** [spouse && !positioned.has(spouse.id)]: the spouse to place, if any. *)
Definition unplaced_spouse (p : Person) (st : LayoutState) : option Person :=
  match getSpouse p people with
  | Some sp => if decide (id sp ∈ positioned st) then None else Some sp
  | None => None
  end.

Definition positionCouple (p : Person) (cX cY gen : Z)
    (ctxChild ctxParent : bool) (st : LayoutState) : Extent * LayoutState :=
  let personWidth := calculateNodeWidth (name p) in
  match unplaced_spouse p st with
  | Some sp =>
      let spouseWidth := calculateNodeWidth (name sp) in
      let totalWidth := personWidth + spouseWidth + SPOUSE_GAP in
      let maleOnLeft := bool_decide (gender p = male) in
      let leftPerson := if maleOnLeft then p else sp in
      let rightPerson := if maleOnLeft then sp else p in
      let leftWidth := calculateNodeWidth (name leftPerson) in
      let rightWidth := calculateNodeWidth (name rightPerson) in
      let lX := cX - totalWidth / 2 + leftWidth / 2 in
      let rX := cX + totalWidth / 2 - rightWidth / 2 in
      let st1 :=
        place leftPerson lX cY gen
          (negb (bool_decide (id leftPerson = focusedPersonId)))
          ctxChild ctxParent st in
      let st2 :=
        place rightPerson rX cY gen
          (negb (bool_decide (id rightPerson = focusedPersonId)))
          ctxChild ctxParent st1 in
      let st3 :=
        push_connection
          (mkConnection
             (spouse_connection_id (id leftPerson) (id rightPerson))
             spouse_conn
             (mkPoint (lX + leftWidth / 2) cY)
             (mkPoint (rX - rightWidth / 2) cY)
             (id leftPerson) (id rightPerson))
          st2 in
      (mkExtent (lX - leftWidth / 2) (rX + rightWidth / 2) cX, st3)
  | None =>
      (mkExtent (cX - personWidth / 2) (cX + personWidth / 2) cX,
       place p cX cY gen false ctxChild ctxParent st)
  end.

(** The [for] loop of [positionDescendants]; [items] pairs [children[i]] with
    [adjustedWidths[i]] from the current index on, and [rec] is the recursive
    call on a child. *)
Fixpoint children_loop (rec : Person -> Z -> LayoutState -> LayoutState)
    (parentPerson : Person) (parentCenterX parentY childY gen : Z)
    (items : list (Person * Z)) (currentX : Z) (st : LayoutState) : LayoutState :=
  match items with
  | [] => st
  | (child, childWidth) :: rest =>
      let childCenterX := currentX + childWidth / 2 in
      let '(result, st1) :=
        positionCouple child childCenterX childY (gen + 1) true false st in
      let st2 :=
        match find_node (id child) (nodes st1) with
        | Some childNode =>
            push_connection
              (mkConnection
                 (parent_child_connection_id (id parentPerson) (id child))
                 parent_child
                 (mkPoint parentCenterX (parentY + NODE_HEIGHT / 2))
                 (mkPoint (x childNode) (childY - NODE_HEIGHT / 2))
                 (id parentPerson) (id child))
              st1
        | None => st1
        end in
      let st3 := rec child (centerX result) st2 in
      children_loop rec parentPerson parentCenterX parentY childY gen rest
        (currentX + childWidth + HORIZONTAL_GAP) st3
  end.

(** [childrenIds.map(id => people[id]).filter(Boolean)
      .filter(c => !positioned.has(c.id))] *)
Definition unpositioned_children (parentPerson : Person) (st : LayoutState)
    : list Person :=
  filter (fun c => id c ∉ positioned st)
         (omap (people_get people) (childrenIds parentPerson)).

Definition adjusted_width (depth : Z) (st : LayoutState) (child : Person) : Z :=
  let w :=
    fst (calculateSubtreeWidth (id child) people (MAX_LAYERS_DOWN - depth - 1) 0
           (positioned st)) in
  let minWidth := calculateCoupleWidth child (getSpouse child people) in
  Z.max w minWidth.

Definition sum_widths (ws : list Z) : Z := fold_left Z.add ws 0.

Equations? positionDescendants (parentPerson : Person)
    (parentCenterX parentY gen depth : Z) (st : LayoutState) : LayoutState
    by wf (remaining_layers MAX_LAYERS_DOWN depth) lt :=
  positionDescendants parentPerson parentCenterX parentY gen depth st with
      decide (depth >= MAX_LAYERS_DOWN) := {
    | left _ := st
    | right _ with unpositioned_children parentPerson st := {
      | [] := st
      | children :=
          let childY := parentY + VERTICAL_GAP + NODE_HEIGHT in
          let adjustedWidths := map (adjusted_width depth st) children in
          let totalWidth :=
            sum_widths adjustedWidths
            + (Z.of_nat (length children) - 1) * HORIZONTAL_GAP in
          children_loop
            (fun child cX s =>
               positionDescendants child cX childY (gen + 1) (depth + 1) s)
            parentPerson parentCenterX parentY childY gen
            (zip children adjustedWidths)
            (parentCenterX - totalWidth / 2) st
      } }.
Proof. all: unfold remaining_layers; config; lia. Qed.

Equations? positionAncestors (personId : string)
    (personCenterX personY gen depth : Z) (st : LayoutState) : LayoutState
    by wf (remaining_layers MAX_LAYERS_UP depth) lt :=
  positionAncestors personId personCenterX personY gen depth st with
      decide (depth >= MAX_LAYERS_UP) := {
    | left _ := st
    | right _ with
        filter (fun p => id p ∉ positioned st) (findParents personId people) := {
      | [] := st
      | parent :: _ :=
          let parentY := personY - VERTICAL_GAP - NODE_HEIGHT in
          let '(result, st1) :=
            positionCouple parent personCenterX parentY (gen - 1) false true st in
          let st2 :=
            match find_node personId (nodes st1) with
            | Some childNode =>
                push_connection
                  (mkConnection
                     (parent_child_connection_id (id parent) personId)
                     parent_child
                     (mkPoint (centerX result) (parentY + NODE_HEIGHT / 2))
                     (mkPoint (x childNode) (personY - NODE_HEIGHT / 2))
                     (id parent) personId)
                  st1
            | None => st1
            end in
          positionAncestors (id parent) (centerX result) parentY (gen - 1)
            (depth + 1) st2
      } }.
Proof. all: unfold remaining_layers; config; lia. Qed.

End Layout.

(** ** Bounds *)

(** [Infinity] and [-Infinity] are the [None] of the running extremum. *)
Definition ext_min (m : option Z) (v : Z) : option Z :=
  Some (match m with Some a => Z.min a v | None => v end).

Definition ext_max (m : option Z) (v : Z) : option Z :=
  Some (match m with Some a => Z.max a v | None => v end).

Definition bounds_loop (ns : list LayoutNode)
    : option Z * option Z * option Z * option Z :=
  fold_left
    (fun '(mnX, mxX, mnY, mxY) n =>
       let halfWidth := width n / 2 in
       let halfHeight := height n / 2 in
       (ext_min mnX (x n - halfWidth), ext_max mxX (x n + halfWidth),
        ext_min mnY (y n - halfHeight), ext_max mxY (y n + halfHeight)))
    ns (None, None, None, None).

(** [if (!isFinite(minX)) minX = maxX = minY = maxY = 0] *)
Definition compute_bounds (ns : list LayoutNode) : Bounds :=
  match bounds_loop ns with
  | (Some mnX, mxX, mnY, mxY) =>
      let mxX := default 0 mxX in
      let mnY := default 0 mnY in
      let mxY := default 0 mxY in
      mkBounds mnX mxX mnY mxY (mxX - mnX) (mxY - mnY)
  | (None, _, _, _) => mkBounds 0 0 0 0 0 0
  end.

(** ** computeLayout *)

Definition empty_state : LayoutState := mkState [] [] ∅.

(** The state after the three placement phases. *)
Definition layout_state (focusedPersonId : string) (people : People)
    (focusedPerson : Person) : LayoutState :=
  let '(result, st1) :=
    positionCouple focusedPersonId people focusedPerson 0 0 0 false false
      empty_state in
  let st2 :=
    positionDescendants focusedPersonId people focusedPerson (centerX result) 0 0 0
      st1 in
  positionAncestors focusedPersonId people focusedPersonId (centerX result) 0 0 0 st2.

Definition computeLayout (focusedPersonId : string) (people : People) : LayoutResult :=
  match people_get people focusedPersonId with
  | None => mkResult [] [] (mkBounds 0 0 0 0 0 0) None
  | Some focusedPerson =>
      let st := layout_state focusedPersonId people focusedPerson in
      mkResult (nodes st) (connections st) (compute_bounds (nodes st))
               (find isFocused (nodes st))
  end.


(** ** The renderer's use of the layout

    [components/TreeSVG.tsx] calls [computeLayout], frames the result in an
    SVG view box and asks, per node, whether the person has parents;
    [components/Connectors.tsx] draws each connection. *)

(** [personHasParents]: the loop returns at the first person listing
    [personId] as a child. *)
Fixpoint has_parents_loop (personId : string) (vals : list Person) : bool :=
  match vals with
  | [] => false
  | p :: rest =>
      if bool_decide (personId ∈ childrenIds p) then true
      else has_parents_loop personId rest
  end.

Definition personHasParents (personId : string) (people : People) : bool :=
  has_parents_loop personId (people_values people).

Definition viewBoxPadding : Z := 200.

(** The four numbers of the [viewBox] attribute, which the source joins
    with spaces: min-x, min-y, width, height. *)
Record ViewBox := mkViewBox { vb_x : Z; vb_y : Z; vb_width : Z; vb_height : Z }.

Definition viewBox (layout : LayoutResult) : ViewBox :=
  let b := bounds layout in
  mkViewBox (minX b - viewBoxPadding) (minY b - viewBoxPadding)
            (bwidth b + viewBoxPadding * 2) (bheight b + viewBoxPadding * 2).

(** [SpouseConnector]: the heart sits at [(midX, midY)]. *)
Definition spouse_midX (c : Connection) : Z := (px (conn_from c) + px (conn_to c)) / 2.
Definition spouse_midY (c : Connection) : Z := py (conn_from c).

(** [ParentChildConnector]: the row of the elbow's horizontal segment. *)
Definition elbow_midY (c : Connection) : Z :=
  py (conn_from c) + (py (conn_to c) - py (conn_from c)) / 2.

(** * Notions used in the statements *)

(** ** Widths *)

(** The spec's clamp of [v] to the interval from [lo] to [hi]. *)
Definition clamp (lo hi v : Z) : Z :=
  if decide (v < lo) then lo else if decide (hi < v) then hi else v.

(** [name.length * CHAR_WIDTH + PADDING], the width before clamping. *)
Definition textWidth (nm : string) : Z :=
  Z.of_nat (String.length nm) * CHAR_WIDTH + PADDING.

(** The number [calculateSubtreeWidth] returns. *)
Definition subtreeWidth (personId : string) (people : People)
    (maxDepth currentDepth : Z) (visited : gset string) : Z :=
  fst (calculateSubtreeWidth personId people maxDepth currentDepth visited).

(** The set a child call receives: the caller's set with the person and
    the resolved spouse added. *)
Definition child_visited (personId : string) (p : Person) (people : People)
    (visited : gset string) : gset string :=
  add_spouse (getSpouse p people) ({[ personId ]} ∪ visited).

(** [validChildren] *)
Definition validChildren (p : Person) (people : People) (visited' : gset string)
    : list string :=
  filter (fun c => is_Some (people_get people c) ∧ c ∉ visited') (childrenIds p).

(** Sum of the widths plus one gap between neighbours. *)
Definition gap_sum (ws : list Z) : Z :=
  match ws with
  | [] => 0
  | _ => sum_widths ws + (Z.of_nat (length ws) - 1) * HORIZONTAL_GAP
  end.

(** [ws] is obtained from [vs] by dropping entries and lowering the rest. *)
Inductive dominated : list Z -> list Z -> Prop :=
| dominated_nil : dominated [] []
| dominated_skip v ws vs : 0 <= v -> dominated ws vs -> dominated ws (v :: vs)
| dominated_cons w v ws vs : 0 <= w <= v -> dominated ws vs ->
    dominated (w :: ws) (v :: vs).

(** ** What the placement functions add *)

(** [n.person.id] *)
Definition node_id (n : LayoutNode) : string := id (person n).

Definition node_ids (ns : list LayoutNode) : list string := map node_id ns.

(** The nodes a guarded push adds: none for a positioned id. *)
Definition place_new fid (p : Person) (nx ny gen : Z)
    (ctxSpouse ctxChild ctxParent : bool) (st : LayoutState) : list LayoutNode :=
  if decide (id p ∈ positioned st) then []
  else [createNode fid p nx ny gen ctxSpouse ctxChild ctxParent].

(** The nodes [positionCouple] adds, in emission order. *)
Definition couple_new fid people (p : Person) (cX cY gen : Z)
    (ctxChild ctxParent : bool) (st : LayoutState) : list LayoutNode :=
  let personWidth := calculateNodeWidth (name p) in
  match unplaced_spouse people p st with
  | Some sp =>
      let totalWidth := personWidth + calculateNodeWidth (name sp) + SPOUSE_GAP in
      let leftPerson := if bool_decide (gender p = male) then p else sp in
      let rightPerson := if bool_decide (gender p = male) then sp else p in
      let lX := cX - totalWidth / 2 + calculateNodeWidth (name leftPerson) / 2 in
      let rX := cX + totalWidth / 2 - calculateNodeWidth (name rightPerson) / 2 in
      let sL := negb (bool_decide (id leftPerson = fid)) in
      let sR := negb (bool_decide (id rightPerson = fid)) in
      place_new fid leftPerson lX cY gen sL ctxChild ctxParent st
      ++ place_new fid rightPerson rX cY gen sR ctxChild ctxParent
           (place fid leftPerson lX cY gen sL ctxChild ctxParent st)
  | None => place_new fid p cX cY gen false ctxChild ctxParent st
  end.

(** One step of [positionAncestors] once a parent has been chosen. *)
Definition ancestor_step fid people (personId : string)
    (personCenterX personY gen : Z) (parent : Person) (st : LayoutState)
    : Extent * LayoutState :=
  let parentY := personY - VERTICAL_GAP - NODE_HEIGHT in
  let '(result, st1) :=
    positionCouple fid people parent personCenterX parentY (gen - 1) false true st in
  (result,
   match find_node personId (nodes st1) with
   | Some childNode =>
       push_connection
         (mkConnection
            (parent_child_connection_id (id parent) personId)
            parent_child
            (mkPoint (centerX result) (parentY + NODE_HEIGHT / 2))
            (mkPoint (x childNode) (personY - NODE_HEIGHT / 2))
            (id parent) personId)
         st1
   | None => st1
   end).

(** ** Invariants of the layout state *)

(** No id occurs twice among the nodes, and every node's id is positioned. *)
Definition ids_tracked (st : LayoutState) : Prop :=
  NoDup (node_ids (nodes st))
  ∧ (forall n, n ∈ nodes st -> node_id n ∈ positioned st).

(** Every node lies within the layer limits. *)
Definition generations_bounded (st : LayoutState) : Prop :=
  Forall (fun n => - MAX_LAYERS_UP <= generation n <= MAX_LAYERS_DOWN) (nodes st).

(** A focused node is not flagged as a spouse. *)
Definition focused_not_spouse (st : LayoutState) : Prop :=
  Forall (fun n => isFocused n = true -> isSpouse n = false) (nodes st).

(** Every node has the width of its name and the fixed height. *)
Definition sized (st : LayoutState) : Prop :=
  Forall (fun n => width n = calculateNodeWidth (name (person n))
                   ∧ height n = NODE_HEIGHT) (nodes st).

(** ** Well-formed graphs and results *)

(** Every entry of the record is stored under the id of its person. *)
Definition keyed_by_id (people : People) : Prop :=
  Forall (fun kp => id kp.2 = kp.1) people.

(** The rectangle of a node: [x ± width / 2] by [y ± height / 2]. *)
Definition node_left (n : LayoutNode) : Z := x n - width n / 2.
Definition node_right (n : LayoutNode) : Z := x n + width n / 2.
Definition node_top (n : LayoutNode) : Z := y n - height n / 2.
Definition node_bottom (n : LayoutNode) : Z := y n + height n / 2.

(** A running minimum that is set and not above [v]. *)
Definition below (m : option Z) (v : Z) : Prop :=
  match m with Some a => a <= v | None => False end.

(** A running maximum that is set and not below [v]. *)
Definition above (m : option Z) (v : Z) : Prop :=
  match m with Some a => v <= a | None => False end.

(** What a caller may rely on in a [LayoutResult]. *)
Definition well_formed_result (r : LayoutResult) : Prop :=
  NoDup (node_ids (res_nodes r))
  ∧ Forall (fun n => width n = calculateNodeWidth (name (person n))
                     ∧ height n = NODE_HEIGHT) (res_nodes r)
  ∧ Forall (fun n => minX (bounds r) <= node_left n
                     ∧ node_right n <= maxX (bounds r)
                     ∧ minY (bounds r) <= node_top n
                     ∧ node_bottom n <= maxY (bounds r)) (res_nodes r)
  ∧ bwidth (bounds r) = maxX (bounds r) - minX (bounds r)
  ∧ bheight (bounds r) = maxY (bounds r) - minY (bounds r)
  ∧ focusedNode r = find isFocused (res_nodes r).

(** ** Rows *)

(** The horizontal extent of [n] lies between [lo] and [hi]. *)
Definition within (lo hi : Z) (n : LayoutNode) : Prop :=
  lo <= node_left n ∧ node_right n <= hi.

(** Two nodes of one row meet at most at a boundary point. *)
Definition separated (n1 n2 : LayoutNode) : Prop :=
  y n1 = y n2 ->
  node_right n1 <= node_left n2 ∨ node_right n2 <= node_left n1.

(** Any two entries of the list are [separated]. *)
Fixpoint pairwise_separated (ns : list LayoutNode) : Prop :=
  match ns with
  | [] => True
  | n :: rest => Forall (separated n) rest ∧ pairwise_separated rest
  end.

(** [totalWidth] of [positionDescendants]: 0 when nothing is placed. *)
Definition desc_total people (parentPerson : Person) (depth : Z)
    (st : LayoutState) : Z :=
  if decide (depth >= MAX_LAYERS_DOWN) then 0
  else gap_sum (map (adjusted_width people depth st)
                    (unpositioned_children people parentPerson st)).

(** What a recursive call on a child must guarantee: it appends nodes
    that lie strictly below row [py], inside the space the child's
    children take around [cX], without overlap within a row. *)
Definition desc_spec people (rec : Person -> Z -> LayoutState -> LayoutState)
    (py depth : Z) : Prop :=
  forall parentPerson cX st,
    exists new,
      nodes (rec parentPerson cX st) = nodes st ++ new
      ∧ positioned st ⊆ positioned (rec parentPerson cX st)
      ∧ Forall (fun n =>
                  within (cX - desc_total people parentPerson depth st / 2)
                         (cX + desc_total people parentPerson depth st / 2) n
                  ∧ py + VERTICAL_GAP + NODE_HEIGHT <= y n) new
      ∧ pairwise_separated new.

(** ** Couples *)

(** [c] is a spouse connection between the ids [a] and [b]. *)
Definition is_spouse_link (a b : string) (c : Connection) : bool :=
  match conn_type c with
  | spouse_conn =>
      (bool_decide (fromId c = a) && bool_decide (toId c = b))
      || (bool_decide (fromId c = b) && bool_decide (toId c = a))
  | parent_child => false
  end.

(** The spouse connections joining the ids [a] and [b]. *)
Definition spouse_links (a b : string) (cs : list Connection) : list Connection :=
  List.filter (is_spouse_link a b) cs.

(** [A] and [B] are shown as a couple: both have a node, on one row, at
    the distance of two half widths and the spouse gap, the male member of
    a mixed couple on the left, and one spouse connection joins them. *)
Definition displayed (A B : Person) (ns : list LayoutNode)
    (cs : list Connection) : Prop :=
  exists nA nB,
    nA ∈ ns ∧ nB ∈ ns ∧ person nA = A ∧ person nB = B
    ∧ y nA = y nB
    ∧ Z.abs (x nA - x nB) = width nA / 2 + SPOUSE_GAP + width nB / 2
    ∧ (gender A = male -> gender B = female -> x nA < x nB)
    ∧ (gender B = male -> gender A = female -> x nB < x nA)
    ∧ length (spouse_links (id A) (id B) cs) = 1%nat.

(** [A] and [B] are persons of the graph that resolve to each other as
    spouses, alone in doing so. *)
Definition couple_in (people : People) (A B : Person) : Prop :=
  A ∈ people_values people ∧ B ∈ people_values people
  ∧ getSpouse A people = Some B ∧ getSpouse B people = Some A
  ∧ id A ≠ id B
  ∧ (forall q, q ∈ people_values people ->
       (id q = id A -> q = A) ∧ (id q = id B -> q = B))
  ∧ (forall q, q ∈ people_values people ->
       (getSpouse q people = Some A -> q = B)
       ∧ (getSpouse q people = Some B -> q = A)).

(** The state treats [A] and [B] as one unit: both positioned or neither,
    shown as a couple once positioned, and not connected before. *)
Definition couple_inv (A B : Person) (st : LayoutState) : Prop :=
  ids_tracked st
  ∧ (id A ∈ positioned st <-> id B ∈ positioned st)
  ∧ (id A ∈ positioned st -> displayed A B (nodes st) (connections st))
  ∧ (id A ∉ positioned st -> spouse_links (id A) (id B) (connections st) = []).

(** ** Example graphs *)

(** Person X lists Y as a child and Y lists X as a child. *)
Definition cyclic_graph : People :=
  [ ("x", mkPerson "x" "Xavier" male None ["y"]);
    ("y", mkPerson "y" "Yolanda" female None ["x"]) ].

Module Examples.

Definition grandpa := mkPerson "gp" "George" male (Some "gm") ["dad"].
Definition grandma := mkPerson "gm" "Martha" female (Some "gp") ["dad"].
Definition dad := mkPerson "dad" "Bartholomew Fitzgerald" male (Some "mom") ["k1"; "k2"].
Definition mom := mkPerson "mom" "Ann" female (Some "dad") ["k1"; "k2"].
Definition kid1 := mkPerson "k1" "Tom" male None [].
Definition kid2 := mkPerson "k2" "Eve" female None [].

(** Three generations, every spouse link symmetric. *)
Definition family : People :=
  [ ("gp", grandpa); ("gm", grandma); ("dad", dad); ("mom", mom);
    ("k1", kid1); ("k2", kid2) ].

Definition fred := mkPerson "f" "Fred" male (Some "b") [].
Definition alan := mkPerson "a" "Alan" male (Some "b") [].
Definition beth := mkPerson "b" "Beth" female (Some "a") [].

(** Alan and Beth name each other; Fred names Beth too. *)
Definition rival_graph : People := [ ("f", fred); ("a", alan); ("b", beth) ].

Definition solo := mkPerson "p" "Pat" female None [].

End Examples.

(** The claim C6 as the specification words it, for one graph, focus and
    pair of persons. *)
Definition spouse_symmetry_claim fid people (A B : Person) : Prop :=
  people_get people (id A) = Some A ->
  people_get people (id B) = Some B ->
  spouseId A = Some (id B) ->
  spouseId B = Some (id A) ->
  (exists n, n ∈ res_nodes (computeLayout fid people)
             /\ (person n = A \/ person n = B)) ->
  displayed A B (res_nodes (computeLayout fid people))
                (res_connections (computeLayout fid people)).

(** ** Rows and roles *)

(** The y coordinate of the row of generation [gen]. *)
Definition row_y (gen : Z) : Z := gen * (VERTICAL_GAP + NODE_HEIGHT).

(** The connection [positionDescendants] pushes from a parent at
    [(pcX, py)] to the node found for a child. *)
Definition child_link (parentPerson child : Person) (pcX py : Z)
    (childNode : LayoutNode) : Connection :=
  mkConnection
    (parent_child_connection_id (id parentPerson) (id child))
    parent_child
    (mkPoint pcX (py + NODE_HEIGHT / 2))
    (mkPoint (x childNode) (py + VERTICAL_GAP + NODE_HEIGHT - NODE_HEIGHT / 2))
    (id parentPerson) (id child).

(** The connection [positionAncestors] pushes from a parent placed around
    [cX] to the node found for the person at row [py]. *)
Definition parent_link (parent : Person) (personId : string) (cX py : Z)
    (childNode : LayoutNode) : Connection :=
  mkConnection
    (parent_child_connection_id (id parent) personId)
    parent_child
    (mkPoint cX (py - VERTICAL_GAP - NODE_HEIGHT + NODE_HEIGHT / 2))
    (mkPoint (x childNode) (py - NODE_HEIGHT / 2))
    (id parent) personId.

(** A connection as the renderer expects it: a spouse link is horizontal
    and spans the spouse gap, a parent-child link descends by the vertical
    gap. *)
Definition connection_shaped (c : Connection) : Prop :=
  match conn_type c with
  | spouse_conn =>
      py (conn_from c) = py (conn_to c)
      ∧ px (conn_to c) - px (conn_from c) = SPOUSE_GAP
  | parent_child => py (conn_to c) - py (conn_from c) = VERTICAL_GAP
  end.

(** Every node sits on the row of its generation and carries the role
    flags of that row. *)
Definition on_its_row (n : LayoutNode) : Prop :=
  y n = row_y (generation n)
  ∧ isChild n = bool_decide (0 < generation n)
  ∧ isParent n = bool_decide (generation n < 0).

(** The positioned ids are exactly the ids of the nodes, and every
    connection joins two positioned ids. *)
Definition anchored (st : LayoutState) : Prop :=
  ids_tracked st
  ∧ (forall i, i ∈ positioned st -> exists n, n ∈ nodes st ∧ node_id n = i)
  ∧ Forall (fun c => fromId c ∈ positioned st ∧ toId c ∈ positioned st)
           (connections st).

(** No member of the list is named as spouse by an earlier member. *)
Definition spouse_free (l : list Person) : Prop :=
  forall i j r1 r2, (i < j)%nat -> l !! i = Some r1 -> l !! j = Some r2 ->
                    spouseId r1 ≠ Some (id r2).

(** A running extremum is the value of [f] at one of the nodes seen. *)
Definition attained (m : option Z) (f : LayoutNode -> Z) (seen : list LayoutNode)
    : Prop :=
  match m with
  | Some a => exists n, n ∈ seen ∧ f n = a
  | None => seen = []
  end.

(** ** The spouse flag *)

(** A spouse connection of [cs] ends at the id [i]. *)
Definition spouse_linked (i : string) (cs : list Connection) : Prop :=
  exists c, c ∈ cs ∧ conn_type c = spouse_conn ∧ (fromId c = i ∨ toId c = i).

(** A node flagged as a spouse is not the focused person, and a spouse
    connection ends at it. *)
Definition flagged_are_linked (fid : string) (st : LayoutState) : Prop :=
  Forall (fun n => isSpouse n = true ->
                   node_id n ≠ fid ∧ spouse_linked (node_id n) (connections st))
         (nodes st).

(** Every node at an end of a spouse connection is flagged as a spouse
    unless it is the focused person.  The state keeps with it: the nodes
    are persons of the graph, spouse connections join positioned ids, and
    a node no spouse connection ends at has no spouse left to place. *)
Definition linked_are_flagged (fid : string) (people : People)
    (st : LayoutState) : Prop :=
  ids_tracked st
  ∧ Forall (fun n => person n ∈ people_values people) (nodes st)
  ∧ Forall (fun c => conn_type c = spouse_conn ->
                     fromId c ∈ positioned st ∧ toId c ∈ positioned st)
           (connections st)
  ∧ Forall (fun n => spouse_linked (node_id n) (connections st)
                     ∨ (forall sp, getSpouse (person n) people = Some sp ->
                                   id sp ∈ positioned st))
           (nodes st)
  ∧ Forall (fun n => spouse_linked (node_id n) (connections st) ->
                     node_id n ≠ fid -> isSpouse n = true)
           (nodes st).

(** * Properties *)

(** ** Node and couple widths *)

Lemma calculateNodeWidth_bounds nm :
  MIN_NODE_WIDTH <= calculateNodeWidth nm <= MAX_NODE_WIDTH.
Proof. unfold calculateNodeWidth. config. lia. Qed.

Lemma calculateNodeWidth_even nm : exists k, calculateNodeWidth nm = 2 * k.
Proof.
  unfold calculateNodeWidth. config.
  set (n := Z.of_nat (String.length nm)).
  destruct (Z.max_spec 140 (Z.min 220 (n * 8 + 60))) as [[_ ->]|[_ ->]].
  - destruct (Z.min_spec 220 (n * 8 + 60)) as [[_ ->]|[_ ->]].
    + by exists 110.
    + exists (n * 4 + 30). lia.
  - by exists 70.
Qed.

Lemma calculateNodeWidth_half nm :
  2 * (calculateNodeWidth nm / 2) = calculateNodeWidth nm.
Proof.
  destruct (calculateNodeWidth_even nm) as [k ->].
  rewrite (Z.mul_comm 2 k), Z.div_mul; lia.
Qed.

(** C8.  [calculateNodeWidth] is [name.length * CHAR_WIDTH + PADDING]
    clamped to the interval from [MIN_NODE_WIDTH] to [MAX_NODE_WIDTH]:
    the result lies in that interval, a name whose text width exceeds
    [MAX_NODE_WIDTH] gets exactly [MAX_NODE_WIDTH], and the one-letter
    name ["A"] gets exactly [MIN_NODE_WIDTH]. *)
Theorem calculateNodeWidth_clamped :
  (forall nm,
     calculateNodeWidth nm = clamp MIN_NODE_WIDTH MAX_NODE_WIDTH (textWidth nm)
     /\ MIN_NODE_WIDTH <= calculateNodeWidth nm <= MAX_NODE_WIDTH)
  /\ (forall nm, MAX_NODE_WIDTH < textWidth nm ->
        calculateNodeWidth nm = MAX_NODE_WIDTH)
  /\ calculateNodeWidth "A" = MIN_NODE_WIDTH.
Proof.
  split; [|split].
  - intros nm. split; [|apply calculateNodeWidth_bounds].
    unfold calculateNodeWidth, clamp, textWidth.
    repeat case_decide; config; lia.
  - intros nm. unfold calculateNodeWidth, textWidth. config. lia.
  - reflexivity.
Qed.

Lemma calculateNodeWidth_clamped_witness :
  MAX_NODE_WIDTH < textWidth "Bartholomew Fitzgerald-Montgomery"
  /\ calculateNodeWidth "Bartholomew Fitzgerald-Montgomery" = MAX_NODE_WIDTH.
Proof.
  split; [reflexivity|].
  apply (proj1 (proj2 calculateNodeWidth_clamped)). reflexivity.
Defined.

Lemma calculateCoupleWidth_lower p sp :
  MIN_NODE_WIDTH <= calculateCoupleWidth p sp.
Proof.
  unfold calculateCoupleWidth. destruct sp as [s|].
  - pose proof (calculateNodeWidth_bounds (name p)).
    pose proof (calculateNodeWidth_bounds (name s)). config. lia.
  - apply calculateNodeWidth_bounds.
Qed.

Lemma calculateCoupleWidth_even p sp : exists k, calculateCoupleWidth p sp = 2 * k.
Proof.
  unfold calculateCoupleWidth. destruct sp as [s|].
  - destruct (calculateNodeWidth_even (name p)) as [a ->].
    destruct (calculateNodeWidth_even (name s)) as [b ->].
    exists (a + b + 10). config. lia.
  - apply calculateNodeWidth_even.
Qed.

(** ** The subtree width *)

Lemma sum_widths_from ws a : fold_left Z.add ws a = a + sum_widths ws.
Proof.
  unfold sum_widths. revert a.
  induction ws as [|w ws IH]; intros a; simpl; [lia|].
  rewrite (IH (a + w)), (IH (0 + w)). lia.
Qed.

Lemma sum_widths_cons w ws : sum_widths (w :: ws) = w + sum_widths ws.
Proof. unfold sum_widths at 1. simpl. apply sum_widths_from. Qed.

Lemma sum_widths_nil : sum_widths [] = 0.
Proof. reflexivity. Qed.

(** The loop adds one gap after every width but the last. *)
Lemma children_width_loop_closed ws i acc :
  0 <= i ->
  children_width_loop (i + Z.of_nat (length ws)) i ws acc =
  acc + sum_widths ws
  + (match ws with [] => 0 | _ => (Z.of_nat (length ws) - 1) * HORIZONTAL_GAP end).
Proof.
  revert i acc. induction ws as [|w ws IH]; intros i acc Hi.
  - simpl. rewrite sum_widths_nil. lia.
  - cbn [children_width_loop length]. rewrite sum_widths_cons.
    replace (i + Z.of_nat (S (length ws))) with ((i + 1) + Z.of_nat (length ws)) by lia.
    rewrite IH by lia. destruct ws as [|w' ws].
    + simpl. rewrite sum_widths_nil. case_decide; config; lia.
    + cbn [length]. case_decide; config; lia.
Qed.

Lemma children_width_loop_total ws :
  children_width_loop (Z.of_nat (length ws)) 0 ws 0 =
  match ws with
  | [] => 0
  | _ => sum_widths ws + (Z.of_nat (length ws) - 1) * HORIZONTAL_GAP
  end.
Proof.
  pose proof (children_width_loop_closed ws 0 0) as H.
  rewrite Z.add_0_l in H. rewrite H by lia.
  destruct ws; [rewrite sum_widths_nil|]; config; lia.
Qed.

Lemma subtreeWidth_unfold personId people maxDepth currentDepth visited :
  subtreeWidth personId people maxDepth currentDepth visited =
  if decide (currentDepth > maxDepth) then 0
  else if decide (personId ∈ visited) then 0
  else match people_get people personId with
       | None => 0
       | Some p =>
           let coupleWidth := calculateCoupleWidth p (getSpouse p people) in
           if decide (childrenIds p = [] ∨ currentDepth >= maxDepth)
           then coupleWidth
           else
             let visited' := child_visited personId p people visited in
             let vc := validChildren p people visited' in
             Z.max coupleWidth
               (children_width_loop (Z.of_nat (length vc)) 0
                  (map (fun childId =>
                          subtreeWidth childId people maxDepth (currentDepth + 1)
                            visited') vc) 0)
       end.
Proof.
  unfold subtreeWidth. simp calculateSubtreeWidth.
  destruct (decide (currentDepth > maxDepth)); simpl; [done|].
  destruct (decide (personId ∈ visited)); simpl; [done|].
  destruct (people_get people personId) as [p|]; simpl; [|done].
  destruct (decide (childrenIds p = [] ∨ currentDepth >= maxDepth)); simpl; done.
Qed.

(** C2.  The number [calculateSubtreeWidth] returns: 0 past the depth
    limit, on a visited id and on an id absent from the graph; the couple
    width for a person without children or at the depth limit; otherwise
    the larger of the couple width and the sum of the children's subtree
    widths plus one gap between neighbours, over the resolvable children
    not in the visited set, in [childrenIds] order.  Every child call is
    made at depth + 1 and on the same set: the caller's set with the person
    and the resolved spouse added, whatever the sibling calls did to their
    copies. *)
Theorem calculateSubtreeWidth_algorithm personId people maxDepth currentDepth visited :
  fst (calculateSubtreeWidth personId people maxDepth currentDepth visited) =
  if decide (currentDepth > maxDepth ∨ personId ∈ visited) then 0
  else match people_get people personId with
       | None => 0
       | Some p =>
           let coupleWidth :=
             match getSpouse p people with
             | Some sp =>
                 calculateNodeWidth (name p) + calculateNodeWidth (name sp)
                 + SPOUSE_GAP
             | None => calculateNodeWidth (name p)
             end in
           if decide (childrenIds p = [] ∨ currentDepth >= maxDepth)
           then coupleWidth
           else
             let visited' :=
               match getSpouse p people with
               | Some sp => {[ id sp ]} ∪ ({[ personId ]} ∪ visited)
               | None => {[ personId ]} ∪ visited
               end in
             let children :=
               filter (fun c => is_Some (people_get people c) ∧ c ∉ visited')
                      (childrenIds p) in
             let n := Z.of_nat (length children) in
             Z.max coupleWidth
               (sum_widths
                  (map (fun c =>
                          fst (calculateSubtreeWidth c people maxDepth
                                 (currentDepth + 1) visited'))
                       children)
                + (n - 1) * HORIZONTAL_GAP)
       end.
Proof.
  fold (subtreeWidth personId people maxDepth currentDepth visited).
  rewrite subtreeWidth_unfold.
  destruct (decide (currentDepth > maxDepth)).
  { rewrite decide_True by tauto. done. }
  destruct (decide (personId ∈ visited)).
  { rewrite decide_True by tauto. done. }
  rewrite decide_False by tauto.
  destruct (people_get people personId) as [p|]; [|done].
  cbv zeta. case_decide; [done|].
  unfold child_visited, validChildren, add_spouse, calculateCoupleWidth.
  set (visited' := match getSpouse p people with
                   | Some sp => {[ id sp ]} ∪ ({[ personId ]} ∪ visited)
                   | None => {[ personId ]} ∪ visited end).
  set (vc := filter _ (childrenIds p)).
  set (ws := map _ vc).
  replace (length vc) with (length ws) by apply length_map.
  rewrite children_width_loop_total.
  assert (MIN_NODE_WIDTH <=
          match getSpouse p people with
          | Some sp => calculateNodeWidth (name p) + calculateNodeWidth (name sp)
                       + SPOUSE_GAP
          | None => calculateNodeWidth (name p) end) as Hc
    by apply (calculateCoupleWidth_lower p (getSpouse p people)).
  destruct ws as [|w ws'] eqn:Hws; [|done].
  simpl length. rewrite sum_widths_nil. config. lia.
Qed.

(** ** Unfolding the placement recursions *)

Lemma positionDescendants_eq fid people parentPerson parentCenterX parentY gen depth st :
  positionDescendants fid people parentPerson parentCenterX parentY gen depth st =
  if decide (depth >= MAX_LAYERS_DOWN) then st
  else match unpositioned_children people parentPerson st with
       | [] => st
       | children =>
           let childY := parentY + VERTICAL_GAP + NODE_HEIGHT in
           let adjustedWidths := map (adjusted_width people depth st) children in
           let totalWidth :=
             sum_widths adjustedWidths
             + (Z.of_nat (length children) - 1) * HORIZONTAL_GAP in
           children_loop fid people
             (fun child cX s =>
                positionDescendants fid people child cX childY (gen + 1) (depth + 1) s)
             parentPerson parentCenterX parentY childY gen
             (zip children adjustedWidths)
             (parentCenterX - totalWidth / 2) st
       end.
Proof.
  simp positionDescendants.
  destruct (decide (depth >= MAX_LAYERS_DOWN)); simpl; [done|].
  destruct (unpositioned_children people parentPerson st); simpl; done.
Qed.

Lemma positionAncestors_eq fid people personId personCenterX personY gen depth st :
  positionAncestors fid people personId personCenterX personY gen depth st =
  if decide (depth >= MAX_LAYERS_UP) then st
  else match filter (fun p => id p ∉ positioned st) (findParents personId people) with
       | [] => st
       | parent :: _ =>
           let '(result, st2) :=
             ancestor_step fid people personId personCenterX personY gen parent st in
           positionAncestors fid people (id parent) (centerX result)
             (personY - VERTICAL_GAP - NODE_HEIGHT) (gen - 1) (depth + 1) st2
       end.
Proof.
  simp positionAncestors.
  destruct (decide (depth >= MAX_LAYERS_UP)); simpl; [done|].
  destruct (filter _ (findParents personId people)) as [|parent rest]; simpl; [done|].
  unfold ancestor_step.
  destruct (positionCouple fid people parent personCenterX
              (personY - VERTICAL_GAP - NODE_HEIGHT) (gen - 1) false true st)
    as [result st1]; simpl.
  done.
Qed.

(** ** Where the placed persons come from *)

Lemma people_get_in_values people k p :
  people_get people k = Some p -> p ∈ people_values people.
Proof.
  unfold people_values. induction people as [|[k' q] rest IH]; simpl; [done|].
  case_decide.
  - intros [= ->]. apply list_elem_of_here.
  - intros H'. apply list_elem_of_further. auto.
Qed.

Lemma findParents_acc_elem personId (vals acc : list Person) q :
  q ∈ fold_left
        (fun parents p =>
           if bool_decide (personId ∈ childrenIds p) then
             if negb (some_spouse_is parents (id p)) then parents ++ [p]
             else parents
           else parents) vals acc ->
  q ∈ acc ∨ (q ∈ vals ∧ personId ∈ childrenIds q).
Proof.
  revert acc. induction vals as [|v vals IH]; intros acc; simpl; [auto|].
  intros H. apply IH in H as [H|[H1 H2]].
  - case_bool_decide as Hc; [|auto].
    destruct (negb _); [|auto].
    apply elem_of_app in H as [H|H]; [auto|].
    apply list_elem_of_singleton in H as ->. right. split; [left|done].
  - right. split; [by right|done].
Qed.

Lemma findParents_elem personId people q :
  q ∈ findParents personId people ->
  q ∈ people_values people ∧ personId ∈ childrenIds q.
Proof.
  intros H. apply findParents_acc_elem in H as [H|H]; [|done].
  by apply elem_of_nil in H.
Qed.

Lemma unpositioned_children_elem people parentPerson st c :
  c ∈ unpositioned_children people parentPerson st ->
  c ∈ people_values people ∧ (id c ∉ positioned st)
  ∧ (exists k, k ∈ childrenIds parentPerson ∧ people_get people k = Some c).
Proof.
  unfold unpositioned_children. intros H.
  apply list_elem_of_filter in H as [Hn H].
  apply list_elem_of_omap in H as (k & Hk & Hget).
  split; [by eapply people_get_in_values|]. split; [done|]. eauto.
Qed.

(** ** An induction principle over the placement phases

    Every change [computeLayout] makes to its state is a call of
    [positionCouple] on a person of the graph, at a generation between
    [-MAX_LAYERS_UP] and [MAX_LAYERS_DOWN], or the push of a parent-child
    connection.  A property kept by both holds of the final state. *)

Section Invariant.

Context (fid : string) (people : People).
Variable Inv : LayoutState -> Prop.

Hypothesis Inv_couple : forall p cX cY gen ctxChild ctxParent st,
  p ∈ people_values people ->
  - MAX_LAYERS_UP <= gen <= MAX_LAYERS_DOWN ->
  Inv st ->
  Inv (positionCouple fid people p cX cY gen ctxChild ctxParent st).2.

Hypothesis Inv_connection : forall c st,
  conn_type c = parent_child -> Inv st -> Inv (push_connection c st).

Lemma children_loop_inv rec parentPerson parentCenterX parentY childY gen items :
  (forall c cX s, c ∈ people_values people -> Inv s -> Inv (rec c cX s)) ->
  Forall (fun it => it.1 ∈ people_values people) items ->
  - MAX_LAYERS_UP <= gen + 1 <= MAX_LAYERS_DOWN ->
  forall currentX st,
    Inv st ->
    Inv (children_loop fid people rec parentPerson parentCenterX parentY childY
           gen items currentX st).
Proof.
  intros Hrec Hitems Hgen. induction Hitems as [|[child w] items Hc _ IH];
    intros currentX st Hst; simpl; [done|].
  pose proof (Inv_couple child (currentX + w / 2) childY (gen + 1) true false st
                Hc Hgen Hst) as H1.
  destruct (positionCouple fid people child (currentX + w / 2) childY (gen + 1)
              true false st) as [result st1]; simpl in H1.
  apply IH, Hrec; [done|].
  destruct (find_node (id child) (nodes st1)); [|done].
  by apply Inv_connection.
Qed.

Lemma positionDescendants_inv n :
  forall parentPerson parentCenterX parentY gen depth st,
    (Z.to_nat (MAX_LAYERS_DOWN - depth) <= n)%nat ->
    0 <= gen <= depth ->
    Inv st ->
    Inv (positionDescendants fid people parentPerson parentCenterX parentY gen
           depth st).
Proof.
  induction n as [|n IH]; intros parentPerson parentCenterX parentY gen depth st
    Hn Hgen Hst; rewrite positionDescendants_eq; case_decide; try done.
  - config. lia.
  - destruct (unpositioned_children people parentPerson st) as [|c cs] eqn:Hcs;
      [done|].
    cbv zeta. apply children_loop_inv; [| |config; lia|done].
    + intros c' cX s Hc' Hs. apply IH; [config; lia|lia|done].
    + apply Forall_forall. intros [c' w] Hin.
      apply elem_of_zip_l in Hin. rewrite <- Hcs in Hin.
      by apply unpositioned_children_elem in Hin as [? _].
Qed.

Lemma ancestor_step_inv personId personCenterX personY gen parent st :
  parent ∈ people_values people ->
  - MAX_LAYERS_UP <= gen - 1 <= MAX_LAYERS_DOWN ->
  Inv st ->
  Inv (ancestor_step fid people personId personCenterX personY gen parent st).2.
Proof.
  intros Hp Hgen Hst. unfold ancestor_step.
  pose proof (Inv_couple parent personCenterX
                (personY - VERTICAL_GAP - NODE_HEIGHT) (gen - 1) false true st
                Hp Hgen Hst) as H1.
  destruct (positionCouple _ _ _ _ _ _ _ _ _) as [result st1]; simpl in *.
  destruct (find_node personId (nodes st1)); [|done].
  by apply Inv_connection.
Qed.

Lemma positionAncestors_inv n :
  forall personId personCenterX personY gen depth st,
    (Z.to_nat (MAX_LAYERS_UP - depth) <= n)%nat ->
    - depth <= gen <= 0 ->
    Inv st ->
    Inv (positionAncestors fid people personId personCenterX personY gen depth st).
Proof.
  induction n as [|n IH]; intros personId personCenterX personY gen depth st
    Hn Hgen Hst; rewrite positionAncestors_eq; case_decide; try done.
  - config. lia.
  - destruct (filter _ (findParents personId people)) as [|parent rest] eqn:Hps;
      [done|].
    assert (parent ∈ people_values people) as Hp.
    { assert (parent ∈ parent :: rest) as Hin by left.
      rewrite <- Hps in Hin. apply list_elem_of_filter in Hin as [_ Hin].
      by apply findParents_elem in Hin as [? _]. }
    pose proof (ancestor_step_inv personId personCenterX personY gen parent st Hp)
      as H1.
    destruct (ancestor_step _ _ _ _ _ _ _ _) as [result st2]; simpl in H1.
    apply IH; [config; lia|lia|]. apply H1; [config; lia|done].
Qed.

Lemma layout_state_inv focusedPerson :
  focusedPerson ∈ people_values people ->
  Inv empty_state ->
  Inv (layout_state fid people focusedPerson).
Proof.
  intros Hp H0. unfold layout_state.
  pose proof (Inv_couple focusedPerson 0 0 0 false false empty_state Hp) as H1.
  destruct (positionCouple _ _ _ _ _ _ _ _ _) as [result st1]; simpl in H1.
  eapply positionAncestors_inv; [done|config; lia|].
  eapply positionDescendants_inv; [done|lia|].
  apply H1; [config; lia|done].
Qed.

End Invariant.

(** ** What one couple placement adds *)

Lemma place_nodes fid p nx ny gen s c pr st :
  nodes (place fid p nx ny gen s c pr st) =
  nodes st ++ place_new fid p nx ny gen s c pr st.
Proof.
  unfold place, place_new. case_decide; simpl; [by rewrite app_nil_r|done].
Qed.

Lemma place_connections fid p nx ny gen s c pr st :
  connections (place fid p nx ny gen s c pr st) = connections st.
Proof. unfold place. by case_decide. Qed.

Lemma place_positioned fid p nx ny gen s c pr st :
  positioned (place fid p nx ny gen s c pr st) = {[ id p ]} ∪ positioned st.
Proof. unfold place. case_decide; simpl; [set_solver|done]. Qed.

Lemma positionCouple_nodes fid people p cX cY gen c pr st :
  nodes (positionCouple fid people p cX cY gen c pr st).2 =
  nodes st ++ couple_new fid people p cX cY gen c pr st.
Proof.
  unfold positionCouple, couple_new.
  destruct (unplaced_spouse people p st) as [sp|]; simpl.
  - by rewrite !place_nodes, app_assoc.
  - apply place_nodes.
Qed.

Lemma positionCouple_centerX fid people p cX cY gen c pr st :
  centerX (positionCouple fid people p cX cY gen c pr st).1 = cX.
Proof.
  unfold positionCouple. by destruct (unplaced_spouse people p st).
Qed.

Lemma unplaced_spouse_Some people p st sp :
  unplaced_spouse people p st = Some sp ->
  getSpouse p people = Some sp ∧ id sp ∉ positioned st.
Proof.
  unfold unplaced_spouse. destruct (getSpouse p people) as [q|]; [|done].
  case_decide; [done|]. by intros [= ->].
Qed.

Lemma unplaced_spouse_None people p st :
  unplaced_spouse people p st = None ->
  getSpouse p people = None
  ∨ (exists sp, getSpouse p people = Some sp ∧ id sp ∈ positioned st).
Proof.
  unfold unplaced_spouse. destruct (getSpouse p people) as [q|]; [|auto].
  case_decide; [eauto|done].
Qed.

(** The positioned set after a couple placement: the person and, when a
    spouse resolves, the spouse are in it. *)
Lemma positionCouple_positioned fid people p cX cY gen c pr st :
  positioned (positionCouple fid people p cX cY gen c pr st).2 =
  match unplaced_spouse people p st with
  | Some sp => {[ id p ]} ∪ ({[ id sp ]} ∪ positioned st)
  | None => {[ id p ]} ∪ positioned st
  end.
Proof.
  unfold positionCouple.
  destruct (unplaced_spouse people p st) as [sp|]; simpl.
  - rewrite !place_positioned. case_bool_decide; set_solver.
  - apply place_positioned.
Qed.

(** Every node a couple placement adds was not positioned before, carries
    the call's row and generation, and the added ids are pairwise
    different. *)
Lemma couple_new_fresh fid people p cX cY gen c pr st :
  let new := couple_new fid people p cX cY gen c pr st in
  NoDup (node_ids new)
  ∧ Forall (fun n => node_id n ∉ positioned st) new
  ∧ Forall (fun n => y n = cY ∧ generation n = gen
                     ∧ width n = calculateNodeWidth (name (person n))
                     ∧ isFocused n = bool_decide (node_id n = fid)) new.
Proof.
  unfold couple_new, place_new, node_ids, node_id.
  destruct (unplaced_spouse people p st) as [sp|]; cbv zeta.
  - rewrite place_positioned.
    repeat case_decide; simpl;
      repeat first [apply NoDup_cons_2 | apply NoDup_nil_2
                   | apply Forall_cons_2 | apply Forall_nil_2 | split];
      try done; set_solver.
  - case_decide; simpl;
      repeat first [apply NoDup_cons_2 | apply NoDup_nil_2
                   | apply Forall_cons_2 | apply Forall_nil_2 | split];
      try done; set_solver.
Qed.

(** ** C4: one node per person id *)

Lemma ids_tracked_couple fid people p cX cY gen c pr st :
  ids_tracked st ->
  ids_tracked (positionCouple fid people p cX cY gen c pr st).2.
Proof.
  intros [Hnd Hpos].
  destruct (couple_new_fresh fid people p cX cY gen c pr st) as (Hnew & Hfresh & _).
  unfold ids_tracked. rewrite positionCouple_nodes. split.
  - unfold node_ids in *. rewrite map_app. apply NoDup_app. split; [done|].
    split; [|done]. intros i Hi Hi'.
    apply list_elem_of_fmap in Hi as (n & -> & Hn).
    apply list_elem_of_fmap in Hi' as (n' & Heq & Hn').
    rewrite Forall_forall in Hfresh. apply (Hfresh n' Hn').
    rewrite <- Heq. by apply Hpos.
  - intros n Hn. rewrite positionCouple_positioned.
    apply elem_of_app in Hn as [Hn|Hn].
    + apply Hpos in Hn. destruct (unplaced_spouse people p st); set_solver.
    + revert Hn. unfold couple_new, place_new, node_id.
      destruct (unplaced_spouse people p st) as [sp|]; cbv zeta.
      * rewrite place_positioned.
        repeat case_decide; case_bool_decide; intros Hin; set_solver.
      * case_decide; intros Hin; set_solver.
Qed.

Lemma ids_tracked_layout fid people focusedPerson :
  focusedPerson ∈ people_values people ->
  ids_tracked (layout_state fid people focusedPerson).
Proof.
  intros Hp. apply layout_state_inv; [| |done|].
  - intros. by apply ids_tracked_couple.
  - intros c st _ H. exact H.
  - split; [apply NoDup_nil_2|]. intros n Hn. by apply elem_of_nil in Hn.
Qed.

(** C4.  No person id is carried by two nodes of the result, and a couple
    placement only appends: the nodes already emitted stay where they are,
    and no appended node carries an id that was in the positioned set,
    whichever of the spouse, child and parent paths reaches the person. *)
Theorem computeLayout_one_node_per_id fid people :
  NoDup (map (fun n => id (person n)) (res_nodes (computeLayout fid people)))
  /\ (forall p cX cY gen ctxChild ctxParent st,
        exists new,
          nodes (positionCouple fid people p cX cY gen ctxChild ctxParent st).2
          = nodes st ++ new
          /\ Forall (fun n => id (person n) ∉ positioned st) new).
Proof.
  split.
  - unfold computeLayout.
    destruct (people_get people fid) as [fp|] eqn:Hfp; simpl; [|apply NoDup_nil_2].
    apply people_get_in_values in Hfp.
    by destruct (ids_tracked_layout fid people fp Hfp) as [H _].
  - intros. exists (couple_new fid people p cX cY gen ctxChild ctxParent st).
    split; [apply positionCouple_nodes|].
    by destruct (couple_new_fresh fid people p cX cY gen ctxChild ctxParent st)
      as (_ & H & _).
Qed.

(** ** C5: the generation bound *)

Lemma generations_bounded_layout fid people focusedPerson :
  focusedPerson ∈ people_values people ->
  generations_bounded (layout_state fid people focusedPerson).
Proof.
  intros Hp. apply layout_state_inv; [| |done|].
  - intros p cX cY gen c pr st _ Hgen Hst. unfold generations_bounded.
    rewrite positionCouple_nodes. apply Forall_app. split; [done|].
    destruct (couple_new_fresh fid people p cX cY gen c pr st) as (_ & _ & H).
    eapply Forall_impl; [exact H|]. simpl. intros n (_ & -> & _). done.
  - intros c st _ H. exact H.
  - apply Forall_nil_2.
Qed.

(** C5.  Every node of the result has its generation index between
    [-MAX_LAYERS_UP] and [MAX_LAYERS_DOWN]. *)
Theorem computeLayout_generation_bound fid people n :
  n ∈ res_nodes (computeLayout fid people) ->
  - MAX_LAYERS_UP <= generation n <= MAX_LAYERS_DOWN.
Proof.
  unfold computeLayout.
  destruct (people_get people fid) as [fp|] eqn:Hfp; simpl.
  - apply people_get_in_values in Hfp.
    pose proof (generations_bounded_layout fid people fp Hfp) as H.
    unfold generations_bounded in H. rewrite Forall_forall in H. apply H.
  - intros H. by apply elem_of_nil in H.
Qed.

(** ** The [isSpouse] flag of one placement *)

Lemma couple_new_isSpouse fid people p cX cY gen c pr st n :
  n ∈ couple_new fid people p cX cY gen c pr st ->
  isSpouse n =
  match unplaced_spouse people p st with
  | Some _ => negb (bool_decide (id (person n) = fid))
  | None => false
  end.
Proof.
  unfold couple_new, place_new.
  destruct (unplaced_spouse people p st) as [sp|]; cbv zeta.
  - intros H. apply elem_of_app in H as [H|H]; revert H;
      case_decide; intros Hin;
      try (by apply elem_of_nil in Hin);
      by apply list_elem_of_singleton in Hin as ->.
  - case_decide; intros Hin; [by apply elem_of_nil in Hin|].
    by apply list_elem_of_singleton in Hin as ->.
Qed.

Lemma focused_not_spouse_layout fid people focusedPerson :
  focusedPerson ∈ people_values people ->
  focused_not_spouse (layout_state fid people focusedPerson).
Proof.
  intros Hp. apply layout_state_inv; [| |done|].
  - intros p cX cY gen c pr st _ _ Hst. unfold focused_not_spouse.
    rewrite positionCouple_nodes. apply Forall_app. split; [done|].
    apply Forall_forall. intros n Hn Hf.
    rewrite (couple_new_isSpouse _ _ _ _ _ _ _ _ _ _ Hn).
    destruct (unplaced_spouse people p st); [|done].
    destruct (couple_new_fresh fid people p cX cY gen c pr st) as (_ & _ & H).
    rewrite Forall_forall in H. destruct (H n Hn) as (_ & _ & _ & Hfoc).
    unfold node_id in Hfoc. rewrite <- Hfoc, Hf. done.
  - intros c st _ H. exact H.
  - apply Forall_nil_2.
Qed.

(** The flag rule of one couple placement. *)
Lemma positionCouple_isSpouse fid people p cX cY gen ctxChild ctxParent st new n :
  nodes (positionCouple fid people p cX cY gen ctxChild ctxParent st).2
  = nodes st ++ new ->
  n ∈ new ->
  (getSpouse p people = None
   \/ (exists sp, getSpouse p people = Some sp /\ id sp ∈ positioned st) ->
   isSpouse n = false)
  /\ ((exists sp, getSpouse p people = Some sp /\ id sp ∉ positioned st) ->
      isSpouse n = negb (bool_decide (id (person n) = fid))).
Proof.
  intros Hnodes Hn.
  rewrite positionCouple_nodes in Hnodes. apply app_inv_head in Hnodes.
  subst new. apply couple_new_isSpouse in Hn. rewrite Hn.
  unfold unplaced_spouse. split.
  - intros [->|(sp & -> & Hsp)]; [done|]. by rewrite decide_True.
  - intros (sp & -> & Hsp). by rewrite decide_False.
Qed.

(** ** Graphs keyed by person id *)

Lemma people_get_entry people k p :
  people_get people k = Some p -> (k, p) ∈ people.
Proof.
  induction people as [|[k' q] rest IH]; simpl; [done|].
  case_decide.
  - intros [= ->]. subst. left.
  - intros H'. right. auto.
Qed.

Lemma keyed_by_id_get people k p :
  keyed_by_id people -> people_get people k = Some p -> id p = k.
Proof.
  intros Hk Hget. apply people_get_entry in Hget.
  unfold keyed_by_id in Hk. rewrite Forall_forall in Hk. exact (Hk _ Hget).
Qed.

(** ** The nodes only grow *)

Lemma nodes_prefix_layout fid people focusedPerson :
  nodes (positionCouple fid people focusedPerson 0 0 0 false false empty_state).2
  `prefix_of` nodes (layout_state fid people focusedPerson).
Proof.
  unfold layout_state.
  destruct (positionCouple fid people focusedPerson 0 0 0 false false empty_state)
    as [result st1] eqn:Hst1; simpl.
  set (Inv := fun st : LayoutState => nodes st1 `prefix_of` nodes st).
  assert (forall p cX cY gen c pr st, p ∈ people_values people ->
            - MAX_LAYERS_UP <= gen <= MAX_LAYERS_DOWN -> Inv st ->
            Inv (positionCouple fid people p cX cY gen c pr st).2) as Hc.
  { intros p cX cY gen c pr st _ _ Hst. unfold Inv.
    rewrite positionCouple_nodes. by apply prefix_app_r. }
  assert (forall c st, conn_type c = parent_child -> Inv st ->
            Inv (push_connection c st)) as Hp by (intros c st _ H; exact H).
  eapply (positionAncestors_inv fid people Inv Hc Hp); [done|config; lia|].
  eapply (positionDescendants_inv fid people Inv Hc Hp); [done|lia|].
  unfold Inv. reflexivity.
Qed.

Lemma couple_new_person fid people p cX cY gen c pr st :
  id p ∉ positioned st ->
  exists n, n ∈ couple_new fid people p cX cY gen c pr st ∧ node_id n = id p.
Proof.
  intros Hp. unfold couple_new, place_new.
  destruct (unplaced_spouse people p st) as [sp|] eqn:Hsp; cbv zeta.
  - apply unplaced_spouse_Some in Hsp as [_ Hsp].
    rewrite place_positioned.
    destruct (bool_decide (gender p = male)).
    + rewrite (decide_False (P := id p ∈ positioned st)) by done.
      eexists. split; [apply elem_of_app; left; left|done].
    + rewrite (decide_False (P := id sp ∈ positioned st)) by done.
      destruct (decide (id p ∈ {[ id sp ]} ∪ positioned st)) as [Hin|Hin].
      * assert (id p = id sp) as Heq by set_solver.
        eexists. split; [apply elem_of_app; left; left|]. by rewrite Heq.
      * eexists. split; [apply elem_of_app; right; left|done].
  - rewrite decide_False by done. eexists. split; [left|done].
Qed.

(** ** C3: the focused person *)

(** C3.  When the focused id is not a key of the graph, the result is the
    empty layout: no nodes, no connections, all six bounds 0, no focused
    node.  When the focused id is a key and the person stored under it
    carries that id, [focusedNode] is a node of the result with
    [isFocused] true; so, in a graph keyed by person id, [focusedNode] is
    absent only when the focused id is.  [computeLayout] is a total
    function: it returns in both cases. *)
Theorem computeLayout_focus fid people :
  (people_get people fid = None ->
   computeLayout fid people = mkResult [] [] (mkBounds 0 0 0 0 0 0) None)
  /\ (forall fp, people_get people fid = Some fp -> id fp = fid ->
        exists n, focusedNode (computeLayout fid people) = Some n
                  /\ isFocused n = true
                  /\ id (person n) = fid
                  /\ n ∈ res_nodes (computeLayout fid people))
  /\ (keyed_by_id people ->
      focusedNode (computeLayout fid people) = None ->
      people_get people fid = None).
Proof.
  assert (forall fp, people_get people fid = Some fp -> id fp = fid ->
            exists n, focusedNode (computeLayout fid people) = Some n
                      /\ isFocused n = true
                      /\ id (person n) = fid
                      /\ n ∈ res_nodes (computeLayout fid people)) as Hpresent.
  { intros fp Hfp Hid. unfold computeLayout. rewrite Hfp. simpl.
    pose proof (people_get_in_values _ _ _ Hfp) as Hval.
    destruct (couple_new_person fid people fp 0 0 0 false false empty_state)
      as (n0 & Hn0 & Hid0); [set_solver|].
    destruct (couple_new_fresh fid people fp 0 0 0 false false empty_state)
      as (_ & _ & Hflags).
    rewrite Forall_forall in Hflags. destruct (Hflags n0 Hn0) as (_ & _ & _ & Hf0).
    rewrite Hid0, Hid, bool_decide_eq_true_2 in Hf0 by done.
    assert (n0 ∈ nodes (layout_state fid people fp)) as Hin.
    { eapply elem_of_prefix; [|apply nodes_prefix_layout].
      rewrite positionCouple_nodes. simpl. exact Hn0. }
    destruct (find isFocused (nodes (layout_state fid people fp))) as [n|] eqn:Hfind.
    - apply find_some in Hfind as [Hn Hf]. exists n.
      split; [done|]. split; [done|].
      split; [|by apply list_elem_of_In].
      assert (Forall (fun n => isFocused n = bool_decide (node_id n = fid))
                (nodes (layout_state fid people fp))) as Hall.
      { apply (layout_state_inv fid people
                 (fun st => Forall (fun n => isFocused n
                                             = bool_decide (node_id n = fid))
                              (nodes st))); [| |done|apply Forall_nil_2].
        - intros p cX cY gen c pr st _ _ Hst. rewrite positionCouple_nodes.
          apply Forall_app. split; [done|].
          destruct (couple_new_fresh fid people p cX cY gen c pr st) as (_ & _ & H).
          eapply Forall_impl; [exact H|]. simpl. by intros m (_ & _ & _ & ?).
        - intros c st _ H. exact H. }
      rewrite Forall_forall in Hall.
      apply list_elem_of_In in Hn. specialize (Hall n Hn).
      rewrite Hf in Hall. symmetry in Hall.
      by apply bool_decide_eq_true_1 in Hall.
    - exfalso. apply list_elem_of_In in Hin.
      pose proof (find_none _ _ Hfind n0 Hin) as Hcontra.
      by rewrite Hf0 in Hcontra. }
  split; [|split].
  - intros Hnone. unfold computeLayout. by rewrite Hnone.
  - exact Hpresent.
  - intros Hk Hnone. destruct (people_get people fid) as [fp|] eqn:Hfp; [|done].
    destruct (Hpresent fp eq_refl (keyed_by_id_get _ _ _ Hk Hfp)) as (n & Hn & _).
    by rewrite Hn in Hnone.
Qed.

(** ** C9: a graph of one person *)

(** C9.  For a graph whose only entry is a person [P] without spouse id
    and without children, stored under its id, the layout focused on [P]
    has exactly one node: [P] at center (0, 0), generation 0, with
    [isFocused] true; and it has no connection. *)
Theorem computeLayout_single_person (P : Person) :
  spouseId P = None ->
  childrenIds P = [] ->
  let r := computeLayout (id P) [(id P, P)] in
  res_nodes r =
    [mkNode P 0 0 (calculateNodeWidth (name P)) NODE_HEIGHT
            false false false true 0]
  /\ res_connections r = []
  /\ (forall n, n ∈ res_nodes r ->
        isFocused n = true /\ generation n = 0 /\ x n = 0 /\ y n = 0).
Proof.
  intros Hs Hc.
  assert (layout_state (id P) [(id P, P)] P =
          mkState [mkNode P 0 0 (calculateNodeWidth (name P)) NODE_HEIGHT
                          false false false true 0] []
                  ({[ id P ]} ∪ ∅)) as Hst.
  { unfold layout_state, positionCouple, unplaced_spouse, getSpouse.
    rewrite Hs. cbv zeta. cbn [centerX].
    unfold place. rewrite decide_False by set_solver.
    unfold push_node, createNode. simpl.
    rewrite bool_decide_eq_true_2 by done.
    rewrite positionDescendants_eq. rewrite decide_False by (config; lia).
    unfold unpositioned_children. rewrite Hc. simpl.
    rewrite positionAncestors_eq. rewrite decide_False by (config; lia).
    unfold findParents. simpl. rewrite Hc.
    rewrite bool_decide_eq_false_2 by set_solver. done. }
  unfold computeLayout. simpl. rewrite decide_True by done. rewrite Hst. simpl.
  split; [done|]. split; [done|].
  intros n Hn. by apply list_elem_of_singleton in Hn as ->.
Qed.

(** ** Bounds *)

Lemma bounds_fold_encloses ns : forall acc n,
  let step := fun '(mnX, mxX, mnY, mxY) n =>
    (ext_min mnX (x n - width n / 2), ext_max mxX (x n + width n / 2),
     ext_min mnY (y n - height n / 2), ext_max mxY (y n + height n / 2)) in
  let covered := fun (acc : option Z * option Z * option Z * option Z) n =>
    below acc.1.1.1 (node_left n) ∧ above acc.1.1.2 (node_right n)
    ∧ below acc.1.2 (node_top n) ∧ above acc.2 (node_bottom n) in
  (covered acc n ∨ n ∈ ns) ->
  covered (fold_left step ns acc) n.
Proof.
  induction ns as [|m ns IH]; intros acc n step covered; simpl.
  - intros [H|H]; [done|by apply elem_of_nil in H].
  - intros H. apply IH. fold step.
    destruct acc as [[[a b] c] d].
    destruct H as [(H1 & H2 & H3 & H4)|H].
    + left. unfold covered, below, above in *. simpl in *.
      destruct a, b, c, d; try done. repeat split; lia.
    + apply elem_of_cons in H as [->|H]; [|by right].
      left. unfold covered, below, above, node_left, node_right, node_top,
        node_bottom. simpl.
      destruct a, b, c, d; simpl; repeat split; lia.
Qed.

Lemma compute_bounds_encloses ns n :
  n ∈ ns ->
  let b := compute_bounds ns in
  minX b <= node_left n ∧ node_right n <= maxX b
  ∧ minY b <= node_top n ∧ node_bottom n <= maxY b.
Proof.
  intros Hn. unfold compute_bounds, bounds_loop.
  pose proof (bounds_fold_encloses ns (None, None, None, None) n (or_intror Hn))
    as H.
  cbv zeta in H.
  destruct (fold_left _ ns (None, None, None, None)) as [[[a b] c] d].
  unfold below, above in H. simpl in H.
  destruct a, b, c, d; simpl; tauto.
Qed.

Lemma compute_bounds_size ns :
  let b := compute_bounds ns in
  bwidth b = maxX b - minX b ∧ bheight b = maxY b - minY b.
Proof.
  unfold compute_bounds.
  destruct (bounds_loop ns) as [[[[a|] b] c] d]; simpl; done.
Qed.

(** ** C7: termination and cycle safety *)

Lemma couple_new_size fid people p cX cY gen c pr st :
  Forall (fun n => width n = calculateNodeWidth (name (person n))
                   ∧ height n = NODE_HEIGHT)
         (couple_new fid people p cX cY gen c pr st).
Proof.
  unfold couple_new, place_new.
  destruct (unplaced_spouse people p st) as [sp|]; cbv zeta;
    repeat case_decide; simpl;
    repeat first [apply Forall_cons_2 | apply Forall_nil_2 | split]; done.
Qed.

Lemma sized_layout fid people focusedPerson :
  focusedPerson ∈ people_values people ->
  sized (layout_state fid people focusedPerson).
Proof.
  intros Hp. apply layout_state_inv; [| |done|apply Forall_nil_2].
  - intros p cX cY gen c pr st _ _ Hst. unfold sized.
    rewrite positionCouple_nodes. apply Forall_app. split; [done|].
    apply couple_new_size.
  - intros c st _ H. exact H.
Qed.

Lemma computeLayout_well_formed fid people :
  well_formed_result (computeLayout fid people).
Proof.
  unfold computeLayout, well_formed_result.
  destruct (people_get people fid) as [fp|] eqn:Hfp; simpl.
  - apply people_get_in_values in Hfp.
    destruct (ids_tracked_layout fid people fp Hfp) as [Hnd _].
    pose proof (sized_layout fid people fp Hfp) as Hsz.
    destruct (compute_bounds_size (nodes (layout_state fid people fp))) as [Hw Hh].
    repeat split; try done.
    apply Forall_forall. intros n Hn. by apply compute_bounds_encloses.
  - repeat split; try done; try apply Forall_nil_2. apply NoDup_nil_2.
Qed.

(** C7.  [computeLayout] is a total function whose result is well formed
    on every graph, cyclic or not, and no id is carried by more than one
    node.  On the graph where X lists Y as a child and Y lists X, the
    layout focused on X is X with Y below it, each once.  The three
    recursions are defined by recursion on the layers that remain below
    their limit: a call made below the limit, at depth + 1, has fewer left,
    and a call at the limit returns at once.  [calculateSubtreeWidth]
    contributes 0 on a visited id, and [positionDescendants] skips the ids
    already positioned. *)
Theorem computeLayout_cycle_safe :
  (forall fid people,
     well_formed_result (computeLayout fid people)
     /\ forall i, (length (filter (fun n => id (person n) = i)
                             (res_nodes (computeLayout fid people))) <= 1)%nat)
  /\ map (fun n => (id (person n), generation n))
         (res_nodes (computeLayout "x" cyclic_graph)) = [("x", 0); ("y", 1)]
  /\ (forall limit depth,
        depth < limit ->
        (remaining_layers limit (depth + 1) < remaining_layers limit depth)%nat)
  /\ (forall fid people parentPerson cX cY gen depth st,
        depth >= MAX_LAYERS_DOWN ->
        positionDescendants fid people parentPerson cX cY gen depth st = st)
  /\ (forall fid people personId cX cY gen depth st,
        depth >= MAX_LAYERS_UP ->
        positionAncestors fid people personId cX cY gen depth st = st)
  /\ (forall personId people maxDepth currentDepth visited,
        currentDepth > maxDepth \/ personId ∈ visited ->
        calculateSubtreeWidth personId people maxDepth currentDepth visited
        = (0, visited))
  /\ (forall people parentPerson st c,
        c ∈ unpositioned_children people parentPerson st ->
        id c ∉ positioned st).
Proof.
  split; [|split; [|split; [|split; [|split; [|split]]]]].
  - intros fid people. split; [apply computeLayout_well_formed|].
    intros i. destruct (computeLayout_well_formed fid people) as [Hnd _].
    revert Hnd. unfold node_ids, node_id.
    induction (res_nodes (computeLayout fid people)) as [|n ns IH]; simpl; [lia|].
    intros Hnd. apply NoDup_cons in Hnd as [Hn Hnd].
    rewrite filter_cons. case_decide as Hi; [|auto].
    destruct (filter (fun n0 => id (person n0) = i) ns) as [|m ms] eqn:Hf;
      [simpl; lia|].
    exfalso. assert (m ∈ filter (fun n0 => id (person n0) = i) ns) as Hm
      by (rewrite Hf; left).
    apply list_elem_of_filter in Hm as [Hmi Hm]. apply Hn.
    apply list_elem_of_fmap. exists m. split; [congruence|done].
  - vm_compute. reflexivity.
  - intros limit depth Hlt. unfold remaining_layers. lia.
  - intros. rewrite positionDescendants_eq. by rewrite decide_True.
  - intros. rewrite positionAncestors_eq. by rewrite decide_True.
  - intros personId people maxDepth currentDepth visited H.
    simp calculateSubtreeWidth.
    destruct (decide (currentDepth > maxDepth)); simpl; [done|].
    destruct (decide (personId ∈ visited)); simpl; [done|]. by destruct H.
  - intros people parentPerson st c H.
    by apply unpositioned_children_elem in H as (_ & ? & _).
Qed.

(** ** Bounds on the subtree width *)

Lemma gap_sum_cons w ws :
  gap_sum (w :: ws) =
  match ws with [] => w | _ => w + HORIZONTAL_GAP + gap_sum ws end.
Proof.
  unfold gap_sum. rewrite sum_widths_cons. destruct ws as [|w' ws].
  - rewrite sum_widths_nil. simpl. lia.
  - cbn [length]. config. lia.
Qed.

Lemma gap_sum_nonneg ws : Forall (fun w => 0 <= w) ws -> 0 <= gap_sum ws.
Proof.
  induction 1 as [|w ws Hw Hws IH]; [done|].
  rewrite gap_sum_cons. destruct ws; config; lia.
Qed.

Lemma dominated_nonneg ws vs :
  dominated ws vs -> Forall (fun w => 0 <= w) ws ∧ Forall (fun v => 0 <= v) vs.
Proof.
  induction 1 as [|v ws vs Hv _ [IH1 IH2]|w v ws vs Hw _ [IH1 IH2]];
    split; try done; constructor; try done; lia.
Qed.

Lemma dominated_gap_sum ws vs : dominated ws vs -> gap_sum ws <= gap_sum vs.
Proof.
  induction 1 as [|v ws vs Hv Hd IH|w v ws vs Hw Hd IH].
  - done.
  - rewrite gap_sum_cons. destruct vs as [|v' vs].
    + inversion Hd; subst. simpl. lia.
    + config. lia.
  - rewrite !gap_sum_cons. destruct ws as [|w' ws].
    + destruct vs as [|v' vs]; [lia|].
      apply dominated_nonneg in Hd as [_ Hvs].
      apply gap_sum_nonneg in Hvs. config. lia.
    + destruct vs as [|v' vs]; [inversion Hd|]. lia.
Qed.

Lemma subtreeWidth_nonneg personId people maxDepth currentDepth visited :
  0 <= subtreeWidth personId people maxDepth currentDepth visited.
Proof.
  rewrite subtreeWidth_unfold.
  destruct (decide (currentDepth > maxDepth)); [done|].
  destruct (decide (personId ∈ visited)); [done|].
  destruct (people_get people personId) as [p|]; [|done].
  pose proof (calculateCoupleWidth_lower p (getSpouse p people)).
  cbv zeta. case_decide; config; lia.
Qed.

(** A resolvable, unvisited person within the depth limit reserves at least
    its couple width. *)
Lemma subtreeWidth_lower personId people maxDepth currentDepth visited p :
  currentDepth <= maxDepth ->
  personId ∉ visited ->
  people_get people personId = Some p ->
  calculateCoupleWidth p (getSpouse p people)
  <= subtreeWidth personId people maxDepth currentDepth visited.
Proof.
  intros Hd Hv Hp. rewrite subtreeWidth_unfold.
  rewrite decide_False by lia. rewrite decide_False by done. rewrite Hp.
  cbv zeta. case_decide; lia.
Qed.

Lemma sum_widths_even ws :
  Forall (fun w => exists k, w = 2 * k) ws -> exists k, sum_widths ws = 2 * k.
Proof.
  induction 1 as [|w ws [a ->] _ [b IH]].
  - by exists 0.
  - rewrite sum_widths_cons, IH. exists (a + b). lia.
Qed.

Lemma gap_sum_even ws :
  Forall (fun w => exists k, w = 2 * k) ws -> exists k, gap_sum ws = 2 * k.
Proof.
  intros H. unfold gap_sum. destruct ws as [|w ws]; [by exists 0|].
  destruct (sum_widths_even _ H) as [a ->].
  exists (a + (Z.of_nat (length (w :: ws)) - 1) * 30). config. lia.
Qed.

Lemma subtreeWidth_gap_sum personId people maxDepth currentDepth visited :
  subtreeWidth personId people maxDepth currentDepth visited =
  if decide (currentDepth > maxDepth) then 0
  else if decide (personId ∈ visited) then 0
  else match people_get people personId with
       | None => 0
       | Some p =>
           let coupleWidth := calculateCoupleWidth p (getSpouse p people) in
           if decide (childrenIds p = [] ∨ currentDepth >= maxDepth)
           then coupleWidth
           else
             let visited' := child_visited personId p people visited in
             Z.max coupleWidth
               (gap_sum
                  (map (fun childId =>
                          subtreeWidth childId people maxDepth (currentDepth + 1)
                            visited')
                       (validChildren p people visited')))
       end.
Proof.
  rewrite subtreeWidth_unfold.
  destruct (decide (currentDepth > maxDepth)); [done|].
  destruct (decide (personId ∈ visited)); [done|].
  destruct (people_get people personId) as [p|]; [|done].
  cbv zeta. case_decide; [done|].
  set (vc := validChildren p people _). set (ws := map _ vc).
  replace (length vc) with (length ws) by apply length_map.
  by rewrite children_width_loop_total.
Qed.

Lemma subtreeWidth_even people n :
  forall personId maxDepth currentDepth visited,
    (Z.to_nat (maxDepth + 1 - currentDepth) <= n)%nat ->
    exists k, subtreeWidth personId people maxDepth currentDepth visited = 2 * k.
Proof.
  induction n as [|n IH]; intros personId maxDepth currentDepth visited Hn;
    rewrite subtreeWidth_gap_sum.
  - rewrite decide_True by lia. by exists 0.
  - destruct (decide (currentDepth > maxDepth)); [by exists 0|].
    destruct (decide (personId ∈ visited)); [by exists 0|].
    destruct (people_get people personId) as [p|]; [|by exists 0].
    cbv zeta. case_decide; [apply calculateCoupleWidth_even|].
    destruct (calculateCoupleWidth_even p (getSpouse p people)) as [a Ha].
    edestruct (gap_sum_even) as [b Hb]; cycle 1.
    + rewrite Hb, Ha. destruct (Z.max_spec (2 * a) (2 * b)) as [[_ ->]|[_ ->]]; eauto.
    + apply Forall_map, Forall_forall. intros c _. apply IH. lia.
Qed.

(** The width shrinks when the visited set grows; it depends on the two
    depths through their difference only. *)
Lemma subtreeWidth_mono people n :
  forall personId m c m' c' (V V' : gset string),
    (Z.to_nat (m + 1 - c) <= n)%nat ->
    m - c = m' - c' ->
    V ⊆ V' ->
    subtreeWidth personId people m' c' V' <= subtreeWidth personId people m c V.
Proof.
  induction n as [|n IH]; intros personId m c m' c' V V' Hn Hd HV.
  - rewrite !subtreeWidth_gap_sum. rewrite !decide_True by lia. done.
  - pose proof (subtreeWidth_nonneg personId people m c V) as Hnn.
    rewrite (subtreeWidth_gap_sum personId people m' c' V').
    destruct (decide (c' > m')) as [|Hc']; [done|].
    destruct (decide (personId ∈ V')) as [|HpV']; [done|].
    rewrite (subtreeWidth_gap_sum personId people m c V).
    rewrite decide_False by lia.
    rewrite decide_False by set_solver.
    destruct (people_get people personId) as [p|]; [|done].
    cbv zeta.
    destruct (decide (childrenIds p = [] ∨ c' >= m')) as [Hl|Hl].
    { rewrite decide_True by (destruct Hl; [by left|right; lia]). done. }
    rewrite decide_False by (intros [?|?]; apply Hl; [by left|right; lia]).
    apply Z.max_le_compat_l, dominated_gap_sum.
    assert (child_visited personId p people V
            ⊆ child_visited personId p people V') as HV1.
    { unfold child_visited, add_spouse. destruct (getSpouse p people); set_solver. }
    unfold validChildren.
    assert (c' < m') as Hlt by (destruct (decide (c' >= m')); [tauto|lia]).
    clear Hl.
    induction (childrenIds p) as [|k ks IHks]; [constructor|].
    rewrite !filter_cons.
    destruct (decide (is_Some (people_get people k)
                      ∧ k ∉ child_visited personId p people V')) as [[Hk1 Hk2]|Hk].
    + rewrite decide_True by (split; [done|set_solver]).
      simpl. apply dominated_cons; [|done]. split.
      * apply subtreeWidth_nonneg.
      * apply IH; [lia|lia|done].
    + case_decide; [|done]. simpl.
      apply dominated_skip; [apply subtreeWidth_nonneg|done].
Qed.

(** ** Geometry of rows *)

Lemma separated_sym n1 n2 : separated n1 n2 -> separated n2 n1.
Proof. unfold separated. intros H Hy. symmetry in Hy. apply H in Hy. tauto. Qed.

Lemma pairwise_separated_app l1 l2 :
  pairwise_separated l1 ->
  pairwise_separated l2 ->
  (forall n1 n2, n1 ∈ l1 -> n2 ∈ l2 -> separated n1 n2) ->
  pairwise_separated (l1 ++ l2).
Proof.
  induction l1 as [|n l1 IH]; simpl; [done|].
  intros [Hn H1] H2 Hx. split.
  - apply Forall_app. split; [done|].
    apply Forall_forall. intros n2 Hn2. apply Hx; [left|done].
  - apply IH; [done|done|]. intros n1 n2 Hn1 Hn2. apply Hx; [by right|done].
Qed.

Lemma pairwise_separated_lookup ns i j n1 n2 :
  pairwise_separated ns ->
  i ≠ j ->
  ns !! i = Some n1 ->
  ns !! j = Some n2 ->
  separated n1 n2.
Proof.
  revert i j. induction ns as [|n ns IH]; intros i j Hns Hij Hi Hj; [done|].
  destruct Hns as [Hn Hns]. rewrite Forall_forall in Hn.
  destruct i as [|i], j as [|j]; simpl in *.
  - done.
  - injection Hi as ->. apply Hn. by eapply list_elem_of_lookup_2.
  - injection Hj as ->. apply separated_sym, Hn. by eapply list_elem_of_lookup_2.
  - apply (IH i j); [done|congruence|done|done].
Qed.

Lemma within_separated lo1 hi1 lo2 hi2 n1 n2 :
  within lo1 hi1 n1 -> within lo2 hi2 n2 -> hi1 <= lo2 -> separated n1 n2.
Proof. unfold within, separated. intros [_ H1] [H2 _] H _. left. lia. Qed.

Lemma rows_separated n1 n2 : y n1 ≠ y n2 -> separated n1 n2.
Proof. unfold separated. done. Qed.

(** A couple placement stays inside the couple's footprint around the
    center it is given, on the row it is given, without overlap. *)
Lemma couple_new_geometry fid people p cX cY gen c pr st :
  let cw := calculateCoupleWidth p (getSpouse p people) in
  let new := couple_new fid people p cX cY gen c pr st in
  Forall (fun n => within (cX - cw / 2) (cX + cw / 2) n ∧ y n = cY) new
  ∧ pairwise_separated new.
Proof.
  unfold couple_new, place_new, calculateCoupleWidth.
  pose proof (calculateNodeWidth_half (name p)) as Hp.
  pose proof (calculateNodeWidth_bounds (name p)) as Hpb.
  destruct (unplaced_spouse people p st) as [sp|] eqn:Hsp; cbv zeta.
  - apply unplaced_spouse_Some in Hsp as [-> _].
    pose proof (calculateNodeWidth_half (name sp)) as Hs.
    pose proof (calculateNodeWidth_bounds (name sp)) as Hsb.
    destruct (bool_decide (gender p = male)); repeat case_decide; simpl;
      unfold within, separated, node_left, node_right, createNode; simpl;
      repeat first [apply Forall_cons_2 | apply Forall_nil_2 | split];
      simpl; try done; lia_half.
  - apply unplaced_spouse_None in Hsp as [->|(sp & -> & _)].
    + case_decide; simpl; unfold within, node_left, node_right, createNode; simpl;
        repeat first [apply Forall_cons_2 | apply Forall_nil_2 | split];
        simpl; try done; lia_half.
    + pose proof (calculateNodeWidth_bounds (name sp)) as Hsb.
      case_decide; simpl; unfold within, node_left, node_right, createNode; simpl;
        repeat first [apply Forall_cons_2 | apply Forall_nil_2 | split];
        simpl; try done; lia_half.
Qed.

(** ** The horizontal space a parent's children take *)

Lemma adjusted_width_lower people depth st c :
  calculateCoupleWidth c (getSpouse c people) <= adjusted_width people depth st c.
Proof. unfold adjusted_width. lia. Qed.

Lemma adjusted_width_even people depth st c :
  exists k, adjusted_width people depth st c = 2 * k.
Proof.
  unfold adjusted_width. cbv zeta.
  fold (subtreeWidth (id c) people (MAX_LAYERS_DOWN - depth - 1) 0 (positioned st)).
  destruct (subtreeWidth_even people _ (id c) (MAX_LAYERS_DOWN - depth - 1) 0
              (positioned st) (le_n _)) as [a ->].
  destruct (calculateCoupleWidth_even c (getSpouse c people)) as [b ->].
  destruct (Z.max_spec (2 * a) (2 * b)) as [[_ ->]|[_ ->]]; eauto.
Qed.

Lemma desc_total_even people parentPerson depth st :
  exists k, desc_total people parentPerson depth st = 2 * k.
Proof.
  unfold desc_total. case_decide; [by exists 0|].
  apply gap_sum_even, Forall_map, Forall_forall. intros c _.
  apply adjusted_width_even.
Qed.

Section Geometry.

Context (fid : string) (people : People).
Hypothesis Hkeyed : keyed_by_id people.

(** The space reserved for a child covers what its own children take
    when they are placed, however much has been positioned meanwhile. *)
Lemma desc_total_le_adjusted depth st0 s c :
  people_get people (id c) = Some c ->
  id c ∉ positioned st0 ->
  positioned st0 ⊆ positioned s ->
  id c ∈ positioned s ->
  (forall sp, getSpouse c people = Some sp -> id sp ∈ positioned s) ->
  desc_total people c (depth + 1) s <= adjusted_width people depth st0 c.
Proof.
  intros Hget Hfresh Hsub Hc Hsp.
  pose proof (adjusted_width_lower people depth st0 c) as Hlow.
  pose proof (calculateCoupleWidth_lower c (getSpouse c people)) as Hcw.
  unfold desc_total. case_decide as Hdepth; [config; lia|].
  destruct (unpositioned_children people c s) as [|g gs] eqn:Hch;
    [simpl; config; lia|].
  rewrite <- Hch.
  assert (childrenIds c ≠ []) as Hne.
  { intros Hnil. unfold unpositioned_children in Hch. by rewrite Hnil in Hch. }
  clear Hch g gs.
  etransitivity; [|apply Z.le_max_l]. cbv zeta.
  fold (subtreeWidth (id c) people (MAX_LAYERS_DOWN - depth - 1) 0 (positioned st0)).
  rewrite subtreeWidth_gap_sum.
  rewrite decide_False by (config; lia). rewrite decide_False by done.
  rewrite Hget. cbv zeta.
  rewrite decide_False by (intros [?|?]; [done|config; lia]).
  etransitivity; [|apply Z.le_max_r].
  apply dominated_gap_sum.
  set (V1 := child_visited (id c) c people (positioned st0)).
  assert (V1 ⊆ positioned s) as HV1.
  { unfold V1, child_visited, add_spouse.
    destruct (getSpouse c people) as [sp|] eqn:Hs; [|set_solver].
    specialize (Hsp sp eq_refl). set_solver. }
  unfold unpositioned_children, validChildren. clear Hne.
  induction (childrenIds c) as [|k ks IH]; [constructor|].
  rewrite (filter_cons _ k ks). cbn [omap list_omap].
  destruct (people_get people k) as [g|] eqn:Hk.
  - pose proof (keyed_by_id_get _ _ _ Hkeyed Hk) as Hid.
    rewrite filter_cons.
    destruct (decide (id g ∉ positioned s)) as [Hg|Hg].
    + rewrite decide_True by (split; [done|set_solver]).
      cbn [map]. apply dominated_cons; [|done]. split.
      * pose proof (adjusted_width_lower people (depth + 1) s g).
        pose proof (calculateCoupleWidth_lower g (getSpouse g people)).
        config. lia.
      * unfold adjusted_width. cbv zeta. apply Z.max_lub.
        -- rewrite Hid.
           apply (subtreeWidth_mono people _ k _ _ _ _ _ _ (le_n _));
             [config; lia|done].
        -- apply subtreeWidth_lower; [config; lia|set_solver|done].
    + case_decide; [|done]. cbn [map].
      apply dominated_skip; [apply subtreeWidth_nonneg|done].
  - rewrite decide_False by (intros [[? ?] _]; done). done.
Qed.

Lemma children_loop_geometry rec parentPerson pcX py gen depth P0 :
  desc_spec people rec (py + VERTICAL_GAP + NODE_HEIGHT) (depth + 1) ->
  forall items currentX st,
    P0 ⊆ positioned st ->
    Forall (fun it =>
              calculateCoupleWidth it.1 (getSpouse it.1 people) <= it.2
              ∧ (exists k, it.2 = 2 * k)
              ∧ forall s, P0 ⊆ positioned s ->
                          id it.1 ∈ positioned s ->
                          (forall sp, getSpouse it.1 people = Some sp ->
                                      id sp ∈ positioned s) ->
                          desc_total people it.1 (depth + 1) s <= it.2) items ->
    exists new,
      let st' := children_loop fid people rec parentPerson pcX py
                   (py + VERTICAL_GAP + NODE_HEIGHT) gen items currentX st in
      nodes st' = nodes st ++ new
      ∧ positioned st ⊆ positioned st'
      ∧ Forall (fun n =>
                  within currentX (currentX + gap_sum (map snd items)) n
                  ∧ py + VERTICAL_GAP + NODE_HEIGHT <= y n) new
      ∧ pairwise_separated new.
Proof.
  intros Hrec items. induction items as [|[c w] items IH];
    intros currentX st HP0 Hitems.
  { exists []. simpl. rewrite app_nil_r. done. }
  apply Forall_cons in Hitems as [(Hcw & [k Hk] & Hroom) Hitems].
  simpl in Hcw, Hk, Hroom.
  cbn [children_loop].
  pose proof (positionCouple_nodes fid people c (currentX + w / 2)
                (py + VERTICAL_GAP + NODE_HEIGHT) (gen + 1) true false st) as Hn1.
  pose proof (positionCouple_positioned fid people c (currentX + w / 2)
                (py + VERTICAL_GAP + NODE_HEIGHT) (gen + 1) true false st) as Hp1.
  pose proof (positionCouple_centerX fid people c (currentX + w / 2)
                (py + VERTICAL_GAP + NODE_HEIGHT) (gen + 1) true false st) as Hc1.
  destruct (couple_new_geometry fid people c (currentX + w / 2)
              (py + VERTICAL_GAP + NODE_HEIGHT) (gen + 1) true false st)
    as [Hg1 Hs1].
  set (new1 := couple_new fid people c (currentX + w / 2)
                 (py + VERTICAL_GAP + NODE_HEIGHT) (gen + 1) true false st) in *.
  destruct (positionCouple fid people c (currentX + w / 2)
              (py + VERTICAL_GAP + NODE_HEIGHT) (gen + 1) true false st)
    as [result st1]; simpl in Hn1, Hp1, Hc1. subst w.
  set (st2 := match find_node (id c) (nodes st1) with
              | Some childNode => _ | None => st1 end).
  assert (nodes st2 = nodes st1 ∧ positioned st2 = positioned st1) as [Hn2 Hp2].
  { unfold st2. by destruct (find_node (id c) (nodes st1)). }
  assert (positioned st ⊆ positioned st2
          ∧ id c ∈ positioned st2
          ∧ (forall sp, getSpouse c people = Some sp -> id sp ∈ positioned st2))
    as (Hsub2 & Hc2 & Hsp2).
  { rewrite Hp2, Hp1.
    destruct (unplaced_spouse people c st) as [sp|] eqn:Hsp.
    - apply unplaced_spouse_Some in Hsp as [Hsp _].
      split; [set_solver|]. split; [set_solver|].
      intros sp' Hsp'. rewrite Hsp in Hsp'. injection Hsp' as <-. set_solver.
    - split; [set_solver|]. split; [set_solver|].
      intros sp' Hsp'.
      apply unplaced_spouse_None in Hsp as [Hsp|(sp & Hsp & Hin)];
        rewrite Hsp in Hsp'; [done|]. injection Hsp' as <-. set_solver. }
  destruct (Hrec c (centerX result) st2) as (new2 & Hn3 & Hp3 & Hg3 & Hs3).
  set (st3 := rec c (centerX result) st2) in *.
  pose proof (Hroom st2 (transitivity HP0 Hsub2) Hc2 Hsp2) as Hfit.
  destruct (IH (currentX + 2 * k + HORIZONTAL_GAP) st3) as (new3 & Hn4 & Hp4 & Hg4 & Hs4);
    [set_solver|done|].
  cbv zeta in Hn4, Hp4.
  exists (new1 ++ new2 ++ new3). cbv zeta.
  split; [rewrite Hn4, Hn3, Hn2, Hn1, <- !app_assoc; done|].
  split; [set_solver|].
  assert (0 <= gap_sum (map snd items)) as Hrest.
  { apply gap_sum_nonneg, Forall_map. eapply Forall_impl; [exact Hitems|].
    intros [c' w'] (Hcw' & _). simpl in *.
    pose proof (calculateCoupleWidth_lower c' (getSpouse c' people)).
    config. lia. }
  pose proof (calculateCoupleWidth_lower c (getSpouse c people)) as Hcl.
  destruct (desc_total_even people c (depth + 1) st2) as [t Ht].
  destruct (calculateCoupleWidth_even c (getSpouse c people)) as [q Hq].
  assert (Forall (fun n => within currentX (currentX + 2 * k) n) (new1 ++ new2))
    as Hslot.
  { apply Forall_app. split.
    - eapply Forall_impl; [exact Hg1|]. intros n [[Hl Hr] _].
      unfold within. rewrite Hq in *. lia_half.
    - eapply Forall_impl; [exact Hg3|]. intros n [[Hl Hr] _].
      unfold within. rewrite Hc1, Ht in *. lia_half. }
  cbn [map snd]. rewrite gap_sum_cons.
  split; [|].
  - rewrite app_assoc. apply Forall_app. split.
    + apply Forall_app. split.
      * rewrite Forall_app in Hslot. destruct Hslot as [Hslot _].
        apply Forall_forall. intros n Hn.
        rewrite Forall_forall in Hslot, Hg1.
        destruct (Hslot n Hn) as [Hl Hr]. destruct (Hg1 n Hn) as [_ Hy].
        split; [|lia]. split; [done|].
        destruct (map snd items); config; lia.
      * rewrite Forall_app in Hslot. destruct Hslot as [_ Hslot].
        apply Forall_forall. intros n Hn.
        rewrite Forall_forall in Hslot, Hg3.
        destruct (Hslot n Hn) as [Hl Hr]. destruct (Hg3 n Hn) as [_ Hy].
        split; [|config; lia]. split; [done|].
        destruct (map snd items); config; lia.
    + destruct items as [|it items'].
      { destruct (IH (currentX + 2 * k + HORIZONTAL_GAP) st3) as (new3' & Hn4' & _);
          [set_solver|done|].
        simpl in Hn4, Hn4'. rewrite <- (app_nil_r (nodes st3)) in Hn4 at 1.
        apply app_inv_head in Hn4. subst new3. apply Forall_nil_2. }
      eapply Forall_impl; [exact Hg4|]. intros n [[Hl Hr] Hy].
      split; [|done]. unfold within. cbn [map] in *. config. lia.
  - rewrite app_assoc. apply pairwise_separated_app; [|done|].
    + apply pairwise_separated_app; [done|done|].
      intros n1 n2 H1 H2. apply rows_separated.
      rewrite Forall_forall in Hg1, Hg3.
      destruct (Hg1 n1 H1) as [_ Hy1]. destruct (Hg3 n2 H2) as [_ Hy2].
      config. lia.
    + intros n1 n2 H1 H2.
      rewrite Forall_forall in Hslot, Hg4.
      destruct (Hg4 n2 H2) as [Hw2 _].
      eapply within_separated; [apply (Hslot n1 H1)|exact Hw2|]. config. lia.
Qed.

End Geometry.

Lemma unpositioned_children_keyed people parentPerson st c :
  keyed_by_id people ->
  c ∈ unpositioned_children people parentPerson st ->
  people_get people (id c) = Some c ∧ id c ∉ positioned st.
Proof.
  intros Hk Hc. apply unpositioned_children_elem in Hc as (_ & Hn & k & _ & Hget).
  split; [|done]. by rewrite (keyed_by_id_get _ _ _ Hk Hget).
Qed.

Lemma positionDescendants_geometry fid people n :
  keyed_by_id people ->
  forall py gen depth,
    (Z.to_nat (MAX_LAYERS_DOWN - depth) <= n)%nat ->
    desc_spec people
      (fun parentPerson cX st =>
         positionDescendants fid people parentPerson cX py gen depth st)
      py depth.
Proof.
  intros Hk. induction n as [|n IH]; intros py gen depth Hn parentPerson cX st;
    rewrite positionDescendants_eq; unfold desc_total;
    destruct (decide (depth >= MAX_LAYERS_DOWN)) as [Hd|Hd];
    try (exists []; rewrite app_nil_r; done); [config; lia|].
  destruct (unpositioned_children people parentPerson st) as [|c0 cs] eqn:Hch.
  { exists []. rewrite app_nil_r. done. }
  rewrite <- Hch. cbv zeta.
  set (children := unpositioned_children people parentPerson st) in *.
  set (ws := map (adjusted_width people depth st) children).
  assert (sum_widths ws + (Z.of_nat (length children) - 1) * HORIZONTAL_GAP
          = gap_sum ws) as ->.
  { unfold gap_sum, ws. rewrite Hch. cbn [map length]. by rewrite length_map. }
  assert (desc_spec people
            (fun child cX0 s =>
               positionDescendants fid people child cX0
                 (py + VERTICAL_GAP + NODE_HEIGHT) (gen + 1) (depth + 1) s)
            (py + VERTICAL_GAP + NODE_HEIGHT) (depth + 1)) as Hrec
    by (apply IH; config; lia).
  destruct (children_loop_geometry fid people Hk _
              parentPerson cX py gen depth (positioned st) Hrec
              (zip children ws) (cX - gap_sum ws / 2) st)
    as (new & Hnodes & Hpos & Hgeo & Hsep); [done| |].
  { apply Forall_forall. intros [c w] Hin.
    pose proof (elem_of_zip_l _ _ _ _ Hin) as Hc.
    apply (unpositioned_children_keyed _ _ _ _ Hk) in Hc as [Hget Hfresh].
    assert (w = adjusted_width people depth st c) as ->.
    { unfold ws in Hin. apply list_elem_of_lookup in Hin as [i Hi].
      apply lookup_zip_with_Some in Hi as (c' & w' & [= <- <-] & Hc' & Hw').
      rewrite list_lookup_fmap, Hc' in Hw'. by injection Hw'. }
    simpl. split; [apply adjusted_width_lower|].
    split; [apply adjusted_width_even|].
    intros s Hs Hcs Hsp. by apply desc_total_le_adjusted. }
  cbv zeta in Hnodes, Hpos.
  exists new. split; [done|]. split; [done|]. split; [|done].
  rewrite snd_zip in Hgeo by (unfold ws; rewrite length_map; done).
  destruct (gap_sum_even ws) as [t Ht].
  { apply Forall_map, Forall_forall. intros c _. apply adjusted_width_even. }
  eapply Forall_impl; [exact Hgeo|]. intros m [[Hl Hr] Hy].
  split; [|done]. unfold within. rewrite Ht in *. lia_half.
Qed.

Lemma ancestor_step_nodes fid people personId cX pY gen parent st :
  nodes (ancestor_step fid people personId cX pY gen parent st).2 =
  nodes st ++ couple_new fid people parent cX (pY - VERTICAL_GAP - NODE_HEIGHT)
                (gen - 1) false true st.
Proof.
  unfold ancestor_step.
  pose proof (positionCouple_nodes fid people parent cX
                (pY - VERTICAL_GAP - NODE_HEIGHT) (gen - 1) false true st) as H.
  destruct (positionCouple _ _ _ _ _ _ _ _ _) as [result st1]; simpl in *.
  by destruct (find_node personId (nodes st1)).
Qed.

(** The ancestor rows: one couple per row, each row above the previous. *)
Lemma positionAncestors_geometry fid people n :
  forall personId cX pY gen depth st,
    (Z.to_nat (MAX_LAYERS_UP - depth) <= n)%nat ->
    exists new,
      nodes (positionAncestors fid people personId cX pY gen depth st)
      = nodes st ++ new
      ∧ Forall (fun m => y m <= pY - VERTICAL_GAP - NODE_HEIGHT) new
      ∧ pairwise_separated new.
Proof.
  induction n as [|n IH]; intros personId cX pY gen depth st Hn;
    rewrite positionAncestors_eq;
    destruct (decide (depth >= MAX_LAYERS_UP)) as [Hd|Hd];
    try (exists []; rewrite app_nil_r; done); [config; lia|].
  destruct (filter _ (findParents personId people)) as [|parent rest].
  { exists []. rewrite app_nil_r. done. }
  pose proof (ancestor_step_nodes fid people personId cX pY gen parent st) as Hn1.
  destruct (couple_new_geometry fid people parent cX
              (pY - VERTICAL_GAP - NODE_HEIGHT) (gen - 1) false true st)
    as [Hg1 Hs1].
  destruct (ancestor_step fid people personId cX pY gen parent st)
    as [result st2]; simpl in Hn1.
  destruct (IH (id parent) (centerX result) (pY - VERTICAL_GAP - NODE_HEIGHT)
              (gen - 1) (depth + 1) st2) as (new2 & Hn2 & Hy2 & Hs2);
    [config; lia|].
  eexists. split; [rewrite Hn2, Hn1, <- app_assoc; done|]. split.
  - apply Forall_app. split.
    + eapply Forall_impl; [exact Hg1|]. intros m [_ Hy]. lia.
    + eapply Forall_impl; [exact Hy2|]. intros m Hy. simpl in Hy. config. lia.
  - apply pairwise_separated_app; [done|done|].
    intros n1 n2 H1 H2. apply rows_separated.
    rewrite Forall_forall in Hg1, Hy2.
    destruct (Hg1 n1 H1) as [_ Hy1]. specialize (Hy2 n2 H2). simpl in Hy2.
    config. lia.
Qed.

Lemma layout_state_separated fid people focusedPerson :
  keyed_by_id people ->
  pairwise_separated (nodes (layout_state fid people focusedPerson)).
Proof.
  intros Hk. unfold layout_state.
  pose proof (positionCouple_nodes fid people focusedPerson 0 0 0 false false
                empty_state) as Hn1.
  destruct (couple_new_geometry fid people focusedPerson 0 0 0 false false
              empty_state) as [Hg1 Hs1].
  destruct (positionCouple fid people focusedPerson 0 0 0 false false empty_state)
    as [result st1]; simpl in Hn1.
  destruct (positionDescendants_geometry fid people _ Hk 0 0 0 (le_n _)
              focusedPerson (centerX result) st1) as (new2 & Hn2 & _ & Hg2 & Hs2).
  set (st2 := positionDescendants fid people focusedPerson (centerX result) 0 0 0 st1)
    in *.
  destruct (positionAncestors_geometry fid people _ fid (centerX result) 0 0 0 st2
              (le_n _)) as (new3 & Hn3 & Hy3 & Hs3).
  rewrite Hn3, Hn2, Hn1. simpl.
  apply pairwise_separated_app; [|done|].
  - apply pairwise_separated_app; [done|done|].
    intros n1 n2 H1 H2. apply rows_separated.
    rewrite Forall_forall in Hg1, Hg2.
    destruct (Hg1 n1 H1) as [_ Hy1]. destruct (Hg2 n2 H2) as [_ Hy2].
    config. lia.
  - intros n1 n2 H1 H2. apply rows_separated.
    rewrite Forall_forall in Hg1, Hg2, Hy3. specialize (Hy3 n2 H2).
    apply elem_of_app in H1 as [H1|H1].
    + destruct (Hg1 n1 H1) as [_ Hy1]. config. lia.
    + destruct (Hg2 n1 H1) as [_ Hy1]. config. lia.
Qed.

(** C1.  In a graph keyed by person id, two distinct nodes of the result
    that lie on the same row have horizontal extents, from
    [x - width / 2] to [x + width / 2], that meet at most at a boundary
    point. *)
Theorem computeLayout_no_overlap fid people i j n1 n2 :
  keyed_by_id people ->
  i ≠ j ->
  res_nodes (computeLayout fid people) !! i = Some n1 ->
  res_nodes (computeLayout fid people) !! j = Some n2 ->
  y n1 = y n2 ->
  x n1 + width n1 / 2 <= x n2 - width n2 / 2
  \/ x n2 + width n2 / 2 <= x n1 - width n1 / 2.
Proof.
  intros Hk Hij H1 H2 Hy.
  assert (pairwise_separated (res_nodes (computeLayout fid people))) as Hsep.
  { unfold computeLayout. destruct (people_get people fid) as [fp|]; simpl; [|done].
    by apply layout_state_separated. }
  exact (pairwise_separated_lookup _ _ _ _ _ Hsep Hij H1 H2 Hy).
Qed.

(** ** C6: spouses side by side *)

Lemma is_spouse_link_sym a b c : is_spouse_link a b c = is_spouse_link b a c.
Proof. unfold is_spouse_link. destruct (conn_type c); [|done]. apply orb_comm. Qed.

Lemma spouse_links_sym a b cs : spouse_links a b cs = spouse_links b a cs.
Proof.
  unfold spouse_links. induction cs as [|c cs IH]; simpl; [done|].
  by rewrite IH, is_spouse_link_sym.
Qed.

Lemma displayed_sym A B ns cs : displayed A B ns cs -> displayed B A ns cs.
Proof.
  intros (nA & nB & H1 & H2 & H3 & H4 & H5 & H6 & H7 & H8 & H9).
  exists nB, nA. rewrite spouse_links_sym. repeat split; try done; lia.
Qed.

Lemma spouse_links_app a b cs1 cs2 :
  spouse_links a b (cs1 ++ cs2) = spouse_links a b cs1 ++ spouse_links a b cs2.
Proof. apply List.filter_app. Qed.

Lemma positionCouple_connections fid people p cX cY gen c pr st :
  exists cs,
    connections (positionCouple fid people p cX cY gen c pr st).2
    = connections st ++ cs
    ∧ match unplaced_spouse people p st with
      | Some sp =>
          exists l, cs = [l] ∧ conn_type l = spouse_conn
                    ∧ ((fromId l = id p ∧ toId l = id sp)
                       ∨ (fromId l = id sp ∧ toId l = id p))
      | None => cs = []
      end.
Proof.
  unfold positionCouple.
  destruct (unplaced_spouse people p st) as [sp|]; simpl.
  - eexists. rewrite !place_connections. split; [done|].
    eexists. split; [done|]. split; [done|].
    simpl. destruct (bool_decide (gender p = male)); auto.
  - exists []. by rewrite place_connections, app_nil_r.
Qed.

Lemma keys_unique (people : People) k p q :
  NoDup (map fst people) -> (k, p) ∈ people -> (k, q) ∈ people -> p = q.
Proof.
  induction people as [|[k' r] rest IH]; intros Hnd Hp Hq.
  - by apply elem_of_nil in Hp.
  - simpl in Hnd. apply NoDup_cons in Hnd as [Hk' Hnd].
    apply elem_of_cons in Hp as [Hp|Hp]; apply elem_of_cons in Hq as [Hq|Hq].
    + congruence.
    + injection Hp as -> ->. exfalso. apply Hk'.
      apply list_elem_of_fmap. by exists (k', q).
    + injection Hq as -> ->. exfalso. apply Hk'.
      apply list_elem_of_fmap. by exists (k', p).
    + by apply IH.
Qed.

(** In a record keyed by id with distinct keys, a person of the graph is
    determined by its id. *)
Lemma value_by_id people p q :
  keyed_by_id people -> NoDup (map fst people) ->
  p ∈ people_values people -> q ∈ people_values people ->
  id p = id q -> p = q.
Proof.
  intros Hk Hnd Hp Hq Hid. unfold people_values in *.
  apply list_elem_of_fmap in Hp as ([kp p'] & -> & Hp).
  apply list_elem_of_fmap in Hq as ([kq q'] & -> & Hq).
  unfold keyed_by_id in Hk. rewrite Forall_forall in Hk.
  pose proof (Hk _ Hp) as H1. pose proof (Hk _ Hq) as H2. simpl in *.
  assert (kp = kq) as -> by congruence.
  by eapply keys_unique.
Qed.

Lemma couple_in_sym people A B : couple_in people A B -> couple_in people B A.
Proof.
  intros (H1 & H2 & H3 & H4 & H5 & H6 & H7).
  repeat split; try done; try (by apply H6); try (by apply H7).
Qed.

Lemma couple_inv_sym A B st : couple_inv A B st -> couple_inv B A st.
Proof.
  intros (H1 & H2 & H3 & H4). split; [done|]. split; [tauto|]. split.
  - intros HB. apply displayed_sym, H3, H2, HB.
  - intros HB. rewrite spouse_links_sym. apply H4. tauto.
Qed.

Lemma place_fresh fid p nx ny gen s c pr st :
  id p ∉ positioned st ->
  place fid p nx ny gen s c pr st
  = push_node (createNode fid p nx ny gen s c pr) st.
Proof. intros H. unfold place. by rewrite decide_False. Qed.

Lemma place_positioned_already fid p nx ny gen s c pr st :
  id p ∈ positioned st -> place fid p nx ny gen s c pr st = st.
Proof. intros H. unfold place. by rewrite decide_True. Qed.

Lemma displayed_grow A B ns cs ns' cs' :
  displayed A B ns cs ->
  spouse_links (id A) (id B) cs' = [] ->
  displayed A B (ns ++ ns') (cs ++ cs').
Proof.
  intros (nA & nB & H1 & H2 & H3) Hcs'.
  exists nA, nB. rewrite spouse_links_app, Hcs', app_nil_r.
  split; [apply elem_of_app; by left|]. split; [apply elem_of_app; by left|]. done.
Qed.

Lemma spouse_links_singleton a b l :
  is_spouse_link a b l = true -> spouse_links a b [l] = [l].
Proof. intros H. unfold spouse_links. cbn [List.filter]. by rewrite H. Qed.

Lemma is_spouse_link_ends a b l :
  conn_type l = spouse_conn ->
  (fromId l = a ∧ toId l = b) ∨ (fromId l = b ∧ toId l = a) ->
  is_spouse_link a b l = true.
Proof.
  intros Hty Hends. unfold is_spouse_link. rewrite Hty.
  repeat case_bool_decide; simpl; try done; tauto.
Qed.

(** The call that places [A] together with [B]. *)
Lemma couple_inv_member fid people A B cX cY gen c pr st :
  couple_in people A B ->
  couple_inv A B st ->
  couple_inv A B (positionCouple fid people A cX cY gen c pr st).2.
Proof.
  intros (HA & HB & HsA & HsB & Hne & Huniq & Hexcl) Hinv.
  pose proof (ids_tracked_couple fid people A cX cY gen c pr st (proj1 Hinv))
    as Htracked.
  destruct Hinv as (_ & Hiff & Hshown & Hnone).
  split; [done|]. clear Htracked.
  unfold positionCouple, unplaced_spouse. rewrite HsA.
  destruct (decide (id A ∈ positioned st)) as [HinA|HoutA].
  - rewrite decide_True by tauto. simpl.
    rewrite place_positioned_already by done. tauto.
  - assert (id B ∉ positioned st) as HoutB by tauto.
    rewrite decide_False by done. cbv zeta.
    pose proof (calculateNodeWidth_half (name A)) as HhA.
    pose proof (calculateNodeWidth_half (name B)) as HhB.
    pose proof (calculateNodeWidth_bounds (name A)) as HbA.
    pose proof (calculateNodeWidth_bounds (name B)) as HbB.
    destruct (bool_decide (gender A = male)) eqn:Hg; cbn [snd].
    + apply bool_decide_eq_true_1 in Hg.
      rewrite (place_fresh fid A) by done.
      rewrite (place_fresh fid B) by (simpl; set_solver).
      unfold push_connection, push_node, createNode; simpl.
      split; [set_solver|]. split; [|intros Hcontra; set_solver].
      intros _. eexists _, _.
      split; [apply elem_of_app; left; apply elem_of_app; right; left|].
      split; [apply elem_of_app; right; left|]. simpl.
      do 3 (split; [done|]). split; [lia_half|]. split; [intros; lia_half|].
      split; [congruence|].
      rewrite spouse_links_app, (Hnone HoutA).
      rewrite spouse_links_singleton; [done|].
      apply is_spouse_link_ends; [done|]. left. done.
    + apply bool_decide_eq_false_1 in Hg.
      rewrite (place_fresh fid B) by done.
      rewrite (place_fresh fid A) by (simpl; set_solver).
      unfold push_connection, push_node, createNode; simpl.
      split; [set_solver|]. split; [|intros Hcontra; set_solver].
      intros _. eexists _, _.
      split; [apply elem_of_app; right; left|].
      split; [apply elem_of_app; left; apply elem_of_app; right; left|]. simpl.
      do 3 (split; [done|]). split; [lia_half|]. split; [done|].
      split; [intros; lia_half|].
      rewrite spouse_links_app, (Hnone HoutA).
      rewrite spouse_links_singleton; [done|].
      apply is_spouse_link_ends; [done|]. right. done.
Qed.

Lemma getSpouse_in_values people p sp :
  getSpouse p people = Some sp -> sp ∈ people_values people.
Proof.
  unfold getSpouse. destruct (spouseId p) as [s|]; [|done].
  case_decide; [done|]. apply people_get_in_values.
Qed.

(** A call on any other person of the graph leaves the couple alone. *)
Lemma couple_inv_other fid people A B p cX cY gen c pr st :
  couple_in people A B ->
  p ∈ people_values people ->
  p ≠ A -> p ≠ B ->
  couple_inv A B st ->
  couple_inv A B (positionCouple fid people p cX cY gen c pr st).2.
Proof.
  intros (HA & HB & HsA & HsB & Hne & Huniq & Hexcl) Hp HpA HpB Hinv.
  pose proof (ids_tracked_couple fid people p cX cY gen c pr st (proj1 Hinv))
    as Htracked.
  destruct Hinv as (_ & Hiff & Hshown & Hnone).
  split; [done|]. clear Htracked.
  assert (id p ≠ id A ∧ id p ≠ id B) as [HidA HidB].
  { split; intros Hid; [apply HpA|apply HpB]; by apply (Huniq p Hp). }
  destruct (positionCouple_connections fid people p cX cY gen c pr st)
    as (cs & Hconn & Hcs).
  rewrite positionCouple_positioned, positionCouple_nodes, Hconn.
  assert (spouse_links (id A) (id B) cs = []
          ∧ forall i, i = id A ∨ i = id B ->
              (i ∈ match unplaced_spouse people p st with
                   | Some sp => {[ id p ]} ∪ ({[ id sp ]} ∪ positioned st)
                   | None => {[ id p ]} ∪ positioned st
                   end <-> i ∈ positioned st)) as [Hlinks Hpos].
  { destruct (unplaced_spouse people p st) as [sp|] eqn:Hsp.
    - apply unplaced_spouse_Some in Hsp as [Hsp _].
      pose proof (getSpouse_in_values _ _ _ Hsp) as Hspv.
      assert (id sp ≠ id A ∧ id sp ≠ id B) as [HsidA HsidB].
      { split; intros Hid.
        - apply (Huniq sp Hspv) in Hid. subst sp. by apply (Hexcl p Hp) in Hsp.
        - apply (Huniq sp Hspv) in Hid. subst sp. by apply (Hexcl p Hp) in Hsp. }
      split.
      + destruct Hcs as (l & -> & Hty & Hends).
        unfold spouse_links, is_spouse_link. simpl. rewrite Hty.
        destruct Hends as [[-> ->]|[-> ->]];
          rewrite !bool_decide_eq_false_2 by done; done.
      + intros i [->| ->]; set_solver.
    - subst cs. split; [done|]. intros i [->| ->]; set_solver. }
  split; [by rewrite !Hpos by auto|]. split.
  - rewrite Hpos by auto. intros HinA. by apply displayed_grow; [apply Hshown|].
  - rewrite Hpos by auto. intros HoutA.
    by rewrite spouse_links_app, Hlinks, (Hnone HoutA).
Qed.

Lemma couple_inv_layout fid people A B focusedPerson :
  couple_in people A B ->
  focusedPerson ∈ people_values people ->
  couple_inv A B (layout_state fid people focusedPerson).
Proof.
  intros Hc Hp. apply layout_state_inv; [| |done|].
  - intros p cX cY gen c pr st Hpv _ Hinv.
    destruct (decide (p = A)) as [->|HpA]; [by apply couple_inv_member|].
    destruct (decide (p = B)) as [->|HpB]; [|by apply couple_inv_other].
    apply couple_inv_sym, couple_inv_member; [by apply couple_in_sym|].
    by apply couple_inv_sym.
  - intros c st Hty (H1 & H2 & H3 & H4).
    assert (forall a b, spouse_links a b (connections (push_connection c st))
                        = spouse_links a b (connections st)) as Hl.
    { intros a b. unfold push_connection. simpl. rewrite spouse_links_app.
      unfold spouse_links at 2, is_spouse_link. simpl. rewrite Hty.
      by rewrite app_nil_r. }
    split; [done|]. split; [done|]. split.
    + intros HinA. destruct (H3 HinA) as (nA & nB & Hd).
      exists nA, nB. by rewrite Hl.
    + intros HoutA. rewrite Hl. by apply H4.
  - split; [split; [apply NoDup_nil_2|intros n Hn; by apply elem_of_nil in Hn]|].
    split; [done|]. split; [intros Hin; by apply elem_of_empty in Hin|done].
Qed.

Lemma couple_in_of_links people A B :
  keyed_by_id people ->
  NoDup (map fst people) ->
  people_get people (id A) = Some A ->
  people_get people (id B) = Some B ->
  spouseId A = Some (id B) ->
  spouseId B = Some (id A) ->
  id A ≠ id B -> id A ≠ "" -> id B ≠ "" ->
  Forall (fun q => (spouseId q = Some (id A) -> q = B)
                   ∧ (spouseId q = Some (id B) -> q = A))
         (people_values people) ->
  couple_in people A B.
Proof.
  intros Hk Hnd HA HB HAB HBA Hne HAe HBe Hex.
  pose proof (people_get_in_values _ _ _ HA) as HAv.
  pose proof (people_get_in_values _ _ _ HB) as HBv.
  rewrite Forall_forall in Hex.
  assert (forall q s, getSpouse q people = Some s -> spouseId q = Some (id s)) as Hsp.
  { intros q s. unfold getSpouse. destruct (spouseId q) as [k|]; [|done].
    case_decide; [done|]. intros Hget.
    by rewrite (keyed_by_id_get _ _ _ Hk Hget). }
  split; [done|]. split; [done|].
  split; [unfold getSpouse; rewrite HAB; by rewrite decide_False|].
  split; [unfold getSpouse; rewrite HBA; by rewrite decide_False|].
  split; [done|]. split.
  - intros q Hq. split; intros Hid; by apply (value_by_id people).
  - intros q Hq. split; intros Hs; apply Hsp in Hs; by apply (Hex q Hq).
Qed.

(** C6, amended.  Let the graph be keyed by person id, with distinct
    keys, and let [A] and [B] be two persons of it with different,
    non-empty ids that name each other as spouse, no other person naming
    either of them.  If a node of the result carries the id of [A] or of
    [B], then both have a node, on the same row, at horizontal distance
    [widthA / 2 + SPOUSE_GAP + widthB / 2]; when one is male and the other
    female the male one is on the left; and exactly one spouse connection
    joins them. *)
Theorem spouses_displayed_together fid people A B :
  keyed_by_id people ->
  NoDup (map fst people) ->
  people_get people (id A) = Some A ->
  people_get people (id B) = Some B ->
  spouseId A = Some (id B) ->
  spouseId B = Some (id A) ->
  id A ≠ id B -> id A ≠ "" -> id B ≠ "" ->
  Forall (fun q => (spouseId q = Some (id A) -> q = B)
                   /\ (spouseId q = Some (id B) -> q = A))
         (people_values people) ->
  (exists n, n ∈ res_nodes (computeLayout fid people)
             /\ (id (person n) = id A \/ id (person n) = id B)) ->
  displayed A B (res_nodes (computeLayout fid people))
                (res_connections (computeLayout fid people)).
Proof.
  intros Hk Hnd HA HB HAB HBA Hne HAe HBe Hex (n & Hn & Hid).
  pose proof (couple_in_of_links people A B Hk Hnd HA HB HAB HBA Hne HAe HBe Hex)
    as Hc.
  unfold computeLayout in *.
  destruct (people_get people fid) as [fp|] eqn:Hfp; simpl in *;
    [|by apply elem_of_nil in Hn].
  apply people_get_in_values in Hfp.
  destruct (couple_inv_layout fid people A B fp Hc Hfp)
    as ([_ Htr] & Hiff & Hshown & _).
  apply Hshown. apply Htr in Hn. unfold node_id in Hn.
  destruct Hid as [<-|Hid]; [done|]. rewrite Hid in Hn. tauto.
Qed.

(** ** C6 as worded fails when a third person names one of the two *)

(** C6, counterexample.  With Fred focused, Beth is placed as Fred's
    spouse and Alan, whom she names and who names her, is not placed at
    all. *)
Lemma spouse_symmetry_counterexample :
  ~ spouse_symmetry_claim "f" Examples.rival_graph Examples.alan Examples.beth.
Proof.
  unfold spouse_symmetry_claim. intros H.
  destruct H as (nA & nB & HnA & _ & HpA & _); try reflexivity.
  - eexists. split.
    + apply (list_elem_of_lookup_2 _ 1%nat). vm_compute. reflexivity.
    + right. reflexivity.
  - assert (res_nodes (computeLayout "f" Examples.rival_graph)
            = [ mkNode Examples.fred (-80) 0 140 90 false false false true 0;
                mkNode Examples.beth 80 0 140 90 true false false false 0 ]) as Hr
      by (vm_compute; reflexivity).
    rewrite Hr in HnA.
    apply elem_of_cons in HnA as [->|HnA]; [discriminate HpA|].
    apply list_elem_of_singleton in HnA as ->. discriminate HpA.
Qed.

(** ** The theorems at concrete graphs *)

Lemma family_keyed : keyed_by_id Examples.family.
Proof. unfold keyed_by_id. repeat constructor. Defined.

Lemma computeLayout_no_overlap_witness :
  exists n1 n2,
    res_nodes (computeLayout "dad" Examples.family) !! 2%nat = Some n1
    /\ res_nodes (computeLayout "dad" Examples.family) !! 3%nat = Some n2
    /\ y n1 = y n2
    /\ (x n1 + width n1 / 2 <= x n2 - width n2 / 2
        \/ x n2 + width n2 / 2 <= x n1 - width n1 / 2).
Proof.
  eexists _, _.
  split; [vm_compute; reflexivity|].
  split; [vm_compute; reflexivity|].
  split; [reflexivity|].
  apply (computeLayout_no_overlap "dad" Examples.family 2 3).
  - exact family_keyed.
  - discriminate.
  - vm_compute. reflexivity.
  - vm_compute. reflexivity.
  - reflexivity.
Defined.

Lemma computeLayout_focus_witness :
  people_get Examples.family "dad" = Some Examples.dad
  /\ id Examples.dad = "dad"
  /\ exists n, focusedNode (computeLayout "dad" Examples.family) = Some n
               /\ isFocused n = true
               /\ id (person n) = "dad"
               /\ n ∈ res_nodes (computeLayout "dad" Examples.family).
Proof.
  split; [reflexivity|]. split; [reflexivity|].
  apply (proj1 (proj2 (computeLayout_focus "dad" Examples.family)) Examples.dad);
    reflexivity.
Defined.

Lemma computeLayout_generation_bound_witness :
  exists n,
    res_nodes (computeLayout "k1" Examples.family) !! 4%nat = Some n
    /\ generation n = -2
    /\ - MAX_LAYERS_UP <= generation n <= MAX_LAYERS_DOWN.
Proof.
  eexists. split; [vm_compute; reflexivity|]. split; [reflexivity|].
  apply (computeLayout_generation_bound "k1" Examples.family).
  apply (list_elem_of_lookup_2 _ 4%nat). vm_compute. reflexivity.
Defined.

Lemma spouses_displayed_together_witness :
  displayed Examples.dad Examples.mom
    (res_nodes (computeLayout "k1" Examples.family))
    (res_connections (computeLayout "k1" Examples.family)).
Proof.
  apply (spouses_displayed_together "k1" Examples.family Examples.dad Examples.mom).
  - exact family_keyed.
  - vm_compute. repeat constructor; set_solver.
  - reflexivity.
  - reflexivity.
  - reflexivity.
  - reflexivity.
  - discriminate.
  - discriminate.
  - discriminate.
  - repeat constructor; discriminate.
  - eexists. split.
    + apply (list_elem_of_lookup_2 _ 1%nat). vm_compute. reflexivity.
    + left. reflexivity.
Defined.

Lemma computeLayout_cycle_safe_witness :
  (remaining_layers MAX_LAYERS_DOWN (3 + 1) < remaining_layers MAX_LAYERS_DOWN 3)%nat
  /\ positionDescendants "x" cyclic_graph (mkPerson "x" "Xavier" male None ["y"])
    0 0 4 4 empty_state = empty_state
  /\ positionAncestors "x" cyclic_graph "x" 0 0 (-4) 4 empty_state = empty_state
  /\ calculateSubtreeWidth "x" cyclic_graph 3 1 {[ "x" ]} = (0, {[ "x" ]})
  /\ calculateSubtreeWidth "y" cyclic_graph 0 1 ∅ = (0, ∅).
Proof.
  destruct computeLayout_cycle_safe as (_ & _ & Hm & Hd & Ha & Hw & _).
  split; [apply Hm; config; lia|].
  split; [apply Hd; config; lia|].
  split; [apply Ha; config; lia|].
  split; [apply Hw; right; set_solver|].
  apply Hw. left. lia.
Defined.

Lemma computeLayout_single_person_witness :
  res_nodes (computeLayout "p" [("p", Examples.solo)]) =
    [mkNode Examples.solo 0 0 140 90 false false false true 0]
  /\ res_connections (computeLayout "p" [("p", Examples.solo)]) = [].
Proof.
  destruct (computeLayout_single_person Examples.solo eq_refl eq_refl)
    as (H1 & H2 & _).
  split; [exact H1|exact H2].
Defined.

(** * Further properties of the engine and of its callers *)

(** ** The calls the placement phases make

    A sharper form of the induction principle: every couple placement is
    made on the row of its generation, with the child flag on the rows
    below the focus and the parent flag on the rows above, around x = 0 on
    the focus row and above; every parent-child connection is pushed
    between a positioned parent and a node that was found. *)

Lemma row_y_next gen : row_y gen + VERTICAL_GAP + NODE_HEIGHT = row_y (gen + 1).
Proof. unfold row_y. config. lia. Qed.

Lemma row_y_prev gen : row_y gen - VERTICAL_GAP - NODE_HEIGHT = row_y (gen - 1).
Proof. unfold row_y. config. lia. Qed.

Lemma positionCouple_positions fid people p cX cY gen c pr st :
  let st' := (positionCouple fid people p cX cY gen c pr st).2 in
  positioned st ⊆ positioned st'
  ∧ id p ∈ positioned st'
  ∧ (forall sp, getSpouse p people = Some sp -> id sp ∈ positioned st').
Proof.
  cbv zeta. rewrite positionCouple_positioned.
  destruct (unplaced_spouse people p st) as [sp|] eqn:Hsp.
  - apply unplaced_spouse_Some in Hsp as [Hsp _].
    split; [set_solver|]. split; [set_solver|].
    intros sp' Hsp'. rewrite Hsp in Hsp'. injection Hsp' as <-. set_solver.
  - split; [set_solver|]. split; [set_solver|].
    intros sp' Hsp'.
    apply unplaced_spouse_None in Hsp as [Hsp|(sp & Hsp & Hin)];
      rewrite Hsp in Hsp'; [done|]. injection Hsp' as <-. set_solver.
Qed.

Section Trace.

Context (fid : string) (people : People).

(** The generations of the calls the property has to survive. *)
Context (lo hi : Z).
Variable Inv : LayoutState -> Prop.

Hypothesis Tr_couple : forall p cX gen st,
  p ∈ people_values people ->
  lo <= gen <= hi ->
  (gen <= 0 -> cX = 0) ->
  Inv st ->
  Inv (positionCouple fid people p cX (row_y gen) gen
         (bool_decide (0 < gen)) (bool_decide (gen < 0)) st).2.

Hypothesis Tr_child_link : forall parentPerson child pcX py childNode st,
  id parentPerson ∈ positioned st ->
  find_node (id child) (nodes st) = Some childNode ->
  Inv st ->
  Inv (push_connection (child_link parentPerson child pcX py childNode) st).

Hypothesis Tr_parent_link : forall parent personId cX py childNode st,
  id parent ∈ positioned st ->
  find_node personId (nodes st) = Some childNode ->
  Inv st ->
  Inv (push_connection (parent_link parent personId cX py childNode) st).

Lemma children_loop_trace rec parentPerson pcX gen items :
  0 <= gen -> lo <= gen + 1 <= hi ->
  (forall c cX s, c ∈ people_values people -> id c ∈ positioned s -> Inv s ->
                  Inv (rec c cX s) ∧ positioned s ⊆ positioned (rec c cX s)) ->
  Forall (fun it => it.1 ∈ people_values people) items ->
  forall currentX st,
    id parentPerson ∈ positioned st ->
    Inv st ->
    let st' := children_loop fid people rec parentPerson pcX (row_y gen)
                 (row_y (gen + 1)) gen items currentX st in
    Inv st' ∧ positioned st ⊆ positioned st'.
Proof.
  intros Hgen Hrange Hrec Hitems. induction Hitems as [|[child w] items Hc _ IH];
    intros currentX st Hpar Hst; [done|].
  cbn [children_loop]. simpl in Hc.
  pose proof (Tr_couple child (currentX + w / 2) (gen + 1) st Hc
                Hrange ltac:(lia) Hst) as H1.
  rewrite (bool_decide_eq_true_2 (0 < gen + 1)) in H1 by lia.
  rewrite (bool_decide_eq_false_2 (gen + 1 < 0)) in H1 by lia.
  destruct (positionCouple_positions fid people child (currentX + w / 2)
              (row_y (gen + 1)) (gen + 1) true false st) as (Hsub1 & Hin1 & _).
  destruct (positionCouple fid people child (currentX + w / 2) (row_y (gen + 1))
              (gen + 1) true false st) as [result st1]; simpl in H1, Hsub1, Hin1.
  set (st2 := match find_node (id child) (nodes st1) with
              | Some childNode => _ | None => st1 end).
  assert (Inv st2 ∧ positioned st2 = positioned st1) as [H2 Hp2].
  { unfold st2. destruct (find_node (id child) (nodes st1)) as [cn|] eqn:Hf;
      [|done].
    split; [|done].
    pose proof (Tr_child_link parentPerson child pcX (row_y gen) cn st1
                  ltac:(set_solver) Hf H1) as H.
    unfold child_link in H. by rewrite row_y_next in H. }
  destruct (Hrec child (centerX result) st2 Hc ltac:(rewrite Hp2; done) H2)
    as [H3 Hsub3].
  destruct (IH (currentX + w + HORIZONTAL_GAP) (rec child (centerX result) st2)
              ltac:(set_solver) H3) as [H4 Hsub4].
  split; [exact H4|]. cbv zeta in Hsub4. set_solver.
Qed.

Lemma positionDescendants_trace n :
  forall parentPerson pcX gen st,
    (Z.to_nat (MAX_LAYERS_DOWN - gen) <= n)%nat ->
    0 <= gen -> lo <= gen + 1 -> MAX_LAYERS_DOWN <= hi ->
    id parentPerson ∈ positioned st ->
    Inv st ->
    let st' := positionDescendants fid people parentPerson pcX (row_y gen) gen gen st in
    Inv st' ∧ positioned st ⊆ positioned st'.
Proof.
  induction n as [|n IH]; intros parentPerson pcX gen st Hn Hgen Hlo Hhi Hpar Hst;
    cbv zeta; rewrite positionDescendants_eq;
    destruct (decide (gen >= MAX_LAYERS_DOWN)) as [Hd|Hd]; try done;
    [config; lia|].
  destruct (unpositioned_children people parentPerson st) as [|c cs] eqn:Hcs;
    [done|].
  cbv zeta. rewrite row_y_next.
  apply children_loop_trace; [lia|config; lia| | |done|done].
  - intros c' cX s Hc' Hin Hs. apply IH; [config; lia|lia|lia|done|done|done].
  - apply Forall_forall. intros [c' w] Hin.
    apply elem_of_zip_l in Hin. rewrite <- Hcs in Hin.
    by apply unpositioned_children_elem in Hin as [? _].
Qed.

Lemma ancestor_step_trace personId gen parent st :
  parent ∈ people_values people ->
  lo < gen <= 0 -> 0 <= hi ->
  Inv st ->
  let r := ancestor_step fid people personId 0 (row_y gen) gen parent st in
  Inv r.2 ∧ centerX r.1 = 0.
Proof.
  intros Hp Hgen Hhi Hst. cbv zeta. unfold ancestor_step. rewrite row_y_prev.
  pose proof (Tr_couple parent 0 (gen - 1) st Hp ltac:(lia)
                ltac:(done) Hst) as H1.
  rewrite (bool_decide_eq_false_2 (0 < gen - 1)) in H1 by lia.
  rewrite (bool_decide_eq_true_2 (gen - 1 < 0)) in H1 by lia.
  pose proof (positionCouple_centerX fid people parent 0 (row_y (gen - 1))
                (gen - 1) false true st) as Hc.
  destruct (positionCouple_positions fid people parent 0 (row_y (gen - 1))
              (gen - 1) false true st) as (_ & Hin1 & _).
  destruct (positionCouple fid people parent 0 (row_y (gen - 1)) (gen - 1)
              false true st) as [result st1]; simpl in *.
  split; [|done].
  destruct (find_node personId (nodes st1)) as [cn|] eqn:Hf; [|done].
  pose proof (Tr_parent_link parent personId (centerX result) (row_y gen) cn st1
                Hin1 Hf H1) as H.
  unfold parent_link in H. by rewrite row_y_prev in H.
Qed.

Lemma positionAncestors_trace n :
  forall personId gen st,
    (Z.to_nat (MAX_LAYERS_UP + gen) <= n)%nat ->
    gen <= 0 -> lo <= - MAX_LAYERS_UP -> 0 <= hi ->
    Inv st ->
    Inv (positionAncestors fid people personId 0 (row_y gen) gen (- gen) st).
Proof.
  induction n as [|n IH]; intros personId gen st Hn Hgen Hlo Hhi Hst;
    rewrite positionAncestors_eq;
    destruct (decide (- gen >= MAX_LAYERS_UP)) as [Hd|Hd]; try done;
    [config; lia|].
  destruct (filter _ (findParents personId people)) as [|parent rest] eqn:Hps;
    [done|].
  assert (parent ∈ people_values people) as Hp.
  { assert (parent ∈ parent :: rest) as Hin by left.
    rewrite <- Hps in Hin. apply list_elem_of_filter in Hin as [_ Hin].
    by apply findParents_elem in Hin as [? _]. }
  destruct (ancestor_step_trace personId gen parent st Hp ltac:(config; lia)
              Hhi Hst) as [H1 Hc].
  destruct (ancestor_step fid people personId 0 (row_y gen) gen parent st)
    as [result st2]; simpl in H1, Hc.
  rewrite Hc, row_y_prev.
  replace (- gen + 1) with (- (gen - 1)) by lia.
  apply IH; [config; lia|lia|done|done|done].
Qed.

Lemma layout_state_trace focusedPerson :
  lo <= - MAX_LAYERS_UP -> MAX_LAYERS_DOWN <= hi ->
  focusedPerson ∈ people_values people ->
  Inv empty_state ->
  Inv (layout_state fid people focusedPerson).
Proof.
  intros Hlo Hhi Hp H0. unfold layout_state.
  pose proof (Tr_couple focusedPerson 0 0 empty_state Hp ltac:(config; lia)
                ltac:(done) H0) as H1.
  pose proof (positionCouple_centerX fid people focusedPerson 0 0 0 false false
                empty_state) as Hc.
  destruct (positionCouple_positions fid people focusedPerson 0 0 0 false false
              empty_state) as (_ & Hin1 & _).
  change (row_y 0) with 0 in H1.
  change (bool_decide (0 < 0)) with false in H1.
  destruct (positionCouple fid people focusedPerson 0 0 0 false false empty_state)
    as [result st1]; simpl in H1, Hc, Hin1.
  rewrite Hc.
  change (Inv (positionAncestors fid people fid 0 (row_y 0) 0 (- 0)
                 (positionDescendants fid people focusedPerson 0 (row_y 0) 0 0 st1))).
  apply (positionAncestors_trace (Z.to_nat MAX_LAYERS_UP));
    [done|done|done|config; lia|].
  apply (positionDescendants_trace (Z.to_nat MAX_LAYERS_DOWN));
    [done|done|config; lia|done|done|done].
Qed.

End Trace.

(** ** Rows, roles and provenance of the nodes *)

Lemma couple_new_flags fid people p cX cY gen c pr st :
  Forall (fun n => y n = cY ∧ generation n = gen
                   ∧ isChild n = c ∧ isParent n = pr)
         (couple_new fid people p cX cY gen c pr st).
Proof.
  unfold couple_new, place_new.
  destruct (unplaced_spouse people p st) as [sp|]; cbv zeta;
    repeat case_decide; simpl;
    repeat first [apply Forall_cons_2 | apply Forall_nil_2 | split]; done.
Qed.

Lemma couple_new_persons fid people p cX cY gen c pr st :
  p ∈ people_values people ->
  Forall (fun n => person n ∈ people_values people)
         (couple_new fid people p cX cY gen c pr st).
Proof.
  intros Hp. unfold couple_new, place_new.
  destruct (unplaced_spouse people p st) as [sp|] eqn:Hsp; cbv zeta.
  - apply unplaced_spouse_Some in Hsp as [Hsp _].
    apply getSpouse_in_values in Hsp.
    destruct (bool_decide (gender p = male)); repeat case_decide; simpl;
      repeat first [apply Forall_cons_2 | apply Forall_nil_2]; done.
  - case_decide; simpl;
      repeat first [apply Forall_cons_2 | apply Forall_nil_2]; done.
Qed.

Lemma on_its_row_layout fid people focusedPerson :
  focusedPerson ∈ people_values people ->
  Forall on_its_row (nodes (layout_state fid people focusedPerson)).
Proof.
  intros Hp.
  apply (layout_state_trace fid people (- MAX_LAYERS_UP) MAX_LAYERS_DOWN
           (fun st => Forall on_its_row (nodes st)));
    [| | |done|done|done|apply Forall_nil_2].
  - intros p cX gen st _ _ _ Hst. rewrite positionCouple_nodes.
    apply Forall_app. split; [done|].
    eapply Forall_impl; [apply couple_new_flags|].
    intros n (Hy & Hg & Hc & Hpr). unfold on_its_row. by rewrite Hg.
  - intros. done.
  - intros. done.
Qed.

(** X1.  Every node of the result lies on the row of its generation:
    [y = generation * (VERTICAL_GAP + NODE_HEIGHT)]. *)
Theorem node_row_of_generation fid people n :
  n ∈ res_nodes (computeLayout fid people) ->
  y n = generation n * (VERTICAL_GAP + NODE_HEIGHT).
Proof.
  unfold computeLayout.
  destruct (people_get people fid) as [fp|] eqn:Hfp; simpl.
  - apply people_get_in_values in Hfp.
    pose proof (on_its_row_layout fid people fp Hfp) as H.
    rewrite Forall_forall in H. intros Hn. by destruct (H n Hn) as [? _].
  - intros H. by apply elem_of_nil in H.
Qed.

(** X2.  The role flags follow the generation: [isChild] is set exactly
    on the nodes below the focus row and [isParent] exactly on the nodes
    above it; the nodes of the focus row carry neither. *)
Theorem node_roles_of_generation fid people n :
  n ∈ res_nodes (computeLayout fid people) ->
  (isChild n = true <-> 0 < generation n)
  /\ (isParent n = true <-> generation n < 0).
Proof.
  unfold computeLayout.
  destruct (people_get people fid) as [fp|] eqn:Hfp; simpl.
  - apply people_get_in_values in Hfp.
    pose proof (on_its_row_layout fid people fp Hfp) as H.
    rewrite Forall_forall in H. intros Hn. destruct (H n Hn) as (_ & -> & ->).
    split; apply bool_decide_eq_true.
  - intros H. by apply elem_of_nil in H.
Qed.

Lemma persons_in_graph_layout fid people focusedPerson :
  focusedPerson ∈ people_values people ->
  Forall (fun n => person n ∈ people_values people)
         (nodes (layout_state fid people focusedPerson)).
Proof.
  intros Hfp.
  apply (layout_state_inv fid people
           (fun st => Forall (fun n => person n ∈ people_values people)
                        (nodes st))); [| |done|apply Forall_nil_2].
  - intros p cX cY gen c pr st Hp _ Hst. rewrite positionCouple_nodes.
    apply Forall_app. split; [done|]. by apply couple_new_persons.
  - intros c st _ Hst. exact Hst.
Qed.

(** X3.  The engine never invents a person: the person of every node is
    one of the graph's values. *)
Theorem node_person_in_graph fid people n :
  n ∈ res_nodes (computeLayout fid people) ->
  person n ∈ people_values people.
Proof.
  unfold computeLayout.
  destruct (people_get people fid) as [fp|] eqn:Hfp; simpl.
  - apply people_get_in_values in Hfp.
    pose proof (persons_in_graph_layout fid people fp Hfp) as H.
    rewrite Forall_forall in H. apply H.
  - intros H. by apply elem_of_nil in H.
Qed.

(** ** Connections *)

Lemma find_node_Some pid ns n :
  find_node pid ns = Some n -> n ∈ ns ∧ node_id n = pid.
Proof.
  unfold find_node. intros H. apply find_some in H as [Hin Hid].
  split; [by apply list_elem_of_In|]. by apply bool_decide_eq_true_1 in Hid.
Qed.

Lemma couple_new_spouse fid people p sp cX cY gen c pr st :
  unplaced_spouse people p st = Some sp ->
  exists n, n ∈ couple_new fid people p cX cY gen c pr st ∧ node_id n = id sp.
Proof.
  intros Hsp. unfold couple_new, place_new. rewrite Hsp. cbv zeta.
  apply unplaced_spouse_Some in Hsp as [_ Hsp].
  rewrite place_positioned.
  destruct (bool_decide (gender p = male)).
  - destruct (decide (id p ∈ positioned st)) as [Hp|Hp].
    + destruct (decide (id sp ∈ {[ id p ]} ∪ positioned st)) as [Hin|Hin].
      * exfalso. apply elem_of_union in Hin as [Hin|Hin]; [|done].
        apply elem_of_singleton in Hin. rewrite Hin in Hsp. done.
      * eexists. split; [apply elem_of_app; right; left|done].
    + destruct (decide (id sp ∈ {[ id p ]} ∪ positioned st)) as [Hin|Hin].
      * assert (id sp = id p) as Heq by set_solver.
        eexists. split; [apply elem_of_app; left; left|]. by rewrite Heq.
      * eexists. split; [apply elem_of_app; right; left|done].
  - rewrite (decide_False (P := id sp ∈ positioned st)) by done.
    eexists. split; [apply elem_of_app; left; left|done].
Qed.

Lemma couple_new_covers fid people p cX cY gen c pr st i :
  i ∈ positioned (positionCouple fid people p cX cY gen c pr st).2 ->
  i ∈ positioned st
  ∨ (exists n, n ∈ couple_new fid people p cX cY gen c pr st ∧ node_id n = i).
Proof.
  rewrite positionCouple_positioned. intros Hi.
  destruct (decide (i ∈ positioned st)) as [|Hout]; [by left|]. right.
  assert (i = id p ∨ (exists sp, unplaced_spouse people p st = Some sp ∧ i = id sp))
    as [->|(sp & Hsp & ->)].
  { destruct (unplaced_spouse people p st) as [sp|]; [|set_solver].
    apply elem_of_union in Hi as [Hi|Hi]; [set_solver|].
    apply elem_of_union in Hi as [Hi|Hi]; [|done].
    right. exists sp. split; [done|set_solver]. }
  - by apply couple_new_person.
  - by apply couple_new_spouse.
Qed.

Lemma anchored_layout fid people focusedPerson :
  focusedPerson ∈ people_values people ->
  anchored (layout_state fid people focusedPerson).
Proof.
  intros Hp.
  apply (layout_state_trace fid people (- MAX_LAYERS_UP) MAX_LAYERS_DOWN anchored);
    [| | |done|done|done|].
  - intros p cX gen st _ _ _ (Htr & Hcov & Hconn).
    split; [by apply ids_tracked_couple|]. split.
    + intros i Hi. rewrite positionCouple_nodes.
      apply couple_new_covers in Hi as [Hi|(n & Hn & Hid)].
      * destruct (Hcov i Hi) as (n & Hn & Hid). exists n.
        split; [apply elem_of_app; by left|done].
      * exists n. split; [apply elem_of_app; by right|done].
    + destruct (positionCouple_positions fid people p cX (row_y gen) gen
                  (bool_decide (0 < gen)) (bool_decide (gen < 0)) st)
        as (Hsub & Hin & Hsp).
      destruct (positionCouple_connections fid people p cX (row_y gen) gen
                  (bool_decide (0 < gen)) (bool_decide (gen < 0)) st)
        as (cs & -> & Hcs).
      apply Forall_app. split.
      * eapply Forall_impl; [exact Hconn|]. intros c0 [? ?]. set_solver.
      * destruct (unplaced_spouse people p st) as [sp|] eqn:Hus;
          [|subst cs; apply Forall_nil_2].
        apply unplaced_spouse_Some in Hus as [Hus _]. specialize (Hsp sp Hus).
        destruct Hcs as (l & -> & _ & Hends). apply Forall_singleton.
        destruct Hends as [[-> ->]|[-> ->]]; done.
  - intros parentPerson child pcX py cn st Hpar Hf (Htr & Hcov & Hconn).
    split; [done|]. split; [done|]. simpl. apply Forall_app. split; [done|].
    apply Forall_singleton. simpl. split; [done|].
    apply find_node_Some in Hf as [Hin <-]. by apply Htr.
  - intros parent personId cX py cn st Hpar Hf (Htr & Hcov & Hconn).
    split; [done|]. split; [done|]. simpl. apply Forall_app. split; [done|].
    apply Forall_singleton. simpl. split; [done|].
    apply find_node_Some in Hf as [Hin <-]. by apply Htr.
  - split; [split; [apply NoDup_nil_2|intros n Hn; by apply elem_of_nil in Hn]|].
    split; [intros i Hi; by apply elem_of_empty in Hi|apply Forall_nil_2].
Qed.

(** X4.  No connection dangles: both ids a connection of the result
    joins are carried by nodes of the result. *)
Theorem connection_ends_have_nodes fid people c :
  c ∈ res_connections (computeLayout fid people) ->
  (exists n, n ∈ res_nodes (computeLayout fid people)
             /\ id (person n) = fromId c)
  /\ (exists n, n ∈ res_nodes (computeLayout fid people)
                /\ id (person n) = toId c).
Proof.
  unfold computeLayout.
  destruct (people_get people fid) as [fp|] eqn:Hfp; simpl.
  - apply people_get_in_values in Hfp.
    destruct (anchored_layout fid people fp Hfp) as (_ & Hcov & Hconn).
    rewrite Forall_forall in Hconn. intros Hc.
    destruct (Hconn c Hc) as [Hf Ht]. split; by apply Hcov.
  - intros H. by apply elem_of_nil in H.
Qed.

Lemma positionCouple_connections_shaped fid people p cX cY gen c pr st :
  exists cs,
    connections (positionCouple fid people p cX cY gen c pr st).2
    = connections st ++ cs
    ∧ Forall connection_shaped cs.
Proof.
  unfold positionCouple.
  destruct (unplaced_spouse people p st) as [sp|]; simpl.
  - eexists. rewrite !place_connections. split; [done|].
    apply Forall_singleton. unfold connection_shaped. simpl. split; [done|].
    pose proof (calculateNodeWidth_half (name p)).
    pose proof (calculateNodeWidth_half (name sp)).
    destruct (bool_decide (gender p = male)); lia_half.
  - exists []. rewrite place_connections, app_nil_r. split; [done|apply Forall_nil_2].
Qed.

Lemma connections_shaped_layout fid people focusedPerson :
  focusedPerson ∈ people_values people ->
  Forall connection_shaped (connections (layout_state fid people focusedPerson)).
Proof.
  intros Hp.
  apply (layout_state_trace fid people (- MAX_LAYERS_UP) MAX_LAYERS_DOWN
           (fun st => Forall connection_shaped (connections st)));
    [| | |done|done|done|apply Forall_nil_2].
  - intros p cX gen st _ _ _ Hst.
    destruct (positionCouple_connections_shaped fid people p cX (row_y gen) gen
                (bool_decide (0 < gen)) (bool_decide (gen < 0)) st)
      as (cs & -> & Hcs).
    apply Forall_app. done.
  - intros parentPerson child pcX py cn st _ _ Hst. simpl.
    apply Forall_app. split; [done|]. apply Forall_singleton.
    unfold connection_shaped. simpl. lia_half.
  - intros parent personId cX py cn st _ _ Hst. simpl.
    apply Forall_app. split; [done|]. apply Forall_singleton.
    unfold connection_shaped. simpl. lia_half.
Qed.

Lemma computeLayout_connections_shaped fid people :
  Forall connection_shaped (res_connections (computeLayout fid people)).
Proof.
  unfold computeLayout.
  destruct (people_get people fid) as [fp|] eqn:Hfp; simpl; [|apply Forall_nil_2].
  apply people_get_in_values in Hfp. by apply connections_shaped_layout.
Qed.

(** X5.  Every spouse connection of the result is horizontal and exactly
    [SPOUSE_GAP] long, from left to right; every parent-child connection
    ends exactly [VERTICAL_GAP] below where it starts. *)
Theorem connection_geometry fid people c :
  c ∈ res_connections (computeLayout fid people) ->
  match conn_type c with
  | spouse_conn =>
      py (conn_from c) = py (conn_to c)
      /\ px (conn_to c) - px (conn_from c) = SPOUSE_GAP
  | parent_child => py (conn_to c) - py (conn_from c) = VERTICAL_GAP
  end.
Proof.
  intros Hc. pose proof (computeLayout_connections_shaped fid people) as H.
  rewrite Forall_forall in H. exact (H c Hc).
Qed.

(** X6.  What the connectors draw for a connection of the result: the
    heart of a spouse connector sits exactly midway between its two ends,
    on their common height; the horizontal segment of a parent-child elbow
    runs exactly halfway between the two ends. *)
Theorem connector_midpoints fid people c :
  c ∈ res_connections (computeLayout fid people) ->
  match conn_type c with
  | spouse_conn =>
      spouse_midX c - px (conn_from c) = px (conn_to c) - spouse_midX c
      /\ 0 < spouse_midX c - px (conn_from c)
      /\ spouse_midY c = py (conn_to c)
  | parent_child =>
      elbow_midY c - py (conn_from c) = py (conn_to c) - elbow_midY c
      /\ 0 < elbow_midY c - py (conn_from c)
  end.
Proof.
  intros Hc. pose proof (computeLayout_connections_shaped fid people) as H.
  rewrite Forall_forall in H. specialize (H c Hc).
  unfold connection_shaped, spouse_midX, spouse_midY, elbow_midY in *.
  destruct (conn_type c).
  - destruct H as [Hy Hx]. lia_half.
  - lia_half.
Qed.

(** ** The focused node *)

Lemma node_ids_inj ns n m :
  NoDup (node_ids ns) -> n ∈ ns -> m ∈ ns -> node_id n = node_id m -> n = m.
Proof.
  unfold node_ids. induction ns as [|a ns IH]; intros Hnd Hn Hm Hid.
  - by apply elem_of_nil in Hn.
  - simpl in Hnd. apply NoDup_cons in Hnd as [Ha Hnd].
    apply elem_of_cons in Hn as [->|Hn]; apply elem_of_cons in Hm as [->|Hm].
    + done.
    + exfalso. apply Ha. rewrite Hid. apply list_elem_of_fmap. by exists m.
    + exfalso. apply Ha. rewrite <- Hid. apply list_elem_of_fmap. by exists n.
    + by apply IH.
Qed.

Lemma isFocused_layout fid people focusedPerson :
  focusedPerson ∈ people_values people ->
  Forall (fun n => isFocused n = bool_decide (node_id n = fid))
         (nodes (layout_state fid people focusedPerson)).
Proof.
  intros Hp.
  apply (layout_state_inv fid people
           (fun st => Forall (fun n => isFocused n = bool_decide (node_id n = fid))
                        (nodes st))); [| |done|apply Forall_nil_2].
  - intros p cX cY gen c pr st _ _ Hst. rewrite positionCouple_nodes.
    apply Forall_app. split; [done|].
    destruct (couple_new_fresh fid people p cX cY gen c pr st) as (_ & _ & H).
    eapply Forall_impl; [exact H|]. simpl. by intros m (_ & _ & _ & ?).
  - intros c st _ H. exact H.
Qed.

(** The x coordinate the focus couple gives the focused person. *)
Lemma focus_couple_x fid people p n :
  n ∈ couple_new fid people p 0 0 0 false false empty_state ->
  node_id n = id p ->
  match getSpouse p people with
  | None => x n = 0
  | Some sp =>
      id sp ≠ id p ->
      x n = if bool_decide (gender p = male)
            then - (calculateNodeWidth (name sp) / 2 + SPOUSE_GAP / 2)
            else calculateNodeWidth (name sp) / 2 + SPOUSE_GAP / 2
  end.
Proof.
  unfold couple_new, place_new, unplaced_spouse, node_id.
  pose proof (calculateNodeWidth_half (name p)) as Hp.
  destruct (getSpouse p people) as [sp|]; cbv zeta.
  - pose proof (calculateNodeWidth_half (name sp)) as Hs.
    rewrite decide_False by set_solver. rewrite place_positioned.
    destruct (bool_decide (gender p = male)) eqn:Hg.
    + rewrite (decide_False (P := id p ∈ positioned empty_state)) by set_solver.
      intros Hn Hid Hne. apply elem_of_app in Hn as [Hn|Hn].
      * apply list_elem_of_singleton in Hn as ->. simpl. lia_half.
      * destruct (decide (id sp ∈ {[ id p ]} ∪ positioned empty_state));
          [by apply elem_of_nil in Hn|].
        by apply list_elem_of_singleton in Hn as ->.
    + rewrite (decide_False (P := id sp ∈ positioned empty_state)) by set_solver.
      intros Hn Hid Hne. apply elem_of_app in Hn as [Hn|Hn].
      * by apply list_elem_of_singleton in Hn as ->.
      * destruct (decide (id p ∈ {[ id sp ]} ∪ positioned empty_state));
          [by apply elem_of_nil in Hn|].
        apply list_elem_of_singleton in Hn as ->. simpl. lia_half.
  - rewrite decide_False by set_solver.
    intros Hn _. by apply list_elem_of_singleton in Hn as ->.
Qed.

(** X7.  When the focused person is stored under its id, the focused node
    is on the focus row: generation 0, y = 0, no child, parent or spouse
    flag.  Without a resolvable spouse it is centred at x = 0; next to a
    spouse (another person) it is moved by half the spouse's width plus
    half the spouse gap, to the left when the focused person is male and
    to the right otherwise. *)
Theorem focused_node_placement fid people fp n :
  people_get people fid = Some fp ->
  id fp = fid ->
  focusedNode (computeLayout fid people) = Some n ->
  generation n = 0 /\ y n = 0
  /\ isChild n = false /\ isParent n = false /\ isSpouse n = false
  /\ match getSpouse fp people with
     | None => x n = 0
     | Some sp =>
         id sp ≠ fid ->
         x n = if bool_decide (gender fp = male)
               then - (calculateNodeWidth (name sp) / 2 + SPOUSE_GAP / 2)
               else calculateNodeWidth (name sp) / 2 + SPOUSE_GAP / 2
     end.
Proof.
  intros Hfp Hid. unfold computeLayout. rewrite Hfp. simpl. intros Hfind.
  pose proof (people_get_in_values _ _ _ Hfp) as Hval.
  apply find_some in Hfind as [Hn Hf]. apply list_elem_of_In in Hn.
  pose proof (isFocused_layout fid people fp Hval) as Hall.
  rewrite Forall_forall in Hall. specialize (Hall n Hn).
  rewrite Hf in Hall. symmetry in Hall. apply bool_decide_eq_true_1 in Hall.
  destruct (couple_new_person fid people fp 0 0 0 false false empty_state)
    as (n0 & Hn0 & Hid0); [set_solver|].
  assert (n0 ∈ nodes (layout_state fid people fp)) as Hin0.
  { eapply elem_of_prefix; [|apply nodes_prefix_layout].
    rewrite positionCouple_nodes. simpl. exact Hn0. }
  destruct (ids_tracked_layout fid people fp Hval) as [Hnd _].
  assert (n = n0) as -> by (apply (node_ids_inj _ _ _ Hnd Hn Hin0); congruence).
  pose proof (couple_new_flags fid people fp 0 0 0 false false empty_state) as Hfl.
  rewrite Forall_forall in Hfl. destruct (Hfl n0 Hn0) as (Hy & Hg & Hc & Hp).
  pose proof (couple_new_isSpouse fid people fp 0 0 0 false false empty_state n0 Hn0)
    as Hsp.
  pose proof (focus_couple_x fid people fp n0 Hn0 Hid0) as Hx.
  repeat split; try done.
  - rewrite Hsp. destruct (unplaced_spouse people fp empty_state); [|done].
    unfold node_id in Hall. by rewrite Hall, bool_decide_eq_true_2.
  - destruct (getSpouse fp people) as [sp|]; [|done].
    intros Hne. apply Hx. congruence.
Qed.

(** ** The lineage above the focus *)

Lemma couple_new_length fid people p cX cY gen c pr st :
  (length (couple_new fid people p cX cY gen c pr st) <= 2)%nat.
Proof.
  unfold couple_new, place_new.
  destruct (unplaced_spouse people p st); cbv zeta;
    repeat case_decide; simpl; lia.
Qed.

Lemma filter_none {A} (P : A -> Prop) `{forall a, Decision (P a)} (l : list A) :
  Forall (fun a => ¬ P a) l -> filter P l = [].
Proof.
  induction 1 as [|a l Ha _ IH]; [done|]. by rewrite filter_cons_False.
Qed.

(** The nodes [positionAncestors] adds lie above the generation it starts
    from, at most two per generation. *)
Lemma positionAncestors_lineage fid people n :
  forall personId cX pY gen depth st,
    (Z.to_nat (MAX_LAYERS_UP - depth) <= n)%nat ->
    exists new,
      nodes (positionAncestors fid people personId cX pY gen depth st)
      = nodes st ++ new
      ∧ Forall (fun m => generation m < gen) new
      ∧ (forall g, (length (filter (fun m => generation m = g) new) <= 2)%nat).
Proof.
  induction n as [|n IH]; intros personId cX pY gen depth st Hn;
    rewrite positionAncestors_eq;
    destruct (decide (depth >= MAX_LAYERS_UP)) as [Hd|Hd];
    try (exists []; rewrite app_nil_r; split; [done|];
         split; [apply Forall_nil_2|intros g; simpl; lia]);
    [config; lia|].
  destruct (filter _ (findParents personId people)) as [|parent rest].
  { exists []. rewrite app_nil_r. split; [done|].
    split; [apply Forall_nil_2|intros g; simpl; lia]. }
  pose proof (ancestor_step_nodes fid people personId cX pY gen parent st) as Hn1.
  pose proof (couple_new_flags fid people parent cX
                (pY - VERTICAL_GAP - NODE_HEIGHT) (gen - 1) false true st) as Hfl.
  pose proof (couple_new_length fid people parent cX
                (pY - VERTICAL_GAP - NODE_HEIGHT) (gen - 1) false true st) as Hlen.
  set (new1 := couple_new fid people parent cX (pY - VERTICAL_GAP - NODE_HEIGHT)
                 (gen - 1) false true st) in *.
  destruct (ancestor_step fid people personId cX pY gen parent st)
    as [result st2]; simpl in Hn1.
  destruct (IH (id parent) (centerX result) (pY - VERTICAL_GAP - NODE_HEIGHT)
              (gen - 1) (depth + 1) st2) as (new2 & Hn2 & Hg2 & Hc2);
    [config; lia|].
  exists (new1 ++ new2). split; [rewrite Hn2, Hn1, <- app_assoc; done|]. split.
  - apply Forall_app. split.
    + eapply Forall_impl; [exact Hfl|]. intros m (_ & -> & _). lia.
    + eapply Forall_impl; [exact Hg2|]. intros m Hm. simpl in Hm. lia.
  - intros g. rewrite filter_app, length_app.
    destruct (decide (g = gen - 1)) as [->|Hg].
    + rewrite (filter_none _ new2); cycle 1.
      { eapply Forall_impl; [exact Hg2|]. intros m Hm. simpl in Hm. lia. }
      pose proof (length_filter (fun m => generation m = gen - 1) new1).
      simpl. lia.
    + rewrite (filter_none _ new1); cycle 1.
      { eapply Forall_impl; [exact Hfl|]. intros m (_ & -> & _). congruence. }
      simpl. apply Hc2.
Qed.

(** The nodes [positionDescendants] adds from the focus row lie below it. *)
Lemma positionDescendants_below fid people focusedPerson st1 :
  id focusedPerson ∈ positioned st1 ->
  exists new,
    nodes (positionDescendants fid people focusedPerson 0 0 0 0 st1)
    = nodes st1 ++ new
    ∧ Forall (fun m => 0 < generation m) new.
Proof.
  intros Hin.
  set (Inv := fun st : LayoutState =>
                exists new, nodes st = nodes st1 ++ new
                            ∧ Forall (fun m => 0 < generation m) new).
  assert (Inv (positionDescendants fid people focusedPerson 0 (row_y 0) 0 0 st1)
          ∧ positioned st1
            ⊆ positioned (positionDescendants fid people focusedPerson 0 (row_y 0)
                            0 0 st1)) as [H _]; [|exact H].
  apply (positionDescendants_trace fid people 1 MAX_LAYERS_DOWN Inv)
    with (n := Z.to_nat MAX_LAYERS_DOWN); try done.
  - intros p cX gen st _ Hgen _ (new & Hnew & Hpos).
    exists (new ++ couple_new fid people p cX (row_y gen) gen
                     (bool_decide (0 < gen)) (bool_decide (gen < 0)) st).
    rewrite positionCouple_nodes, Hnew, app_assoc. split; [done|].
    apply Forall_app. split; [done|].
    eapply Forall_impl; [apply couple_new_flags|]. intros m (_ & -> & _). lia.
  - exists []. rewrite app_nil_r. split; [done|apply Forall_nil_2].
Qed.

(** The three phases of [computeLayout]: the focus couple on generation 0,
    then nodes below, then the lineage above. *)
Lemma layout_state_phases fid people focusedPerson :
  exists new1 new2 new3,
    nodes (layout_state fid people focusedPerson) = new1 ++ new2 ++ new3
    ∧ new1 = couple_new fid people focusedPerson 0 0 0 false false empty_state
    ∧ Forall (fun m => 0 < generation m) new2
    ∧ Forall (fun m => generation m < 0) new3
    ∧ (forall g, (length (filter (fun m => generation m = g) new3) <= 2)%nat)
    ∧ (findParents fid people = [] -> new3 = []).
Proof.
  unfold layout_state.
  pose proof (positionCouple_nodes fid people focusedPerson 0 0 0 false false
                empty_state) as Hn1.
  pose proof (positionCouple_centerX fid people focusedPerson 0 0 0 false false
                empty_state) as Hc.
  destruct (positionCouple_positions fid people focusedPerson 0 0 0 false false
              empty_state) as (_ & Hin1 & _).
  destruct (positionCouple fid people focusedPerson 0 0 0 false false empty_state)
    as [result st1]; simpl in Hn1, Hc, Hin1. rewrite Hc.
  destruct (positionDescendants_below fid people focusedPerson st1 Hin1)
    as (new2 & Hn2 & Hg2).
  set (st2 := positionDescendants fid people focusedPerson 0 0 0 0 st1) in *.
  destruct (positionAncestors_lineage fid people _ fid 0 0 0 0 st2 (le_n _))
    as (new3 & Hn3 & Hg3 & Hc3).
  exists (couple_new fid people focusedPerson 0 0 0 false false empty_state),
    new2, new3.
  split; [rewrite Hn3, Hn2, Hn1, <- app_assoc; done|].
  split; [done|]. split; [done|]. split; [done|]. split; [done|].
  intros Hnone. rewrite positionAncestors_eq in Hn3.
  rewrite decide_False in Hn3 by (config; lia). rewrite Hnone in Hn3.
  simpl in Hn3. rewrite <- (app_nil_r (nodes st2)) in Hn3 at 1.
  by apply app_inv_head in Hn3.
Qed.

(** X8.  Direct lineage only: each generation from the focus row upwards
    holds at most two nodes, one couple. *)
Theorem lineage_rows_hold_one_couple fid people g :
  g <= 0 ->
  (length (filter (fun n => generation n = g)
             (res_nodes (computeLayout fid people))) <= 2)%nat.
Proof.
  intros Hg. unfold computeLayout.
  destruct (people_get people fid) as [fp|]; simpl; [|lia].
  destruct (layout_state_phases fid people fp)
    as (new1 & new2 & new3 & -> & -> & H2 & H3 & Hc3 & _).
  rewrite !filter_app, !length_app.
  rewrite (filter_none _ new2); cycle 1.
  { eapply Forall_impl; [exact H2|]. intros m Hm. simpl in Hm. lia. }
  pose proof (couple_new_flags fid people fp 0 0 0 false false empty_state) as Hfl.
  pose proof (couple_new_length fid people fp 0 0 0 false false empty_state) as Hlen.
  destruct (decide (g = 0)) as [->|Hg0].
  - rewrite (filter_none _ new3); cycle 1.
    { eapply Forall_impl; [exact H3|]. intros m Hm. simpl in Hm. lia. }
    pose proof (length_filter (fun m => generation m = 0)
                  (couple_new fid people fp 0 0 0 false false empty_state)).
    simpl. lia.
  - rewrite (filter_none _ (couple_new _ _ _ _ _ _ _ _ _)); cycle 1.
    { eapply Forall_impl; [exact Hfl|]. intros m (_ & -> & _). congruence. }
    simpl. apply Hc3.
Qed.

(** ** The parents of a person *)

Lemma some_spouse_is_false parents pid :
  some_spouse_is parents pid = false <->
  forall r, r ∈ parents -> spouseId r ≠ Some pid.
Proof.
  unfold some_spouse_is. induction parents as [|a parents IH]; simpl.
  - split; [|done]. intros _ r Hr. by apply elem_of_nil in Hr.
  - rewrite orb_false_iff, IH. split.
    + intros [Ha Hrest] r Hr. apply elem_of_cons in Hr as [->|Hr]; [|by apply Hrest].
      by apply bool_decide_eq_false_1 in Ha.
    + intros H. split.
      * apply bool_decide_eq_false_2. apply H. left.
      * intros r Hr. apply H. by right.
Qed.

Lemma findParents_acc_spec personId (vals : list Person) : forall acc,
  spouse_free acc ->
  let r := fold_left
             (fun parents p =>
                if bool_decide (personId ∈ childrenIds p) then
                  if negb (some_spouse_is parents (id p)) then parents ++ [p]
                  else parents
                else parents) vals acc in
  acc `prefix_of` r
  ∧ spouse_free r
  ∧ (forall q, q ∈ vals -> personId ∈ childrenIds q ->
       q ∈ r ∨ (exists r0, r0 ∈ r ∧ spouseId r0 = Some (id q))).
Proof.
  induction vals as [|v vals IH]; intros acc Hacc; cbv zeta; simpl.
  - split; [done|]. split; [done|]. intros q Hq. by apply elem_of_nil in Hq.
  - set (acc' := if bool_decide (personId ∈ childrenIds v) then
                   if negb (some_spouse_is acc (id v)) then acc ++ [v] else acc
                 else acc).
    assert (acc `prefix_of` acc') as Hpre.
    { unfold acc'. case_bool_decide; [|done].
      destruct (negb _); [by apply prefix_app_r|done]. }
    assert (spouse_free acc') as Hfree.
    { unfold acc'. case_bool_decide; [|done].
      destruct (some_spouse_is acc (id v)) eqn:Hs; simpl; [done|].
      rewrite some_spouse_is_false in Hs.
      intros i j r1 r2 Hij Hi Hj.
      destruct (decide (j < length acc)%nat) as [Hlt|Hge].
      - rewrite lookup_app_l in Hi by lia. rewrite lookup_app_l in Hj by lia.
        exact (Hacc i j r1 r2 Hij Hi Hj).
      - rewrite lookup_app_r in Hj by lia.
        destruct (j - length acc)%nat eqn:Hj0; simpl in Hj; [|done].
        injection Hj as <-. rewrite lookup_app_l in Hi by lia.
        apply Hs. by eapply list_elem_of_lookup_2. }
    destruct (IH acc' Hfree) as (Hp & Hf & Hc). cbv zeta in Hp, Hf, Hc.
    split; [by etransitivity|]. split; [done|].
    intros q Hq Hlist. apply elem_of_cons in Hq as [->|Hq]; [|by apply Hc].
    assert (v ∈ acc' ∨ (exists r0, r0 ∈ acc' ∧ spouseId r0 = Some (id v)))
      as [Hv|(r0 & Hr0 & Hs0)].
    { unfold acc'. rewrite bool_decide_eq_true_2 by done.
      destruct (some_spouse_is acc (id v)) eqn:Hs; simpl.
      - right. unfold some_spouse_is in Hs. apply existsb_exists in Hs
          as (r0 & Hr0 & Hs0).
        exists r0. split; [by apply list_elem_of_In|].
        by apply bool_decide_eq_true_1 in Hs0.
      - left. apply elem_of_app. right. left. }
    + left. by eapply elem_of_prefix.
    + right. exists r0. split; [by eapply elem_of_prefix|done].
Qed.

(** X9.  [findParents] returns persons of the graph that list the person
    as a child; a person of the graph listing it as a child is returned
    unless a returned person names it as spouse; and no returned person is
    named as spouse by one returned before it. *)
Theorem findParents_sound_complete personId people :
  (forall q, q ∈ findParents personId people ->
             q ∈ people_values people /\ personId ∈ childrenIds q)
  /\ (forall q, q ∈ people_values people -> personId ∈ childrenIds q ->
        q ∈ findParents personId people
        \/ exists r, r ∈ findParents personId people /\ spouseId r = Some (id q))
  /\ (forall i j r1 r2, (i < j)%nat ->
        findParents personId people !! i = Some r1 ->
        findParents personId people !! j = Some r2 ->
        spouseId r1 ≠ Some (id r2)).
Proof.
  destruct (findParents_acc_spec personId (people_values people) [])
    as (_ & Hfree & Hcomplete).
  { intros i j r1 r2 _ Hi. by rewrite lookup_nil in Hi. }
  split; [apply findParents_elem|]. split; [exact Hcomplete|exact Hfree].
Qed.

Lemma has_parents_loop_true personId vals :
  has_parents_loop personId vals = true <->
  exists q, q ∈ vals ∧ personId ∈ childrenIds q.
Proof.
  induction vals as [|v vals IH]; simpl.
  - split; [done|]. intros (q & Hq & _). by apply elem_of_nil in Hq.
  - case_bool_decide as Hv.
    + split; [|done]. intros _. exists v. split; [left|done].
    + rewrite IH. split.
      * intros (q & Hq & Hl). exists q. split; [by right|done].
      * intros (q & Hq & Hl). apply elem_of_cons in Hq as [->|Hq]; [done|].
        by exists q.
Qed.

Lemma findParents_nonempty personId people :
  findParents personId people ≠ [] <->
  exists q, q ∈ people_values people ∧ personId ∈ childrenIds q.
Proof.
  split.
  - intros Hne. destruct (findParents personId people) as [|r rest] eqn:Hr; [done|].
    exists r. apply findParents_elem. rewrite Hr. left.
  - intros (q & Hq & Hl) Hnil.
    destruct (findParents_acc_spec personId (people_values people) [])
      as (_ & _ & Hcomplete).
    { intros i j r1 r2 _ Hi. by rewrite lookup_nil in Hi. }
    cbv zeta in Hcomplete. fold (findParents personId people) in Hcomplete.
    rewrite Hnil in Hcomplete.
    destruct (Hcomplete q Hq Hl) as [H|(r0 & H & _)]; by apply elem_of_nil in H.
Qed.

(** X10.  The renderer's [personHasParents] and the engine's
    [findParents] agree: the first is true exactly when the second finds
    someone. *)
Theorem personHasParents_iff_findParents personId people :
  personHasParents personId people = true <-> findParents personId people ≠ [].
Proof.
  unfold personHasParents. by rewrite has_parents_loop_true, findParents_nonempty.
Qed.

Lemma findParents_head_acc personId (vals : list Person) r rest :
  fold_left
    (fun parents p =>
       if bool_decide (personId ∈ childrenIds p) then
         if negb (some_spouse_is parents (id p)) then parents ++ [p]
         else parents
       else parents) vals [] = r :: rest ->
  exists pre post,
    vals = pre ++ r :: post
    ∧ Forall (fun q => personId ∉ childrenIds q) pre
    ∧ personId ∈ childrenIds r.
Proof.
  induction vals as [|v vals IH]; simpl; [done|].
  case_bool_decide as Hv.
  - simpl. intros Hr.
    destruct (findParents_acc_spec personId vals [v]) as (Hpre & _).
    { intros i j r1 r2 Hij Hi Hj. destruct i, j; simpl in *; try lia; done. }
    cbv zeta in Hpre. rewrite Hr in Hpre. destruct Hpre as [k Hk].
    injection Hk as -> _. exists [], vals. done.
  - intros Hr. destruct (IH Hr) as (pre & post & -> & Hpre & Hl).
    exists (v :: pre), post. split; [done|]. split; [by constructor|done].
Qed.

(** X11.  The parent [positionAncestors] starts from: the first element
    of [findParents] is the first person, in the graph's iteration order,
    that lists the person as a child. *)
Theorem findParents_first_lister personId people r rest :
  findParents personId people = r :: rest ->
  exists pre post,
    people_values people = pre ++ r :: post
    /\ Forall (fun q => personId ∉ childrenIds q) pre
    /\ personId ∈ childrenIds r.
Proof. apply findParents_head_acc. Qed.

(** X12.  When the renderer reports that the focused id has no parents,
    nothing is laid out above the focus row. *)
Theorem no_parents_no_rows_above fid people n :
  personHasParents fid people = false ->
  n ∈ res_nodes (computeLayout fid people) ->
  0 <= generation n.
Proof.
  intros Hno. assert (findParents fid people = []) as Hnil.
  { destruct (findParents fid people) as [|r rest] eqn:Hr; [done|].
    assert (personHasParents fid people = true) as Ht.
    { unfold personHasParents. apply has_parents_loop_true.
      apply findParents_nonempty. by rewrite Hr. }
    by rewrite Ht in Hno. }
  unfold computeLayout.
  destruct (people_get people fid) as [fp|]; simpl;
    [|intros H; by apply elem_of_nil in H].
  destruct (layout_state_phases fid people fp)
    as (new1 & new2 & new3 & -> & -> & H2 & _ & _ & H3).
  rewrite (H3 Hnil), app_nil_r. intros Hn.
  apply elem_of_app in Hn as [Hn|Hn].
  - pose proof (couple_new_flags fid people fp 0 0 0 false false empty_state) as Hfl.
    rewrite Forall_forall in Hfl. destruct (Hfl n Hn) as (_ & -> & _). done.
  - rewrite Forall_forall in H2. specialize (H2 n Hn). simpl in H2. lia.
Qed.

(** ** Where the nodes can be *)

Lemma calculateCoupleWidth_upper p sp :
  calculateCoupleWidth p sp <= 2 * MAX_NODE_WIDTH + SPOUSE_GAP.
Proof.
  unfold calculateCoupleWidth. pose proof (calculateNodeWidth_bounds (name p)).
  destruct sp as [s|]; [pose proof (calculateNodeWidth_bounds (name s))|];
    config; lia.
Qed.

(** X13.  The lineage stays in the focus column: every node on the focus
    row or above it lies within one widest couple centred at x = 0. *)
Theorem lineage_column fid people n :
  n ∈ res_nodes (computeLayout fid people) ->
  generation n <= 0 ->
  - (MAX_NODE_WIDTH + SPOUSE_GAP / 2) <= x n - width n / 2
  /\ x n + width n / 2 <= MAX_NODE_WIDTH + SPOUSE_GAP / 2.
Proof.
  unfold computeLayout.
  destruct (people_get people fid) as [fp|] eqn:Hfp; simpl;
    [|intros H; by apply elem_of_nil in H].
  apply people_get_in_values in Hfp.
  set (P := fun m : LayoutNode =>
              generation m <= 0 ->
              within (- (MAX_NODE_WIDTH + SPOUSE_GAP / 2))
                     (MAX_NODE_WIDTH + SPOUSE_GAP / 2) m).
  assert (Forall P (nodes (layout_state fid people fp))) as H.
  { apply (layout_state_trace fid people (- MAX_LAYERS_UP) MAX_LAYERS_DOWN
             (fun st => Forall P (nodes st)));
      [| | |done|done|done|apply Forall_nil_2]; [|done|done].
    intros p cX gen st _ _ HcX Hst. rewrite positionCouple_nodes.
    apply Forall_app. split; [done|].
    destruct (couple_new_geometry fid people p cX (row_y gen) gen
                (bool_decide (0 < gen)) (bool_decide (gen < 0)) st) as [Hg _].
    pose proof (couple_new_flags fid people p cX (row_y gen) gen
                  (bool_decide (0 < gen)) (bool_decide (gen < 0)) st) as Hfl.
    pose proof (calculateCoupleWidth_upper p (getSpouse p people)) as Hup.
    apply Forall_forall. intros m Hm Hgen.
    rewrite Forall_forall in Hg, Hfl.
    destruct (Hg m Hm) as [[Hl Hr] _]. destruct (Hfl m Hm) as (_ & Hgm & _).
    rewrite Hgm in Hgen. rewrite (HcX Hgen) in Hl, Hr.
    unfold within. lia_half. }
  rewrite Forall_forall in H. intros Hn Hgen. exact (H n Hn Hgen).
Qed.

(** X14.  In a graph keyed by person id, the focus row and everything
    below it fit in the subtree width of the focused person, centred at
    x = 0: the width [calculateSubtreeWidth] computes for the focus over
    [MAX_LAYERS_DOWN] layers is enough for all that is placed there. *)
Theorem descendants_within_subtree_width fid people n :
  keyed_by_id people ->
  n ∈ res_nodes (computeLayout fid people) ->
  0 <= generation n ->
  let W := fst (calculateSubtreeWidth fid people MAX_LAYERS_DOWN 0 ∅) in
  - (W / 2) <= x n - width n / 2 /\ x n + width n / 2 <= W / 2.
Proof.
  intros Hk. unfold computeLayout.
  destruct (people_get people fid) as [fp|] eqn:Hfp; simpl;
    [|intros H; by apply elem_of_nil in H].
  pose proof (keyed_by_id_get _ _ _ Hk Hfp) as Hid.
  fold (subtreeWidth fid people MAX_LAYERS_DOWN 0 ∅).
  pose proof (subtreeWidth_lower fid people MAX_LAYERS_DOWN 0 ∅ fp
                ltac:(config; lia) ltac:(set_solver) Hfp) as Hlow.
  unfold layout_state.
  pose proof (positionCouple_nodes fid people fp 0 0 0 false false empty_state)
    as Hn1.
  destruct (couple_new_geometry fid people fp 0 0 0 false false empty_state)
    as [Hg1 _].
  pose proof (positionCouple_centerX fid people fp 0 0 0 false false empty_state)
    as Hc.
  destruct (positionCouple_positions fid people fp 0 0 0 false false empty_state)
    as (Hsub1 & Hin1 & Hsp1).
  destruct (positionCouple fid people fp 0 0 0 false false empty_state)
    as [result st1]; simpl in Hn1, Hc, Hsub1, Hin1, Hsp1. rewrite Hc.
  destruct (positionDescendants_geometry fid people _ Hk 0 0 0 (le_n _) fp 0 st1)
    as (new2 & Hn2 & _ & Hg2 & _).
  set (st2 := positionDescendants fid people fp 0 0 0 0 st1) in *.
  destruct (positionAncestors_lineage fid people _ fid 0 0 0 0 st2 (le_n _))
    as (new3 & Hn3 & Hg3 & _).
  assert (desc_total people fp 0 st1 <= subtreeWidth fid people MAX_LAYERS_DOWN 0 ∅)
    as HT.
  { pose proof (desc_total_le_adjusted people Hk (-1) empty_state st1 fp
                  ltac:(by rewrite Hid) ltac:(set_solver) Hsub1 Hin1 Hsp1) as H.
    replace (-1 + 1) with 0 in H by lia.
    unfold adjusted_width in H. cbv zeta in H.
    replace (MAX_LAYERS_DOWN - -1 - 1) with MAX_LAYERS_DOWN in H by lia.
    rewrite Hid in H. simpl positioned in H.
    fold (subtreeWidth fid people MAX_LAYERS_DOWN 0 ∅) in H. lia. }
  rewrite Hn3, Hn2, Hn1. simpl. intros Hn Hgen.
  apply elem_of_app in Hn as [Hn|Hn].
  - apply elem_of_app in Hn as [Hn|Hn].
    + rewrite Forall_forall in Hg1. destruct (Hg1 n Hn) as [[Hl Hr] _].
      unfold node_left, node_right in *. lia_half.
    + rewrite Forall_forall in Hg2. destruct (Hg2 n Hn) as [[Hl Hr] _].
      unfold node_left, node_right in *. lia_half.
  - rewrite Forall_forall in Hg3. specialize (Hg3 n Hn). simpl in Hg3. lia.
Qed.

(** ** The bounding box and the view box *)

Lemma attained_min m f seen n :
  attained m f seen -> attained (ext_min m (f n)) f (seen ++ [n]).
Proof.
  unfold attained, ext_min. destruct m as [a|].
  - intros (k & Hk & Hf).
    destruct (Z.min_spec a (f n)) as [[_ ->]|[_ ->]].
    + exists k. split; [apply elem_of_app; by left|done].
    + exists n. split; [apply elem_of_app; right; left|done].
  - intros _. exists n. split; [apply elem_of_app; right; left|done].
Qed.

Lemma attained_max m f seen n :
  attained m f seen -> attained (ext_max m (f n)) f (seen ++ [n]).
Proof.
  unfold attained, ext_max. destruct m as [a|].
  - intros (k & Hk & Hf).
    destruct (Z.max_spec a (f n)) as [[_ ->]|[_ ->]].
    + exists n. split; [apply elem_of_app; right; left|done].
    + exists k. split; [apply elem_of_app; by left|done].
  - intros _. exists n. split; [apply elem_of_app; right; left|done].
Qed.

Lemma bounds_fold_attained ns : forall seen acc,
  attained acc.1.1.1 node_left seen ∧ attained acc.1.1.2 node_right seen
  ∧ attained acc.1.2 node_top seen ∧ attained acc.2 node_bottom seen ->
  let r := fold_left
             (fun '(mnX, mxX, mnY, mxY) n =>
                (ext_min mnX (x n - width n / 2), ext_max mxX (x n + width n / 2),
                 ext_min mnY (y n - height n / 2), ext_max mxY (y n + height n / 2)))
             ns acc in
  attained r.1.1.1 node_left (seen ++ ns) ∧ attained r.1.1.2 node_right (seen ++ ns)
  ∧ attained r.1.2 node_top (seen ++ ns) ∧ attained r.2 node_bottom (seen ++ ns).
Proof.
  induction ns as [|n ns IH]; intros seen acc H; cbv zeta; simpl.
  - by rewrite app_nil_r.
  - destruct acc as [[[a b] c] d]. destruct H as (H1 & H2 & H3 & H4).
    rewrite (cons_middle n seen ns), app_assoc. apply IH. simpl in *.
    split; [by apply (attained_min a node_left)|].
    split; [by apply (attained_max b node_right)|].
    split; [by apply (attained_min c node_top)|].
    by apply (attained_max d node_bottom).
Qed.

Lemma compute_bounds_attained ns :
  ns ≠ [] ->
  let b := compute_bounds ns in
  (exists n, n ∈ ns ∧ node_left n = minX b)
  ∧ (exists n, n ∈ ns ∧ node_right n = maxX b)
  ∧ (exists n, n ∈ ns ∧ node_top n = minY b)
  ∧ (exists n, n ∈ ns ∧ node_bottom n = maxY b).
Proof.
  intros Hne. unfold compute_bounds, bounds_loop.
  pose proof (bounds_fold_attained ns [] (None, None, None, None)) as H.
  cbv zeta in H. simpl in H. specialize (H ltac:(done)).
  destruct (fold_left _ ns (None, None, None, None)) as [[[a b] c] d].
  unfold attained in H. simpl in H.
  destruct a, b, c, d; simpl; tauto.
Qed.

(** X15.  The bounding box is tight: when the result has nodes, each of
    its four sides is the matching edge of one of the nodes. *)
Theorem bounds_are_tight fid people :
  res_nodes (computeLayout fid people) ≠ [] ->
  let r := computeLayout fid people in
  (exists n, n ∈ res_nodes r /\ x n - width n / 2 = minX (bounds r))
  /\ (exists n, n ∈ res_nodes r /\ x n + width n / 2 = maxX (bounds r))
  /\ (exists n, n ∈ res_nodes r /\ y n - height n / 2 = minY (bounds r))
  /\ (exists n, n ∈ res_nodes r /\ y n + height n / 2 = maxY (bounds r)).
Proof.
  unfold computeLayout.
  destruct (people_get people fid) as [fp|]; simpl; [|done].
  apply compute_bounds_attained.
Qed.

(** X16.  The view box the renderer asks for shows every node with at
    least [viewBoxPadding] free on each of the four sides. *)
Theorem viewBox_margin fid people n :
  n ∈ res_nodes (computeLayout fid people) ->
  let v := viewBox (computeLayout fid people) in
  vb_x v + viewBoxPadding <= x n - width n / 2
  /\ x n + width n / 2 + viewBoxPadding <= vb_x v + vb_width v
  /\ vb_y v + viewBoxPadding <= y n - height n / 2
  /\ y n + height n / 2 + viewBoxPadding <= vb_y v + vb_height v.
Proof.
  unfold computeLayout, viewBox.
  destruct (people_get people fid) as [fp|]; simpl;
    [|intros H; by apply elem_of_nil in H].
  intros Hn.
  destruct (compute_bounds_encloses _ _ Hn) as (H1 & H2 & H3 & H4).
  destruct (compute_bounds_size (nodes (layout_state fid people fp))) as [Hw Hh].
  cbv zeta in *. unfold node_left, node_right, node_top, node_bottom in *.
  rewrite Hw, Hh. unfold viewBoxPadding. lia.
Qed.

(** ** More on the subtree width *)

(** X17.  The subtree width is 0 or at least one node wide, it is even
    (so halving it is exact), and for a resolvable, unvisited person
    within the depth limit it is never below the couple's own footprint. *)
Theorem subtree_width_values personId people maxDepth currentDepth visited :
  let w := fst (calculateSubtreeWidth personId people maxDepth currentDepth visited) in
  (w = 0 \/ MIN_NODE_WIDTH <= w)
  /\ (exists k, w = 2 * k)
  /\ (forall p, currentDepth <= maxDepth -> personId ∉ visited ->
                people_get people personId = Some p ->
                calculateCoupleWidth p (getSpouse p people) <= w).
Proof.
  cbv zeta. fold (subtreeWidth personId people maxDepth currentDepth visited).
  split; [|split].
  - rewrite subtreeWidth_gap_sum.
    destruct (decide (currentDepth > maxDepth)); [by left|].
    destruct (decide (personId ∈ visited)); [by left|].
    destruct (people_get people personId) as [p|]; [|by left].
    right. pose proof (calculateCoupleWidth_lower p (getSpouse p people)).
    cbv zeta. case_decide; lia.
  - apply (subtreeWidth_even people _ _ _ _ _ (le_n _)).
  - intros p Hd Hv Hp. by apply subtreeWidth_lower.
Qed.

(** X18.  Marking more ids as visited never widens a subtree, and the
    width depends on the two depth arguments through their difference
    only. *)
Theorem subtree_width_antitone personId people m c m' c' (V V' : gset string) :
  m - c = m' - c' ->
  V ⊆ V' ->
  fst (calculateSubtreeWidth personId people m' c' V')
  <= fst (calculateSubtreeWidth personId people m c V).
Proof.
  intros Hd HV. apply (subtreeWidth_mono people _ _ _ _ _ _ _ _ (le_n _) Hd HV).
Qed.

(** X19.  What [calculateSubtreeWidth] does to the set it is handed: it
    keeps what was in it and adds at most the person's id and the id of
    the resolved spouse.  Nothing a child call marks reaches the caller's
    set, so sibling subtrees are measured independently. *)
Theorem subtree_width_visited_effect personId people maxDepth currentDepth visited :
  let visited' :=
    snd (calculateSubtreeWidth personId people maxDepth currentDepth visited) in
  visited ⊆ visited'
  /\ (forall i, i ∈ visited' ->
        i ∈ visited \/ i = personId
        \/ exists p sp, people_get people personId = Some p
                        /\ getSpouse p people = Some sp /\ i = id sp).
Proof.
  cbv zeta. simp calculateSubtreeWidth.
  destruct (decide (currentDepth > maxDepth)); simpl; [split; [done|auto]|].
  destruct (decide (personId ∈ visited)); simpl; [split; [done|auto]|].
  destruct (people_get people personId) as [p|]; simpl.
  - assert (visited ⊆ add_spouse (getSpouse p people) ({[ personId ]} ∪ visited)
            ∧ forall i, i ∈ add_spouse (getSpouse p people) ({[ personId ]} ∪ visited) ->
                i ∈ visited ∨ i = personId
                ∨ exists p0 sp, Some p = Some p0
                                ∧ getSpouse p0 people = Some sp ∧ i = id sp) as H.
    { unfold add_spouse. destruct (getSpouse p people) as [sp|] eqn:Hsp.
      - split; [set_solver|]. intros i Hi.
        apply elem_of_union in Hi as [Hi|Hi].
        + right. right. exists p, sp. split; [done|]. split; [done|set_solver].
        + apply elem_of_union in Hi as [Hi|Hi]; [right; left; set_solver|by left].
      - split; [set_solver|]. intros i Hi.
        apply elem_of_union in Hi as [Hi|Hi]; [right; left; set_solver|by left]. }
    destruct (decide (childrenIds p = [] ∨ currentDepth >= maxDepth)); simpl; exact H.
  - split; [set_solver|]. intros i Hi.
    apply elem_of_union in Hi as [Hi|Hi]; [right; left; set_solver|by left].
Qed.

(** ** Size of the result *)

(** X20.  The layout is never larger than the graph: it has at most as
    many nodes as the graph has entries. *)
Theorem nodes_at_most_people fid people :
  (length (res_nodes (computeLayout fid people)) <= length people)%nat.
Proof.
  unfold computeLayout.
  destruct (people_get people fid) as [fp|] eqn:Hfp; simpl; [|lia].
  apply people_get_in_values in Hfp.
  destruct (ids_tracked_layout fid people fp Hfp) as [Hnd _].
  pose proof (persons_in_graph_layout fid people fp Hfp) as Hval.
  set (ns := nodes (layout_state fid people fp)) in *.
  assert (NoDup (map person ns)) as Hndp.
  { unfold node_ids, node_id in Hnd.
    assert (map (fun n => id (person n)) ns = map id (map person ns)) as Heq
      by (by rewrite map_map).
    rewrite Heq in Hnd. by apply (NoDup_fmap_1 id) in Hnd. }
  assert (map person ns ⊆+ people_values people) as Hsub.
  { apply NoDup_submseteq; [done|]. intros p Hp.
    apply list_elem_of_fmap in Hp as (n & -> & Hn).
    rewrite Forall_forall in Hval. by apply Hval. }
  apply submseteq_length in Hsub.
  unfold people_values in Hsub. rewrite !length_map in Hsub. exact Hsub.
Qed.

(** ** The further properties at concrete graphs *)

Lemma node_row_of_generation_witness :
  exists n,
    res_nodes (computeLayout "k1" Examples.family) !! 4%nat = Some n
    /\ y n = generation n * (VERTICAL_GAP + NODE_HEIGHT).
Proof.
  eexists. split; [vm_compute; reflexivity|].
  apply (node_row_of_generation "k1" Examples.family).
  apply (list_elem_of_lookup_2 _ 4%nat). vm_compute. reflexivity.
Defined.

Lemma node_roles_of_generation_witness :
  exists n,
    res_nodes (computeLayout "dad" Examples.family) !! 2%nat = Some n
    /\ (isChild n = true <-> 0 < generation n)
    /\ (isParent n = true <-> generation n < 0).
Proof.
  eexists. split; [vm_compute; reflexivity|].
  apply (node_roles_of_generation "dad" Examples.family).
  apply (list_elem_of_lookup_2 _ 2%nat). vm_compute. reflexivity.
Defined.

Lemma node_person_in_graph_witness :
  exists n,
    res_nodes (computeLayout "dad" Examples.family) !! 5%nat = Some n
    /\ person n ∈ people_values Examples.family.
Proof.
  eexists. split; [vm_compute; reflexivity|].
  apply (node_person_in_graph "dad" Examples.family).
  apply (list_elem_of_lookup_2 _ 5%nat). vm_compute. reflexivity.
Defined.

Lemma connection_ends_have_nodes_witness :
  exists c,
    res_connections (computeLayout "dad" Examples.family) !! 1%nat = Some c
    /\ (exists n, n ∈ res_nodes (computeLayout "dad" Examples.family)
                  /\ id (person n) = fromId c)
    /\ (exists n, n ∈ res_nodes (computeLayout "dad" Examples.family)
                  /\ id (person n) = toId c).
Proof.
  eexists. split; [vm_compute; reflexivity|].
  apply (connection_ends_have_nodes "dad" Examples.family).
  apply (list_elem_of_lookup_2 _ 1%nat). vm_compute. reflexivity.
Defined.

Lemma connection_geometry_witness :
  exists c,
    res_connections (computeLayout "dad" Examples.family) !! 0%nat = Some c
    /\ conn_type c = spouse_conn
    /\ py (conn_from c) = py (conn_to c)
    /\ px (conn_to c) - px (conn_from c) = SPOUSE_GAP.
Proof.
  eexists. split; [vm_compute; reflexivity|]. split; [reflexivity|].
  match goal with
  | |- py (conn_from ?c) = _ /\ _ =>
      apply (connection_geometry "dad" Examples.family c)
  end.
  apply (list_elem_of_lookup_2 _ 0%nat). vm_compute. reflexivity.
Defined.

Lemma connector_midpoints_witness :
  exists c,
    res_connections (computeLayout "dad" Examples.family) !! 1%nat = Some c
    /\ conn_type c = parent_child
    /\ elbow_midY c - py (conn_from c) = py (conn_to c) - elbow_midY c
    /\ 0 < elbow_midY c - py (conn_from c).
Proof.
  eexists. split; [vm_compute; reflexivity|]. split; [reflexivity|].
  match goal with
  | |- elbow_midY ?c - _ = _ /\ _ =>
      apply (connector_midpoints "dad" Examples.family c)
  end.
  apply (list_elem_of_lookup_2 _ 1%nat). vm_compute. reflexivity.
Defined.

Lemma focused_node_placement_witness :
  exists n,
    focusedNode (computeLayout "mom" Examples.family) = Some n
    /\ generation n = 0 /\ y n = 0
    /\ isChild n = false /\ isParent n = false /\ isSpouse n = false
    /\ x n = calculateNodeWidth (name Examples.dad) / 2 + SPOUSE_GAP / 2.
Proof.
  eexists. split; [vm_compute; reflexivity|].
  destruct (focused_node_placement "mom" Examples.family Examples.mom _
              eq_refl eq_refl eq_refl) as (H1 & H2 & H3 & H4 & H5 & H6).
  do 5 (split; [assumption|]).
  apply H6. discriminate.
Defined.

Lemma lineage_rows_hold_one_couple_witness :
  (length (filter (fun n => generation n = (-1)%Z)
             (res_nodes (computeLayout "k1" Examples.family))) <= 2)%nat.
Proof.
  apply (lineage_rows_hold_one_couple "k1" Examples.family (-1)). lia.
Defined.

Lemma findParents_sound_complete_witness :
  Examples.mom ∈ findParents "k1" Examples.family
  \/ exists r, r ∈ findParents "k1" Examples.family
               /\ spouseId r = Some (id Examples.mom).
Proof.
  apply (proj1 (proj2 (findParents_sound_complete "k1" Examples.family))).
  - unfold people_values. simpl. do 3 right. left.
  - simpl. left.
Defined.

Lemma personHasParents_iff_findParents_witness :
  findParents "k1" Examples.family ≠ [].
Proof.
  apply (proj1 (personHasParents_iff_findParents "k1" Examples.family)).
  reflexivity.
Defined.

Lemma findParents_first_lister_witness :
  exists pre post,
    people_values Examples.family = pre ++ Examples.dad :: post
    /\ Forall (fun q => "k1" ∉ childrenIds q) pre
    /\ "k1" ∈ childrenIds Examples.dad.
Proof.
  apply (findParents_first_lister "k1" Examples.family Examples.dad []).
  reflexivity.
Defined.

Lemma no_parents_no_rows_above_witness :
  exists n,
    res_nodes (computeLayout "gp" Examples.family) !! 2%nat = Some n
    /\ 0 <= generation n.
Proof.
  eexists. split; [vm_compute; reflexivity|].
  apply (no_parents_no_rows_above "gp" Examples.family); [reflexivity|].
  apply (list_elem_of_lookup_2 _ 2%nat). vm_compute. reflexivity.
Defined.

Lemma lineage_column_witness :
  exists n,
    res_nodes (computeLayout "k1" Examples.family) !! 3%nat = Some n
    /\ generation n <= 0
    /\ - (MAX_NODE_WIDTH + SPOUSE_GAP / 2) <= x n - width n / 2
    /\ x n + width n / 2 <= MAX_NODE_WIDTH + SPOUSE_GAP / 2.
Proof.
  eexists. split; [vm_compute; reflexivity|]. split; [vm_compute; discriminate|].
  apply (lineage_column "k1" Examples.family).
  - apply (list_elem_of_lookup_2 _ 3%nat). vm_compute. reflexivity.
  - vm_compute. discriminate.
Defined.

Lemma descendants_within_subtree_width_witness :
  exists n,
    res_nodes (computeLayout "dad" Examples.family) !! 3%nat = Some n
    /\ 0 <= generation n
    /\ - (fst (calculateSubtreeWidth "dad" Examples.family MAX_LAYERS_DOWN 0 ∅) / 2)
       <= x n - width n / 2
    /\ x n + width n / 2
       <= fst (calculateSubtreeWidth "dad" Examples.family MAX_LAYERS_DOWN 0 ∅) / 2.
Proof.
  eexists. split; [vm_compute; reflexivity|]. split; [vm_compute; discriminate|].
  apply (descendants_within_subtree_width "dad" Examples.family).
  - exact family_keyed.
  - apply (list_elem_of_lookup_2 _ 3%nat). vm_compute. reflexivity.
  - vm_compute. discriminate.
Defined.

Lemma bounds_are_tight_witness :
  exists n,
    n ∈ res_nodes (computeLayout "dad" Examples.family)
    /\ x n - width n / 2 = minX (bounds (computeLayout "dad" Examples.family)).
Proof.
  apply (proj1 (bounds_are_tight "dad" Examples.family ltac:(vm_compute; discriminate))).
Defined.

Lemma viewBox_margin_witness :
  exists n,
    res_nodes (computeLayout "dad" Examples.family) !! 0%nat = Some n
    /\ vb_x (viewBox (computeLayout "dad" Examples.family)) + viewBoxPadding
       <= x n - width n / 2.
Proof.
  eexists. split; [vm_compute; reflexivity|].
  refine (proj1 (viewBox_margin "dad" Examples.family _ _)).
  apply (list_elem_of_lookup_2 _ 0%nat). vm_compute. reflexivity.
Defined.

Lemma subtree_width_values_witness :
  calculateCoupleWidth Examples.dad (getSpouse Examples.dad Examples.family)
  <= fst (calculateSubtreeWidth "dad" Examples.family 4 0 ∅).
Proof.
  apply (proj2 (proj2 (subtree_width_values "dad" Examples.family 4 0 ∅))
           Examples.dad).
  - lia.
  - set_solver.
  - reflexivity.
Defined.

Lemma subtree_width_antitone_witness :
  fst (calculateSubtreeWidth "dad" Examples.family 3 0 {[ "k1" ]})
  <= fst (calculateSubtreeWidth "dad" Examples.family 4 1 ∅).
Proof.
  apply (subtree_width_antitone "dad" Examples.family 4 1 3 0 ∅ {[ "k1" ]}).
  - reflexivity.
  - set_solver.
Defined.

Lemma subtree_width_visited_effect_witness :
  "k1" ∉ snd (calculateSubtreeWidth "dad" Examples.family 4 0 ∅).
Proof.
  intros Hin.
  apply (proj2 (subtree_width_visited_effect "dad" Examples.family 4 0 ∅)) in Hin.
  destruct Hin as [Hin|[Hin|(p & sp & Hp & Hsp & Hin)]].
  - set_solver.
  - discriminate Hin.
  - injection Hp as <-. injection Hsp as <-. discriminate Hin.
Defined.

(** * C10: the [isSpouse] flag across the result *)

Lemma spouse_linked_app_l i cs cs' :
  spouse_linked i cs -> spouse_linked i (cs ++ cs').
Proof.
  intros (c & Hc & H). exists c. split; [|done]. apply elem_of_app. by left.
Qed.

Lemma spouse_linked_push i cs c :
  conn_type c = parent_child ->
  spouse_linked i (cs ++ [c]) -> spouse_linked i cs.
Proof.
  intros Hty (c' & Hc' & Hty' & H). exists c'. split; [|done].
  apply elem_of_app in Hc' as [Hc'|Hc']; [done|].
  apply list_elem_of_singleton in Hc' as ->. congruence.
Qed.

(** The nodes a couple placement adds show the person or the spouse the
    call places with the person. *)
Lemma couple_new_member fid people p cX cY gen c pr st n :
  n ∈ couple_new fid people p cX cY gen c pr st ->
  person n = p
  ∨ (exists sp, unplaced_spouse people p st = Some sp ∧ person n = sp).
Proof.
  unfold couple_new, place_new.
  destruct (unplaced_spouse people p st) as [sp|]; cbv zeta.
  - intros H. apply elem_of_app in H as [H|H]; revert H;
      case_decide; intros Hin;
      try (by apply elem_of_nil in Hin);
      apply list_elem_of_singleton in Hin as ->; unfold createNode; simpl;
      destruct (bool_decide (gender p = male)); eauto.
  - case_decide; intros Hin; [by apply elem_of_nil in Hin|].
    apply list_elem_of_singleton in Hin as ->. by left.
Qed.

(** In a call that places two partners, the spouse connection it pushes
    ends at every node it adds. *)
Lemma couple_new_linked fid people p sp cX cY gen c pr st l n :
  unplaced_spouse people p st = Some sp ->
  conn_type l = spouse_conn ->
  (fromId l = id p ∧ toId l = id sp) ∨ (fromId l = id sp ∧ toId l = id p) ->
  n ∈ couple_new fid people p cX cY gen c pr st ->
  spouse_linked (node_id n) (connections st ++ [l]).
Proof.
  intros Hsp Hty Hends Hn. exists l.
  split; [apply elem_of_app; right; apply list_elem_of_singleton; done|].
  split; [done|]. unfold node_id.
  apply couple_new_member in Hn as [->|(sp' & Hsp' & ->)].
  - destruct Hends as [[-> _]|[_ ->]]; auto.
  - rewrite Hsp in Hsp'. injection Hsp' as <-.
    destruct Hends as [[_ ->]|[-> _]]; auto.
Qed.

Lemma flagged_are_linked_layout fid people focusedPerson :
  focusedPerson ∈ people_values people ->
  flagged_are_linked fid (layout_state fid people focusedPerson).
Proof.
  intros Hp. apply layout_state_inv; [| |done|apply Forall_nil_2].
  - intros p cX cY gen c pr st _ _ Hst. unfold flagged_are_linked in *.
    destruct (positionCouple_connections fid people p cX cY gen c pr st)
      as (cs & Hcs & Hshape).
    rewrite positionCouple_nodes, Hcs. apply Forall_app. split.
    + eapply Forall_impl; [exact Hst|]. intros n Hn Hs.
      destruct (Hn Hs) as [? ?]. split; [done|]. by apply spouse_linked_app_l.
    + apply Forall_forall. intros n Hn Hs.
      pose proof (couple_new_isSpouse _ _ _ _ _ _ _ _ _ _ Hn) as Hflag.
      destruct (unplaced_spouse people p st) as [sp|] eqn:Hsp; [|congruence].
      destruct Hshape as (l & -> & Hty & Hends).
      rewrite Hs in Hflag. split.
      * intros Heq. unfold node_id in Heq.
        rewrite bool_decide_eq_true_2 in Hflag by done. done.
      * by eapply couple_new_linked.
  - intros c st Hty Hst. unfold flagged_are_linked, push_connection in *; simpl.
    eapply Forall_impl; [exact Hst|]. intros n Hn Hs.
    destruct (Hn Hs). split; [done|]. by apply spouse_linked_app_l.
Qed.

Lemma linked_are_flagged_couple fid people p cX cY gen c pr st :
  keyed_by_id people -> NoDup (map fst people) ->
  p ∈ people_values people ->
  linked_are_flagged fid people st ->
  linked_are_flagged fid people (positionCouple fid people p cX cY gen c pr st).2.
Proof.
  intros Hk Hnd Hp (Hids & Hper & Hends & Hrest & Hflag).
  destruct (positionCouple_connections fid people p cX cY gen c pr st)
    as (cs & Hcs & Hshape).
  destruct (positionCouple_positions fid people p cX cY gen c pr st)
    as (Hsub & Hpin & Hspin).
  destruct (couple_new_fresh fid people p cX cY gen c pr st) as (_ & Hfresh & _).
  rewrite Forall_forall in Hfresh.
  unfold linked_are_flagged.
  rewrite positionCouple_nodes, Hcs.
  split; [by apply ids_tracked_couple|].
  split; [apply Forall_app; split; [done|by apply couple_new_persons]|].
  split; [|split].
  - apply Forall_app. split.
    + eapply Forall_impl; [exact Hends|]. intros l Hl Hty.
      destruct (Hl Hty). split; by apply Hsub.
    + destruct (unplaced_spouse people p st) as [sp|] eqn:Hsp;
        [|subst cs; apply Forall_nil_2].
      destruct Hshape as (l & -> & Hty & Hl).
      apply unplaced_spouse_Some in Hsp as [Hsp _].
      apply Forall_singleton. intros _.
      destruct Hl as [[-> ->]|[-> ->]]; split; auto.
  - apply Forall_app. split.
    + eapply Forall_impl; [exact Hrest|]. intros n [Hn|Hn].
      * left. by apply spouse_linked_app_l.
      * right. intros sp Hsp. by apply Hsub, Hn.
    + apply Forall_forall. intros n Hn.
      destruct (unplaced_spouse people p st) as [sp|] eqn:Hsp.
      * destruct Hshape as (l & -> & Hty & Hl). left.
        by eapply couple_new_linked.
      * right. intros sp Hget.
        apply couple_new_member in Hn as [Hn|(sp' & Hsp' & _)];
          [|by rewrite Hsp in Hsp'].
        rewrite Hn in Hget. by apply Hspin.
  - apply Forall_app. split.
    + apply Forall_forall. intros n Hn Hlink Hfid.
      rewrite Forall_forall in Hflag. apply (Hflag n Hn); [|done].
      destruct Hlink as (l & Hl & Hty & Hend).
      apply elem_of_app in Hl as [Hl|Hl]; [by exists l|].
      destruct (unplaced_spouse people p st) as [sp|] eqn:Hsp;
        [|subst cs; by apply elem_of_nil in Hl].
      destruct Hshape as (l' & -> & _ & Hl').
      apply list_elem_of_singleton in Hl as ->.
      apply unplaced_spouse_Some in Hsp as [Hsp Hout].
      assert (node_id n ∈ positioned st) as Hnin by (by apply Hids).
      assert (node_id n = id p) as Hnp.
      { destruct Hl' as [[H1 H2]|[H1 H2]]; rewrite H1, H2 in Hend;
          destruct Hend as [Hend|Hend]; try done;
          rewrite <- Hend in Hnin; done. }
      assert (person n = p) as Hperson.
      { apply (value_by_id people); try done.
        rewrite Forall_forall in Hper. by apply Hper. }
      rewrite Forall_forall in Hrest.
      destruct (Hrest n Hn) as [Hlinked|Hnone]; [done|].
      rewrite Hperson in Hnone. by apply Hnone in Hsp.
    + apply Forall_forall. intros n Hn Hlink Hfid.
      pose proof (couple_new_isSpouse _ _ _ _ _ _ _ _ _ _ Hn) as Hs.
      destruct (unplaced_spouse people p st) as [sp|] eqn:Hsp.
      * rewrite Hs. unfold node_id in Hfid.
        by rewrite bool_decide_eq_false_2.
      * exfalso. subst cs. rewrite app_nil_r in Hlink.
        destruct Hlink as (l & Hl & Hty & Hend).
        rewrite Forall_forall in Hends. destruct (Hends l Hl Hty) as [H1 H2].
        apply (Hfresh n Hn). destruct Hend as [<-|<-]; done.
Qed.

Lemma linked_are_flagged_layout fid people focusedPerson :
  keyed_by_id people -> NoDup (map fst people) ->
  focusedPerson ∈ people_values people ->
  linked_are_flagged fid people (layout_state fid people focusedPerson).
Proof.
  intros Hk Hnd Hp. apply layout_state_inv; [| |done|].
  - intros. by apply linked_are_flagged_couple.
  - intros c st Hty (Hids & Hper & Hends & Hrest & Hflag).
    unfold linked_are_flagged, push_connection; simpl.
    split; [done|]. split; [done|]. split; [|split].
    + apply Forall_app. split; [done|]. apply Forall_singleton. congruence.
    + eapply Forall_impl; [exact Hrest|]. intros n [Hn|Hn]; [left|by right].
      by apply spouse_linked_app_l.
    + eapply Forall_impl; [exact Hflag|]. intros n Hn Hlink.
      apply Hn. by eapply spouse_linked_push.
  - unfold linked_are_flagged, empty_state; simpl.
    split; [split; [apply NoDup_nil_2|intros n Hn; by apply elem_of_nil in Hn]|].
    repeat split; apply Forall_nil_2.
Qed.

(** The partner placed with the focused person is flagged. *)
Lemma focus_partner_flagged fid people fp sp :
  fp ∈ people_values people ->
  getSpouse fp people = Some sp ->
  id sp ≠ fid ->
  exists n, n ∈ nodes (layout_state fid people fp)
            ∧ id (person n) = id sp ∧ isSpouse n = true.
Proof.
  intros Hfp Hsp Hne.
  assert (unplaced_spouse people fp empty_state = Some sp) as Hun.
  { unfold unplaced_spouse. rewrite Hsp. by rewrite decide_False by set_solver. }
  destruct (couple_new_spouse fid people fp sp 0 0 0 false false empty_state Hun)
    as (n & Hn & Hid).
  exists n. split; [|split; [done|]].
  - eapply elem_of_prefix; [|apply nodes_prefix_layout].
    rewrite positionCouple_nodes. apply elem_of_app. by right.
  - rewrite (couple_new_isSpouse _ _ _ _ _ _ _ _ _ _ Hn), Hun.
    unfold node_id in Hid. rewrite Hid. by rewrite bool_decide_eq_false_2.
Qed.

(** C10.  In every result of [computeLayout]: the node of the focused
    person has [isSpouse] false; a node with [isSpouse] true is not the
    focused person and has been placed with a partner, so that a spouse
    connection of the result ends at it, hence a person placed without a
    partner has [isSpouse] false; in a graph keyed by person id, its keys
    distinct, every spouse connection of the result joins two nodes of the
    result, and
    each node at one of its ends has [isSpouse] true unless it is the
    focused person, on the rows above and below the focus as on the row
    of the focus; the partner that resolves for the focused person has a
    node with [isSpouse] true.  The rule behind it, per couple placement:
    a placement of the person alone (no spouse resolves, or the spouse is
    already positioned) emits [isSpouse] false, a placement of two
    partners emits [isSpouse] true exactly for the ids other than the
    focused one. *)
Theorem isSpouse_flag fid people :
  (forall n, n ∈ res_nodes (computeLayout fid people) ->
             isFocused n = true -> isSpouse n = false)
  /\ (forall n, n ∈ res_nodes (computeLayout fid people) ->
                isSpouse n = true ->
                id (person n) <> fid
                /\ spouse_linked (id (person n))
                     (res_connections (computeLayout fid people)))
  /\ (keyed_by_id people -> NoDup (map fst people) ->
      forall c, c ∈ res_connections (computeLayout fid people) ->
                conn_type c = spouse_conn ->
        (exists a b, a ∈ res_nodes (computeLayout fid people)
                     /\ b ∈ res_nodes (computeLayout fid people)
                     /\ id (person a) = fromId c /\ id (person b) = toId c)
        /\ (forall n, n ∈ res_nodes (computeLayout fid people) ->
                      id (person n) = fromId c \/ id (person n) = toId c ->
                      isSpouse n = negb (bool_decide (id (person n) = fid))))
  /\ (forall fp sp, people_get people fid = Some fp ->
                    getSpouse fp people = Some sp ->
                    id sp <> fid ->
        exists n, n ∈ res_nodes (computeLayout fid people)
                  /\ id (person n) = id sp /\ isSpouse n = true)
  /\ (forall p cX cY gen ctxChild ctxParent st new n,
        nodes (positionCouple fid people p cX cY gen ctxChild ctxParent st).2
        = nodes st ++ new ->
        n ∈ new ->
        (getSpouse p people = None
         \/ (exists sp, getSpouse p people = Some sp /\ id sp ∈ positioned st) ->
         isSpouse n = false)
        /\ ((exists sp, getSpouse p people = Some sp /\ id sp ∉ positioned st) ->
            isSpouse n = negb (bool_decide (id (person n) = fid)))).
Proof.
  unfold computeLayout.
  destruct (people_get people fid) as [fp|] eqn:Hfp; simpl.
  - pose proof (people_get_in_values _ _ _ Hfp) as Hv.
    pose proof (flagged_are_linked_layout fid people fp Hv) as Hfl.
    unfold flagged_are_linked in Hfl. rewrite Forall_forall in Hfl.
    split; [|split; [|split; [|split]]].
    + pose proof (focused_not_spouse_layout fid people fp Hv) as H.
      unfold focused_not_spouse in H. rewrite Forall_forall in H. apply H.
    + exact Hfl.
    + intros Hk Hnd c Hc Hty. split.
      * destruct (anchored_layout fid people fp Hv) as (_ & Hcover & Hconn).
        rewrite Forall_forall in Hconn. destruct (Hconn c Hc) as [Hf Ht].
        destruct (Hcover _ Hf) as (a & Ha & Haid).
        destruct (Hcover _ Ht) as (b & Hb & Hbid).
        by exists a, b.
      * intros n Hn Hend.
        destruct (linked_are_flagged_layout fid people fp Hk Hnd Hv)
          as (_ & _ & _ & _ & Hflag).
        rewrite Forall_forall in Hflag.
        assert (spouse_linked (node_id n)
                  (connections (layout_state fid people fp))) as Hlink.
        { exists c. split; [done|]. split; [done|].
          unfold node_id. destruct Hend as [->| ->]; auto. }
        destruct (decide (id (person n) = fid)) as [Heq|Hne].
        -- rewrite bool_decide_eq_true_2 by done. simpl.
           destruct (isSpouse n) eqn:Hs; [|done].
           by destruct (Hfl n Hn Hs).
        -- rewrite bool_decide_eq_false_2 by done. simpl.
           by apply Hflag.
    + intros fp' sp [= <-] Hsp Hne. by apply focus_partner_flagged.
    + intros p cX cY gen c pr st new n. apply positionCouple_isSpouse.
  - split; [|split; [|split; [|split]]].
    + intros n H. by apply elem_of_nil in H.
    + intros n H. by apply elem_of_nil in H.
    + intros _ _ c H. by apply elem_of_nil in H.
    + intros fp sp H. discriminate H.
    + intros p cX cY gen c pr st new n. apply positionCouple_isSpouse.
Qed.

(** ** The theorem at a concrete graph *)

Lemma family_keys_distinct : NoDup (map fst Examples.family).
Proof. repeat (apply NoDup_cons_2; [set_solver|]). apply NoDup_nil_2. Defined.

Lemma isSpouse_flag_witness :
  (exists c a b,
     res_connections (computeLayout "gp" Examples.family) !! 1%nat = Some c
     /\ res_nodes (computeLayout "gp" Examples.family) !! 2%nat = Some a
     /\ res_nodes (computeLayout "gp" Examples.family) !! 3%nat = Some b
     /\ generation a = 1 /\ generation b = 1
     /\ isSpouse a = negb (bool_decide (id (person a) = "gp"))
     /\ isSpouse b = negb (bool_decide (id (person b) = "gp")))
  /\ (exists n,
        res_nodes (computeLayout "gp" Examples.family) !! 1%nat = Some n
        /\ id (person n) <> "gp"
        /\ spouse_linked (id (person n))
             (res_connections (computeLayout "gp" Examples.family)))
  /\ (exists n, n ∈ res_nodes (computeLayout "gp" Examples.family)
                /\ id (person n) = id Examples.grandma /\ isSpouse n = true).
Proof.
  split; [|split].
  - eexists _, _, _.
    split; [vm_compute; reflexivity|].
    split; [vm_compute; reflexivity|].
    split; [vm_compute; reflexivity|].
    split; [reflexivity|]. split; [reflexivity|].
    split.
    + refine (proj2 (proj1 (proj2 (proj2 (isSpouse_flag "gp" Examples.family)))
                       family_keyed family_keys_distinct _ _ _) _ _ _).
      * apply (list_elem_of_lookup_2 _ 1%nat). vm_compute. reflexivity.
      * reflexivity.
      * apply (list_elem_of_lookup_2 _ 2%nat). vm_compute. reflexivity.
      * left. reflexivity.
    + refine (proj2 (proj1 (proj2 (proj2 (isSpouse_flag "gp" Examples.family)))
                       family_keyed family_keys_distinct _ _ _) _ _ _).
      * apply (list_elem_of_lookup_2 _ 1%nat). vm_compute. reflexivity.
      * reflexivity.
      * apply (list_elem_of_lookup_2 _ 3%nat). vm_compute. reflexivity.
      * right. reflexivity.
  - eexists. split; [vm_compute; reflexivity|].
    apply (proj1 (proj2 (isSpouse_flag "gp" Examples.family))).
    + apply (list_elem_of_lookup_2 _ 1%nat). vm_compute. reflexivity.
    + reflexivity.
  - apply (proj1 (proj2 (proj2 (proj2 (isSpouse_flag "gp" Examples.family))))
             Examples.grandpa Examples.grandma).
    + reflexivity.
    + reflexivity.
    + discriminate.
Defined.
